(** * ddex-proto: registry, namespace-faithful codec, enum strings and
      round-trip oracle

    A shallow embedding of the run-time code that [pkg/ddexgen/ddexgen.go]
    emits (registry functions, [MarshalXML]/[UnmarshalXML] of root messages,
    enum accessors and parsers) and of [testutil/xml.go] (the DOM comparison
    used by the round-trip tests), followed by the properties the
    specification states about them.

    Conventions.
    - A Go [string] holding valid UTF-8 (which [encoding/xml] and [etree]
      guarantee for every name and value they hand out) is modelled as its
      sequence of Unicode code points, [list N].  Equality, concatenation,
      [HasPrefix], [HasSuffix], slicing at rune boundaries and splitting at an
      ASCII separator commute with UTF-8 encoding, so nothing is lost, and the
      rune-wise library functions ([strings.Fields], [strings.TrimSpace],
      [strings.ToUpper]) can be written as they are specified.
    - A Go [map] is a [gmap].  A [for k, v := range m] loop runs over an
      explicit sequence of the entries of [m]; every statement about such a
      loop quantifies over all sequences that are permutations of
      [map_to_list m], since Go leaves the order unspecified. *)

From Stdlib Require Import NArith ZArith Ascii String List Lia DecimalString.
From stdpp Require Import base tactics option list sets gmap fin_maps strings.

Local Open Scope N_scope.
Local Open Scope list_scope.

(** ** Part I: definitions *)

(** *** Go strings *)

Abbreviation rune := N (only parsing).
Abbreviation gostring := (list N) (only parsing).

(** An ASCII literal of the source as a sequence of code points. *)
Definition lit (s : string) : gostring :=
  (fun a : ascii => N_of_ascii a) <$> list_ascii_of_string s.

(** [strings.HasPrefix]:
    [len(s) >= len(prefix) && s[:len(prefix)] == prefix]. *)
Definition HasPrefix (s prefix : gostring) : bool :=
  bool_decide (length prefix ≤ length s)%nat
  && bool_decide (take (length prefix) s = prefix).

(** [strings.HasSuffix]:
    [len(s) >= len(suffix) && s[len(s)-len(suffix):] == suffix]. *)
Definition HasSuffix (s suffix : gostring) : bool :=
  bool_decide (length suffix ≤ length s)%nat
  && bool_decide (drop (length s - length suffix) s = suffix).

(** [strings.TrimSuffix]. *)
Definition TrimSuffix (s suffix : gostring) : gostring :=
  if HasSuffix s suffix then take (length s - length suffix) s else s.

(** [strings.TrimPrefix]. *)
Definition TrimPrefix (s prefix : gostring) : gostring :=
  if HasPrefix s prefix then drop (length prefix) s else s.

(** [strings.Index]: position of the first occurrence of [substr] in [s];
    [None] stands for Go's [-1]. *)
Fixpoint Index (s substr : gostring) : option nat :=
  if HasPrefix s substr then Some 0%nat
  else match s with
       | [] => None
       | _ :: s' => S <$> Index s' substr
       end.

(** [strings.Contains]. *)
Definition Contains (s substr : gostring) : bool :=
  bool_decide (is_Some (Index s substr)).

(** [strings.LastIndex]: position of the last occurrence. *)
Fixpoint LastIndex (s substr : gostring) : option nat :=
  match s with
  | [] => if HasPrefix [] substr then Some 0%nat else None
  | _ :: s' =>
      match LastIndex s' substr with
      | Some i => Some (S i)
      | None => if HasPrefix s substr then Some 0%nat else None
      end
  end.

(** [strings.Split(s, sep)] for a separator of one rune (the generated code
    only splits registry keys at ["/"]): the pieces between the occurrences
    of [sep], empty pieces included. *)
Fixpoint splitAt (sep : rune) (cur s : gostring) : list gostring :=
  match s with
  | [] => [reverse cur]
  | c :: s' =>
      if bool_decide (c = sep) then reverse cur :: splitAt sep [] s'
      else splitAt sep (c :: cur) s'
  end.

Definition Split (s : gostring) (sep : rune) : list gostring := splitAt sep [] s.

Definition slash : rune := 47.

(** *** encoding/xml values *)

Record Name := mkName { Space : gostring; Local : gostring }.

Record Attr := mkAttr { AttrName : Name; Value : gostring }.

(** The tokens [xml.Decoder.Token] returns.  Namespace prefixes are already
    translated: [xmlns:p="u"] arrives as [{Space: "xmlns", Local: "p"}],
    [xmlns="u"] as [{Space: "", Local: "xmlns"}], and a prefixed name carries
    the namespace URI in [Space]. *)
Inductive Token :=
  | StartElement (name : Name) (attr : list Attr)
  | EndElement (name : Name)
  | CharData (data : gostring)
  | Comment (data : gostring)
  | ProcInst (target inst : gostring)
  | Directive (data : gostring).

(** *** The generated registry ([generateRegistryFileAtPath],
        [generateRegistryFunctions]) *)

(** [reflect.Type] of a registered message: the package-qualified type the
    generator wrote into [reflect.TypeOf(pkg.Msg{})]. *)
Record MessageTypeInfo := mkInfo {
  Type_ : gostring;
  Namespace : gostring;
  RootElement : gostring
}.

#[global] Instance Name_eq_dec : EqDecision Name.
Proof. solve_decision. Defined.
#[global] Instance Attr_eq_dec : EqDecision Attr.
Proof. solve_decision. Defined.
#[global] Instance MessageTypeInfo_eq_dec : EqDecision MessageTypeInfo.
Proof. solve_decision. Defined.

(** The key the generator writes for a root message:
    [fmt.Sprintf("%s/%s/%s", messageType, version, msg.Name)]. *)
Definition registryKey (messageType version messageName : gostring) : gostring :=
  messageType ++ [slash] ++ version ++ [slash] ++ messageName.

(** [isRootMessage]: the closed list of root message names. *)
Definition isRootMessage (messageName : gostring) : bool :=
  bool_decide (messageName ∈
    [lit "NewReleaseMessage"; lit "PurgeReleaseMessage"; lit "CatalogListMessage";
     lit "MeadMessage"; lit "PieMessage"; lit "PieRequestMessage"]).

(** [NamespaceInfo]; the field [Namespace] is called [InfoNamespace] here. *)
Record NamespaceInfo := mkNamespaceInfo {
  InfoNamespace : gostring;
  NamespacePrefix : gostring;
  SchemaFile : gostring;
  ImportsAVS : bool
}.

(** [deriveNamespaceInfo], on the components of the cleaned package
    directory ([strings.Split(filepath.Clean(packageDir), separator)]);
    [checkAVSImport] reads the schema file. *)
Definition deriveNamespaceInfo
    (checkAVSImport : gostring → gostring → gostring → bool)
    (parts : list gostring) : option NamespaceInfo :=
  if bool_decide (length parts < 4)%nat then None
  else
    match list_find (fun part => part = lit "ddex") parts with
    | None => None
    | Some (ddexIndex, _) =>
        if bool_decide (length parts ≤ ddexIndex + 2)%nat then None
        else
          let messageType := default [] (parts !! (ddexIndex + 1)%nat) in
          let version := default [] (parts !! (ddexIndex + 2)%nat) in
          let versionNumber := TrimPrefix version (lit "v") in
          let info namespace schemaFile :=
            Some (mkNamespaceInfo namespace messageType schemaFile
                    (checkAVSImport messageType versionNumber schemaFile)) in
          if bool_decide (messageType = lit "ern") then
            info (lit "http://ddex.net/xml/ern/" ++ versionNumber)
                 (lit "release-notification.xsd")
          else if bool_decide (messageType = lit "mead") then
            info (lit "http://ddex.net/xml/mead/" ++ versionNumber)
                 (lit "media-enrichment-and-description.xsd")
          else if bool_decide (messageType = lit "pie") then
            info (lit "http://ddex.net/xml/pie/" ++ versionNumber)
                 (lit "party-identification-and-enrichment.xsd")
          else None
    end.

(** [extractVersionFromPath]: the first component that starts with ["v"]
    and is longer than one rune; [""] when there is none. *)
Fixpoint extractVersionFromPath (parts : list gostring) : gostring :=
  match parts with
  | [] => []
  | part :: rest =>
      if HasPrefix part (lit "v") && bool_decide (1 < length part)%nat then part
      else extractVersionFromPath rest
  end.

(** [PackageInfo]; [Messages] holds the names of the message types found in
    the package, [Dir] the components of its directory. *)
Record PackageInfo := mkPackage {
  Dir : list gostring;
  PackageName : gostring;
  ImportPath : gostring;
  Messages : list gostring;
  PackageNamespace : NamespaceInfo
}.

(** The step of [Generate] that collects a package for the registry. *)
Definition collectPackage
    (checkAVSImport : gostring → gostring → gostring → bool)
    (dir : list gostring) (packageName importPath : gostring)
    (messages : list gostring) : option PackageInfo :=
  if bool_decide (0 < length messages)%nat
     && existsb (fun part => Contains part (lit "ddex")) dir
  then nsInfo ← deriveNamespaceInfo checkAVSImport dir;
       Some (mkPackage dir packageName importPath messages nsInfo)
  else None.

(** The registry entries [generateRegistryFileAtPath] writes for one
    package: one per root message. *)
Definition registryEntries (pkg : PackageInfo) : list (gostring * MessageTypeInfo) :=
  let messageType := NamespacePrefix (PackageNamespace pkg) in
  let version := extractVersionFromPath (Dir pkg) in
  (fun msg => (registryKey messageType version msg,
               mkInfo (PackageName pkg ++ lit "." ++ msg)
                      (InfoNamespace (PackageNamespace pkg)) msg))
    <$> filter (fun msg => isRootMessage msg = true) (Messages pkg).

(** The map literal [messageRegistry].  (Go rejects a literal with a
    repeated key; [list_to_map] would keep the first.) *)
Definition generatedRegistry (packages : list PackageInfo)
    : gmap gostring MessageTypeInfo :=
  list_to_map (packages ≫= registryEntries).

(** The errors of the registry functions; [errorString] is the text that
    [fmt.Errorf] builds. *)
Inductive registryError :=
  | MalformedXML (cause : gostring)
  | UnrecognizedDocument (rootElement namespace : gostring)
  | NotRegistered (messageType version : gostring)
  | UnknownMessage (messageType version messageName : gostring).

Definition errorString (e : registryError) : gostring :=
  match e with
  | MalformedXML cause => lit "failed to parse XML: " ++ cause
  | UnrecognizedDocument r ns =>
      lit "unknown DDEX message type with root element '" ++ r
        ++ lit "' and namespace '" ++ ns ++ lit "'"
  | NotRegistered mt ver => lit "unknown message type: " ++ mt ++ [slash] ++ ver
  | UnknownMessage mt ver name =>
      lit "unknown message: " ++ mt ++ [slash] ++ ver ++ [slash] ++ name
  end.

Inductive result (A : Type) :=
  | Ok (a : A)
  | Err (e : registryError).
Arguments Ok {A} a.
Arguments Err {A} e.

(** [seq] is a sequence in which [range m] may yield the entries of [m]. *)
Definition rangeOf {V} (m : gmap gostring V) (seq : list (gostring * V)) : Prop :=
  seq ≡ₚ map_to_list m.

(** [New]: the first entry, in iteration order, whose key starts with
    ["messageType/version/"]; the result is a fresh zero value of its type,
    represented by the type handle. *)
Fixpoint New (entries : list (gostring * MessageTypeInfo))
    (messageType version : gostring) : result gostring :=
  match entries with
  | [] => Err (NotRegistered messageType version)
  | (key, info) :: rest =>
      if HasPrefix key (messageType ++ [slash] ++ version ++ [slash])
      then Ok (Type_ info)
      else New rest messageType version
  end.

(** [NewByMessageName]: exact lookup. *)
Definition NewByMessageName (registry : gmap gostring MessageTypeInfo)
    (messageType version messageName : gostring) : result gostring :=
  match registry !! registryKey messageType version messageName with
  | Some info => Ok (Type_ info)
  | None => Err (UnknownMessage messageType version messageName)
  end.

(** [IsRegistered]. *)
Fixpoint IsRegistered (entries : list (gostring * MessageTypeInfo))
    (messageType version : gostring) : bool :=
  match entries with
  | [] => false
  | (key, _) :: rest =>
      if HasPrefix key (messageType ++ [slash] ++ version ++ [slash]) then true
      else IsRegistered rest messageType version
  end.

(** The namespace fallback of [DetectMessageType]: the value of the first
    attribute whose local name is [xmlns] or starts with [xmlns:]; the
    namespace stays empty when there is none. *)
Fixpoint namespaceFromAttrs (attrs : list Attr) : gostring :=
  match attrs with
  | [] => []
  | a :: rest =>
      if bool_decide (Local (AttrName a) = lit "xmlns")
         || HasPrefix (Local (AttrName a)) (lit "xmlns:")
      then Value a
      else namespaceFromAttrs rest
  end.

(** The matching loop of [DetectMessageType]: the first entry, in iteration
    order, with the root element and namespace of the document and a key of
    three parts; [None] when the loop runs to its end. *)
Fixpoint matchRegistered (entries : list (gostring * MessageTypeInfo))
    (rootElement namespace : gostring) : option (gostring * gostring * gostring) :=
  match entries with
  | [] => None
  | (key, info) :: rest =>
      if bool_decide (RootElement info = rootElement)
         && bool_decide (Namespace info = namespace)
      then match Split key slash with
           | [p0; p1; p2] => Some (p0, p1, p2)
           | _ => matchRegistered rest rootElement namespace
           end
      else matchRegistered rest rootElement namespace
  end.

(** [DetectMessageType].  The document is given as the tokens its decoder
    yields and the error that ends the stream ([io.EOF] or a syntax error).
    Tokens before the first start element are skipped. *)
Fixpoint DetectMessageType (entries : list (gostring * MessageTypeInfo))
    (tokens : list Token) (streamErr : gostring)
    : result (gostring * gostring * gostring) :=
  match tokens with
  | [] => Err (MalformedXML streamErr)
  | StartElement name attrs :: _ =>
      let rootElement := Local name in
      let namespace :=
        if bool_decide (Space name = []) then namespaceFromAttrs attrs
        else Space name in
      match matchRegistered entries rootElement namespace with
      | Some triple => Ok triple
      | None => Err (UnrecognizedDocument rootElement namespace)
      end
  | _ :: rest => DetectMessageType entries rest streamErr
  end.

(** A minimal document with root element [rootElement] in the default
    namespace [namespace]: [<?xml ...?><rootElement xmlns="namespace"/>]. *)
Definition minimalDocument (rootElement namespace : gostring) : list Token :=
  [ProcInst (lit "xml") (lit "version='1.0'");
   StartElement (mkName namespace rootElement)
                [mkAttr (mkName [] (lit "xmlns")) namespace];
   EndElement (mkName namespace rootElement)].

(** *** The registry as a shared object ([GetRegisteredTypes])

    Go maps are references.  The store holds every map object of the
    process by address; the package variable [messageRegistry] lives at
    [registryLoc]. *)

Abbreviation store := (gmap positive (gmap (list N) MessageTypeInfo)) (only parsing).

Definition registryLoc : positive := 1%positive.

(** [make(map[string]MessageTypeInfo)]: a new, empty map object at an
    address not in use. *)
Definition makeMap (σ : store) : positive * store :=
  let l := fresh (dom σ) in (l, <[l := ∅]> σ).

(** [m[k] = v] through the reference [l]. *)
Definition mapAssign (l : positive) (k : gostring) (v : MessageTypeInfo)
    (σ : store) : store :=
  alter (insert k v) l σ.

(** [GetRegisteredTypes]: allocate [result], copy every entry of
    [messageRegistry] into it in iteration order, return the reference. *)
Definition GetRegisteredTypes (entries : list (gostring * MessageTypeInfo))
    (σ : store) : positive * store :=
  let '(result, σ1) := makeMap σ in
  (result, foldl (fun σ' kv => mapAssign result kv.1 kv.2 σ') σ1 entries).

(** What a caller can do to a map it holds a reference to. *)
Inductive mapMutation :=
  | Assign (k : gostring) (v : MessageTypeInfo)
  | Delete (k : gostring)
  | Clear.

Definition mutate (l : positive) (σ : store) (op : mapMutation) : store :=
  match op with
  | Assign k v => mapAssign l k v σ
  | Delete k => alter (delete k) l σ
  | Clear => alter (fun _ => ∅) l σ
  end.

(** The layout of the generated packages: [.../ddex/<family>/v<number>],
    where no earlier component is [ddex] or has the form of a version. *)
Definition canonicalDir (dir : list gostring) (family number : gostring) : Prop :=
  ∃ pre, dir = pre ++ [lit "ddex"; family; lit "v" ++ number]
         ∧ pre ≠ []
         ∧ (lit "ddex" ∉ pre)
         ∧ Forall (fun part => HasPrefix part (lit "v")
                               && bool_decide (1 < length part)%nat = false) pre
         ∧ number ≠ []
         ∧ (slash ∉ number).

(** A package of that layout, with the namespace information
    [deriveNamespaceInfo] computes for its directory. *)
Definition canonicalPackage (checkAVSImport : gostring → gostring → gostring → bool)
    (pkg : PackageInfo) : Prop :=
  ∃ family number,
    canonicalDir (Dir pkg) family number
    ∧ deriveNamespaceInfo checkAVSImport (Dir pkg) = Some (PackageNamespace pkg).

(** The registry the generator writes for three schema packages, ERN 4.3,
    ERN 4.3.2 and MEAD 1.1 ([InternalMessage] is a message type that is not
    a root message). *)
Definition samplePackages : list PackageInfo :=
  omap (fun p => collectPackage (fun _ _ _ => false) p.1.1 p.1.2
                   (lit "example.com/gen/ddex") p.2)
    [([lit "gen"; lit "ddex"; lit "ern"; lit "v43"], lit "ernv43",
      [lit "NewReleaseMessage"; lit "PurgeReleaseMessage"; lit "InternalMessage"]);
     ([lit "gen"; lit "ddex"; lit "ern"; lit "v432"], lit "ernv432",
      [lit "NewReleaseMessage"; lit "PurgeReleaseMessage"]);
     ([lit "gen"; lit "ddex"; lit "mead"; lit "v11"], lit "meadv11",
      [lit "MeadMessage"])].

Definition sampleRegistry : gmap gostring MessageTypeInfo :=
  generatedRegistry samplePackages.

(** *** The generated codec of a root message
        ([generateXMLMarshalingMethods]) *)

(** The namespace code is written only for root messages of a package with
    namespace information: [nsInfo != nil && isRootMessage(message.Name)]. *)
Definition namespaceHandling (hasNsInfo : bool) (messageName : gostring) : bool :=
  hasNsInfo && isRootMessage messageName.

Definition NamespaceXSI : gostring := lit "http://www.w3.org/2001/XMLSchema-instance".

(** The condition of the capture loop of [UnmarshalXML]. *)
Definition capturedAttr (attr : Attr) : bool :=
  bool_decide (Space (AttrName attr) = lit "xmlns")
  || bool_decide (Local (AttrName attr) = lit "xmlns")
  || (bool_decide (Space (AttrName attr) = NamespaceXSI)
      && bool_decide (Local (AttrName attr) = lit "schemaLocation")).

(** The key under which a captured attribute is stored. *)
Definition captureKey (attr : Attr) : gostring :=
  let key := Local (AttrName attr) in
  if bool_decide (Space (AttrName attr) = lit "xmlns") then
    lit "xmlns:" ++ Local (AttrName attr)
  else if bool_decide (Space (AttrName attr) ≠ [])
          && bool_decide (Local (AttrName attr) ≠ lit "xmlns") then
    if bool_decide (Space (AttrName attr) = NamespaceXSI) then
      lit "xsi:" ++ Local (AttrName attr)
    else key
  else key.

(** One iteration of the loop: [m.NamespaceAttrs[key] = attr.Value] for a
    captured attribute, nothing otherwise. *)
Definition captureAttr (namespaceAttrs : gmap gostring gostring) (attr : Attr)
    : gmap gostring gostring :=
  if capturedAttr attr then <[captureKey attr := Value attr]> namespaceAttrs
  else namespaceAttrs.

(** The capture part of [UnmarshalXML]: a nil [NamespaceAttrs] becomes an
    empty map, then the attributes of the start element are visited in
    document order. *)
Definition captureNamespaceAttrs (namespaceAttrs : option (gmap gostring gostring))
    (attrs : list Attr) : gmap gostring gostring :=
  foldl captureAttr (default ∅ namespaceAttrs) attrs.

(** [NamespaceAttrs] when [UnmarshalXML] hands over to [DecodeElement]: the
    capture loop is only part of the method of a root message. *)
Definition UnmarshalXML_NamespaceAttrs (hasNsInfo : bool) (messageName : gostring)
    (namespaceAttrs : option (gmap gostring gostring)) (attrs : list Attr)
    : option (gmap gostring gostring) :=
  if namespaceHandling hasNsInfo messageName
  then Some (captureNamespaceAttrs namespaceAttrs attrs)
  else namespaceAttrs.

(** The start element handed to [MarshalXML]. *)
Record StartElementValue := mkStart { StartName : Name; StartAttr : list Attr }.

(** One step of the reflection loop of [MarshalXML] over the struct fields:
    [xmlTag] is [field.Tag.Get("xml")]. *)
Definition noteFieldTag (existingAttrs : gmap gostring bool) (xmlTag : gostring)
    : gmap gostring bool :=
  if bool_decide (xmlTag ≠ []) && bool_decide (xmlTag ≠ lit "-") then
    if HasSuffix xmlTag (lit ",attr") then
      let attrName := TrimSuffix xmlTag (lit ",attr") in
      match Index attrName (lit ":") with
      | Some _ => <[attrName := true]> existingAttrs
      | None =>
          if bool_decide (attrName ≠ []) then <[attrName := true]> existingAttrs
          else existingAttrs
      end
    else existingAttrs
  else existingAttrs.

(** [existingAttrs] after the loop over the fields, in declaration order. *)
Definition existingAttrsOf (fieldTags : list gostring) : gmap gostring bool :=
  foldl noteFieldTag ∅ fieldTags.

(** [existingAttrs[key]]: a missing key reads as [false]. *)
Definition indexBool (m : gmap gostring bool) (key : gostring) : bool :=
  default false (m !! key).

(** One iteration of the loop over [m.NamespaceAttrs]. *)
Definition appendNamespaceAttr (existingAttrs : gmap gostring bool)
    (start : StartElementValue) (kv : gostring * gostring) : StartElementValue :=
  if negb (indexBool existingAttrs kv.1)
  then mkStart (StartName start) (StartAttr start ++ [mkAttr (mkName [] kv.1) kv.2])
  else start.

(** The start element [MarshalXML] of a root message passes on to
    [EncodeElement]: its namespace is set to the package constant
    [Namespace], and the entries of [NamespaceAttrs] (a nil map ranges over
    nothing) are appended in iteration order unless a field tag claims
    their key. *)
Definition MarshalXML_start (packageNamespace : gostring) (fieldTags : list gostring)
    (rangeSeq : list (gostring * gostring)) (start : StartElementValue)
    : StartElementValue :=
  let start1 := mkStart (mkName packageNamespace (Local (StartName start)))
                        (StartAttr start) in
  foldl (appendNamespaceAttr (existingAttrsOf fieldTags)) start1 rangeSeq.

(** *** Enum string methods ([generateEnumStringMethod],
        [generateEnumParser]) *)

Record EnumInfo := mkEnum { EnumName : gostring; Constants : list gostring }.

Section EnumStrings.

(** [unicode.ToUpper] above U+007F is a table of the Go library. *)
Variable unicodeUpper : rune → rune.

(** The [int32] values of the constants, declared in the [.pb.go] file the
    generator reads. *)
Variable constValue : gostring → Z.

(** [unicode.ToUpper]. *)
Definition toUpperRune (r : rune) : rune :=
  if r <=? 127 then
    if (97 <=? r) && (r <=? 122) then r - 32 else r
  else unicodeUpper r.

(** [strings.ToUpper] maps [unicode.ToUpper] over the runes. *)
Definition ToUpper (s : gostring) : gostring := toUpperRune <$> s.

(** The body of the loop over [enum.Constants], the same in both
    generators: the case written for [constant], if any, as the pair of the
    constant and the text after the last [UPPER(enum.Name) + "_"]. *)
Definition enumCase (enum : EnumInfo) (constant : gostring)
    : option (gostring * gostring) :=
  if HasSuffix constant (lit "_UNSPECIFIED") then None
  else
    let upperName := ToUpper (EnumName enum) in
    match LastIndex constant (upperName ++ lit "_") with
    | Some idx =>
        let afterPrefix := drop (idx + length upperName + 1) constant in
        if bool_decide (afterPrefix ≠ [])
           && bool_decide (afterPrefix ≠ lit "UNSPECIFIED")
        then Some (constant, afterPrefix)
        else None
    | None => None
    end.

Definition enumCases (enum : EnumInfo) : list (gostring * gostring) :=
  omap (enumCase enum) (Constants enum).

(** The generated [XMLString]: a switch on the value with one case per
    entry of [enumCases], [default: return ""]. *)
Definition XMLString (enum : EnumInfo) (e : Z) : gostring :=
  match find (fun c => bool_decide (constValue c.1 = e)) (enumCases enum) with
  | Some (_, afterPrefix) => afterPrefix
  | None => []
  end.

(** The generated [Parse<Enum>String]: [s = strings.ToUpper(s)], then a
    switch on [s] with one case per entry of [enumCases],
    [default: return Enum(0), false]. *)
Definition ParseString (enum : EnumInfo) (s : gostring) : Z * bool :=
  match find (fun c => bool_decide (c.2 = ToUpper s)) (enumCases enum) with
  | Some (constant, _) => (constValue constant, true)
  | None => (0%Z, false)
  end.

End EnumStrings.

(** An enum type with four constants, and their values. *)
Definition genreEnum : EnumInfo :=
  mkEnum (lit "Genre")
    [lit "Genre_GENRE_UNSPECIFIED"; lit "Genre_GENRE_ROCK"; lit "Genre_GENRE_HipHop";
     lit "Genre_MUSIC_STYLE_JAZZ"].

Definition genreValue (constant : gostring) : Z :=
  if bool_decide (constant = lit "Genre_GENRE_ROCK") then 1%Z
  else if bool_decide (constant = lit "Genre_GENRE_HipHop") then 2%Z
  else if bool_decide (constant = lit "Genre_MUSIC_STYLE_JAZZ") then 3%Z
  else 0%Z.

(** *** The round-trip oracle ([testutil/xml.go]) *)

(** [etree] elements, as [CompareDOMTrees] reads them: the tag, the
    attributes in document order, [Text()] and [ChildElements()]. *)
Module etree.

Record Attr := mkAttr { Space : gostring; Key : gostring; Value : gostring }.

#[warnings="-register-all"]
Inductive Element := mkElement {
  Tag : gostring;
  Attrs : list Attr;
  Text : gostring;
  ChildElements : list Element
}.

End etree.

Abbreviation Element := etree.Element (only parsing).

(** Go's [int] on a 64-bit platform. *)
Definition wrapInt (n : Z) : Z := ((n + 2 ^ 63) mod 2 ^ 64 - 2 ^ 63)%Z.

Record DOMComparison := mkComparison {
  ElementsOriginal : Z;
  ElementsMarshaled : Z;
  AttributesOriginal : Z;
  AttributesMarshaled : Z;
  MissingElements : list gostring;
  MissingAttributes : list gostring;
  ValueMismatches : list gostring;
  ExtraElements : list gostring;
  MarshaledParseable : bool;
  Success : bool
}.

Definition addExtraElement (entry : gostring) (c : DOMComparison) : DOMComparison :=
  mkComparison (ElementsOriginal c) (ElementsMarshaled c) (AttributesOriginal c)
    (AttributesMarshaled c) (MissingElements c) (MissingAttributes c)
    (ValueMismatches c) (ExtraElements c ++ [entry]) (MarshaledParseable c) (Success c).

Definition addMissingElement (entry : gostring) (c : DOMComparison) : DOMComparison :=
  mkComparison (ElementsOriginal c) (ElementsMarshaled c) (AttributesOriginal c)
    (AttributesMarshaled c) (MissingElements c ++ [entry]) (MissingAttributes c)
    (ValueMismatches c) (ExtraElements c) (MarshaledParseable c) (Success c).

Definition addMissingAttribute (entry : gostring) (c : DOMComparison) : DOMComparison :=
  mkComparison (ElementsOriginal c) (ElementsMarshaled c) (AttributesOriginal c)
    (AttributesMarshaled c) (MissingElements c) (MissingAttributes c ++ [entry])
    (ValueMismatches c) (ExtraElements c) (MarshaledParseable c) (Success c).

Definition addValueMismatch (entry : gostring) (c : DOMComparison) : DOMComparison :=
  mkComparison (ElementsOriginal c) (ElementsMarshaled c) (AttributesOriginal c)
    (AttributesMarshaled c) (MissingElements c) (MissingAttributes c)
    (ValueMismatches c ++ [entry]) (ExtraElements c) (MarshaledParseable c) (Success c).

(** [comp.ElementsOriginal++; comp.ElementsMarshaled++]. *)
Definition countElements (c : DOMComparison) : DOMComparison :=
  mkComparison (wrapInt (ElementsOriginal c + 1)) (wrapInt (ElementsMarshaled c + 1))
    (AttributesOriginal c) (AttributesMarshaled c) (MissingElements c)
    (MissingAttributes c) (ValueMismatches c) (ExtraElements c)
    (MarshaledParseable c) (Success c).

(** [comp.AttributesOriginal++] once per attribute of the original. *)
Definition countAttributesOriginal (n : nat) (c : DOMComparison) : DOMComparison :=
  mkComparison (ElementsOriginal c) (ElementsMarshaled c)
    (Nat.iter n (fun k => wrapInt (k + 1)) (AttributesOriginal c))
    (AttributesMarshaled c) (MissingElements c)
    (MissingAttributes c) (ValueMismatches c) (ExtraElements c)
    (MarshaledParseable c) (Success c).

Definition countAttributesMarshaled (n : nat) (c : DOMComparison) : DOMComparison :=
  mkComparison (ElementsOriginal c) (ElementsMarshaled c) (AttributesOriginal c)
    (Nat.iter n (fun k => wrapInt (k + 1)) (AttributesMarshaled c)) (MissingElements c)
    (MissingAttributes c) (ValueMismatches c) (ExtraElements c)
    (MarshaledParseable c) (Success c).

Definition setMarshaledParseable (b : bool) (c : DOMComparison) : DOMComparison :=
  mkComparison (ElementsOriginal c) (ElementsMarshaled c) (AttributesOriginal c)
    (AttributesMarshaled c) (MissingElements c) (MissingAttributes c)
    (ValueMismatches c) (ExtraElements c) b (Success c).

Definition setSuccess (b : bool) (c : DOMComparison) : DOMComparison :=
  mkComparison (ElementsOriginal c) (ElementsMarshaled c) (AttributesOriginal c)
    (AttributesMarshaled c) (MissingElements c) (MissingAttributes c)
    (ValueMismatches c) (ExtraElements c) (MarshaledParseable c) b.

(** [unicode.IsSpace]: the White_Space property. *)
Definition isSpace (r : rune) : bool :=
  ((9 <=? r) && (r <=? 13))
  || (r =? 32) || (r =? 133) || (r =? 160) || (r =? 5760)
  || ((8192 <=? r) && (r <=? 8202))
  || (r =? 8232) || (r =? 8233) || (r =? 8239) || (r =? 8287) || (r =? 12288).

(** Removal of the leading white space. *)
Fixpoint trimLeft (s : gostring) : gostring :=
  match s with
  | [] => []
  | c :: s' => if isSpace c then trimLeft s' else s
  end.

(** [strings.TrimSpace]: leading and trailing white space removed. *)
Definition TrimSpace (s : gostring) : gostring :=
  reverse (trimLeft (reverse (trimLeft s))).

(** [strings.ReplaceAll(s, old, new)] for an [old] of two runes
    ([normalizeValue] replaces ["\r\n"]): occurrences are replaced from left
    to right, without overlap. *)
Fixpoint ReplaceAll2 (old1 old2 : rune) (new s : gostring) : gostring :=
  match s with
  | a :: t =>
      match t with
      | b :: rest =>
          if bool_decide (a = old1) && bool_decide (b = old2)
          then new ++ ReplaceAll2 old1 old2 new rest
          else a :: ReplaceAll2 old1 old2 new t
      | [] => s
      end
  | [] => s
  end.

(** The field being read is kept reversed in [cur]; [flushField] closes it. *)
Definition flushField (cur : gostring) : list gostring :=
  match cur with
  | [] => []
  | _ => [reverse cur]
  end.

Fixpoint fieldsFrom (cur s : gostring) : list gostring :=
  match s with
  | [] => flushField cur
  | c :: s' =>
      if isSpace c then flushField cur ++ fieldsFrom [] s'
      else fieldsFrom (c :: cur) s'
  end.

(** [strings.Fields]: the maximal runs of non-space runes. *)
Definition Fields (s : gostring) : list gostring := fieldsFrom [] s.

(** [strings.Join]. *)
Definition Join (elems : list gostring) (sep : gostring) : gostring :=
  match elems with
  | [] => []
  | e :: rest => e ++ concat ((fun x => sep ++ x) <$> rest)
  end.

(** [normalizeValue]. *)
Definition normalizeValue (s : gostring) : gostring :=
  let s := TrimSpace s in
  let s := ReplaceAll2 13 10 [10] s in
  Join (Fields s) [32].

(** [%d] of a non-negative number. *)
Definition formatInt (n : nat) : gostring :=
  lit (NilEmpty.string_of_uint (Nat.to_uint n)).

(** [origAttrs[attr.Key] = attr.Value] over the attributes in order. *)
Definition attrMap (attrs : list etree.Attr) : gmap gostring gostring :=
  foldl (fun m a => <[etree.Key a := etree.Value a]> m) ∅ attrs.

(** [groupElementsByTag]. *)
Definition groupElementsByTag (elements : list Element) : gmap gostring (list Element) :=
  foldl (fun grouped elem =>
           <[etree.Tag elem := default [] (grouped !! etree.Tag elem) ++ [elem]]> grouped)
        ∅ elements.

(** One iteration of the loop over [origAttrs]. *)
Definition compareAttribute (currentPath : gostring)
    (marshaledAttrs : gmap gostring gostring)
    (comp : DOMComparison) (kv : gostring * gostring) : DOMComparison :=
  let key := kv.1 in
  let origValue := kv.2 in
  if HasPrefix key (lit "xmlns") then comp
  else match marshaledAttrs !! key with
       | None => addMissingAttribute (currentPath ++ lit "@" ++ key) comp
       | Some marshaledValue =>
           if bool_decide (normalizeValue origValue ≠ normalizeValue marshaledValue)
           then addValueMismatch
                  (currentPath ++ lit "@" ++ key ++ lit ": '" ++ origValue
                     ++ lit "' != '" ++ marshaledValue ++ lit "'") comp
           else comp
       end.

(** The text comparison of two elements without child elements. *)
Definition compareText (currentPath : gostring) (original marshaled : Element)
    (comp : DOMComparison) : DOMComparison :=
  if bool_decide (length (etree.ChildElements original) = 0%nat)
     && bool_decide (length (etree.ChildElements marshaled) = 0%nat)
  then
    let origText := normalizeValue (etree.Text original) in
    let marshaledText := normalizeValue (etree.Text marshaled) in
    if bool_decide (origText ≠ []) && bool_decide (origText ≠ marshaledText)
    then addValueMismatch
           (currentPath ++ lit ": '" ++ origText ++ lit "' != '" ++ marshaledText
              ++ lit "'") comp
    else comp
  else comp.

(** The path handed to the [i]-th pair of children with one tag. *)
Definition childPathOf (currentPath : gostring) (i : nat) : gostring :=
  if bool_decide (0 < i)%nat
  then currentPath ++ lit "[" ++ formatInt (i + 1) ++ lit "]"
  else currentPath.

Section Oracle.

(** The order in which a [range] loop of the element at [path] yields the
    attributes, and the tags. *)
Variable rangeAttrs : gostring → gmap gostring gostring → list (gostring * gostring).
Variable rangeTags : gostring → gset gostring → list gostring.

(** The inner loop [for i := 0; i < maxLen; i++] over the children with
    one tag; [recurse] is the recursive call. *)
Definition compareChildren
    (recurse : option Element → option Element → gostring → DOMComparison
               → option DOMComparison)
    (currentPath : gostring) (origList marshaledList : list Element)
    (comp : option DOMComparison) : option DOMComparison :=
  foldl (fun acc i =>
           c ← acc;
           let origChild := origList !! i in
           let marshaledChild := marshaledList !! i in
           if bool_decide (is_Some origChild) || bool_decide (is_Some marshaledChild)
           then recurse origChild marshaledChild (childPathOf currentPath i) c
           else Some c)
        comp (seq 0 (Nat.max (length origList) (length marshaledList))).

(** The outer loop [for tag := range allTags]. *)
Definition compareTagGroups
    (recurse : option Element → option Element → gostring → DOMComparison
               → option DOMComparison)
    (currentPath : gostring)
    (origChildren marshaledChildren : gmap gostring (list Element))
    (tags : list gostring) (comp : option DOMComparison) : option DOMComparison :=
  foldl (fun acc tag =>
           compareChildren recurse currentPath
             (default [] (origChildren !! tag))
             (default [] (marshaledChildren !! tag)) acc)
        comp tags.

(** [CompareDOMTrees] with a bound on the depth of the recursion; [None]
    when the bound is reached. *)
Fixpoint compareFuel (fuel : nat) (original marshaled : option Element)
    (path : gostring) (comp : DOMComparison) : option DOMComparison :=
  match fuel with
  | O => None
  | S fuel' =>
      match original, marshaled with
      | None, None => Some comp
      | None, Some m =>
          Some (addExtraElement (path ++ lit "/" ++ etree.Tag m) comp)
      | Some o, None =>
          Some (addMissingElement (path ++ lit "/" ++ etree.Tag o) comp)
      | Some o, Some m =>
          let currentPath := path ++ lit "/" ++ etree.Tag o in
          let comp := countElements comp in
          let origAttrs := attrMap (etree.Attrs o) in
          let comp := countAttributesOriginal (length (etree.Attrs o)) comp in
          let marshaledAttrs := attrMap (etree.Attrs m) in
          let comp := countAttributesMarshaled (length (etree.Attrs m)) comp in
          let comp := foldl (compareAttribute currentPath marshaledAttrs) comp
                            (rangeAttrs currentPath origAttrs) in
          let comp := compareText currentPath o m comp in
          let origChildren := groupElementsByTag (etree.ChildElements o) in
          let marshaledChildren := groupElementsByTag (etree.ChildElements m) in
          let allTags := dom origChildren ∪ dom marshaledChildren in
          compareTagGroups (compareFuel fuel') currentPath
            origChildren marshaledChildren
            (rangeTags currentPath allTags) (Some comp)
      end
  end.

(** The depth of an element. *)
Fixpoint height (e : Element) : nat :=
  S (foldr (fun c acc => Nat.max (height c) acc) 0%nat (etree.ChildElements e)).

(** [CompareDOMTrees]: the recursion is never deeper than the original
    tree plus one call. *)
Definition CompareDOMTrees (original marshaled : option Element)
    (path : gostring) (comp : DOMComparison) : DOMComparison :=
  default comp
    (compareFuel (S (from_option height 0%nat original)) original marshaled path comp).

(** [etree.Document.ReadFromBytes] followed by [Root()]: [None] for a parse
    error, [Some None] for a document without a root element. *)
Variable parseDocument : gostring → option (option Element).

(** The [RoundTripValidator]; [None] for an error. *)
Variable validator : gostring → option gostring.

(** [os.ReadFile]. *)
Variable readFile : gostring → option gostring.

Definition newComparison : DOMComparison :=
  mkComparison 0 0 0 0 [] [] [] [] true true.

(** The final block: "Set success based on critical issues". *)
Definition setSuccessFromIssues (comparison : DOMComparison) : DOMComparison :=
  if bool_decide (0 < length (MissingElements comparison))%nat
     || bool_decide (0 < length (MissingAttributes comparison))%nat
     || bool_decide (0 < length (ValueMismatches comparison))%nat
     || negb (MarshaledParseable comparison)
  then setSuccess false comparison
  else comparison.

(** [PerformRoundTripValidationFromData]. *)
Definition PerformRoundTripValidationFromData (originalXML : gostring)
    : DOMComparison :=
  let comparison := newComparison in
  match parseDocument originalXML with
  | None => setSuccess false comparison
  | Some originalRoot =>
      match validator originalXML with
      | None => setSuccess false comparison
      | Some marshaledXML =>
          match parseDocument marshaledXML with
          | None => setMarshaledParseable false (setSuccess false comparison)
          | Some marshaledRoot =>
              let comparison :=
                CompareDOMTrees originalRoot marshaledRoot [] comparison in
              let comparison :=
                match validator marshaledXML with
                | None => setMarshaledParseable false comparison
                | Some _ => comparison
                end in
              setSuccessFromIssues comparison
          end
      end
  end.

(** [PerformRoundTripValidation]: the same after reading the file. *)
Definition PerformRoundTripValidation (xmlPath : gostring) : DOMComparison :=
  match readFile xmlPath with
  | None => setSuccess false newComparison
  | Some originalXML => PerformRoundTripValidationFromData originalXML
  end.

End Oracle.

(** Two values that differ only in formatting: white space added or
    removed at either end, or a non-empty run of white space replaced by
    another one (a run collapsed to one space, ["\r\n"] turned into
    ["\n"]). *)
Inductive reformatted : gostring → gostring → Prop :=
  | reformatted_refl s : reformatted s s
  | reformatted_sym s t : reformatted s t → reformatted t s
  | reformatted_trans s t u : reformatted s t → reformatted t u → reformatted s u
  | reformatted_lead ws s :
      Forall (fun r => isSpace r = true) ws → reformatted (ws ++ s) s
  | reformatted_trail ws s :
      Forall (fun r => isSpace r = true) ws → reformatted (s ++ ws) s
  | reformatted_run a ws ws' b :
      ws ≠ [] → ws' ≠ [] →
      Forall (fun r => isSpace r = true) ws →
      Forall (fun r => isSpace r = true) ws' →
      reformatted (a ++ ws ++ b) (a ++ ws' ++ b).

(** A field: a non-empty run of runes that are not white space. *)
Definition isWord (w : gostring) : Prop :=
  w ≠ [] ∧ Forall (fun r => isSpace r = false) w.

(** The iterations of the attribute loop that record a missing attribute,
    and those that record a value mismatch. *)
Definition recordsMissing (marshaledAttrs : gmap gostring gostring)
    (kv : gostring * gostring) : bool :=
  negb (HasPrefix kv.1 (lit "xmlns")) && bool_decide (marshaledAttrs !! kv.1 = None).

Definition recordsMismatch (marshaledAttrs : gmap gostring gostring)
    (kv : gostring * gostring) : bool :=
  negb (HasPrefix kv.1 (lit "xmlns"))
  && match marshaledAttrs !! kv.1 with
     | Some marshaledValue =>
         bool_decide (normalizeValue kv.2 ≠ normalizeValue marshaledValue)
     | None => false
     end.

Definition missingEntry (currentPath : gostring) (kv : gostring * gostring) : gostring :=
  currentPath ++ lit "@" ++ kv.1.

Definition mismatchEntry (currentPath : gostring)
    (marshaledAttrs : gmap gostring gostring) (kv : gostring * gostring) : gostring :=
  currentPath ++ lit "@" ++ kv.1 ++ lit ": '" ++ kv.2 ++ lit "' != '"
    ++ default [] (marshaledAttrs !! kv.1) ++ lit "'".

(** The iteration orders used in the examples: those of the map library. *)
Definition rangeAttrsCanonical (_ : gostring) (m : gmap gostring gostring)
    : list (gostring * gostring) := map_to_list m.

Definition rangeTagsCanonical (_ : gostring) (tags : gset gostring) : list gostring :=
  elements tags.

(** [<a xmlns="u" id="7" title=" Hello   World " lang="en"><b>text</b><c/></a>] *)
Definition sampleOriginal : Element :=
  etree.mkElement (lit "a")
    [etree.mkAttr [] (lit "xmlns") (lit "u");
     etree.mkAttr [] (lit "id") (lit "7");
     etree.mkAttr [] (lit "title") (lit " Hello   World ");
     etree.mkAttr [] (lit "lang") (lit "en")]
    []
    [etree.mkElement (lit "b") [] (lit "text") [];
     etree.mkElement (lit "c") [] [] []].

(** [<a title="Hello World" lang="fr"><b> text </b><d/></a>] *)
Definition sampleMarshaled : Element :=
  etree.mkElement (lit "a")
    [etree.mkAttr [] (lit "title") (lit "Hello World");
     etree.mkAttr [] (lit "lang") (lit "fr")]
    []
    [etree.mkElement (lit "b") [] (lit " text ") [];
     etree.mkElement (lit "d") [] [] []].

(** The round-tripped bytes of a run are re-parseable: the run obtained
    them (the original parsed and the validator returned them), they parse
    as a document, and the validator accepts them in turn. *)
Definition roundTripReparseable (parseDocument : gostring → option (option Element))
    (validator : gostring → option gostring) (originalXML : gostring) : Prop :=
  ∃ originalRoot marshaledXML marshaledRoot again,
    parseDocument originalXML = Some originalRoot
    ∧ validator originalXML = Some marshaledXML
    ∧ parseDocument marshaledXML = Some marshaledRoot
    ∧ validator marshaledXML = Some again.

(** A pipeline whose output gains an element: it turns [<a/>] into
    [<a><b/></a>] and accepts its own output. *)
Definition sampleParse (xml : gostring) : option (option Element) :=
  if bool_decide (xml = lit "<a/>") then
    Some (Some (etree.mkElement (lit "a") [] [] []))
  else if bool_decide (xml = lit "<a><b/></a>") then
    Some (Some (etree.mkElement (lit "a") [] []
                  [etree.mkElement (lit "b") [] [] []]))
  else None.

Definition sampleValidator (xml : gostring) : option gostring :=
  if bool_decide (xml = lit "<a/>") || bool_decide (xml = lit "<a><b/></a>")
  then Some (lit "<a><b/></a>")
  else None.

(** *** Further registry functions ([generateRegistryFunctions]) *)

(** [GetAvailableTypes]: the keys, appended in iteration order. *)
Definition GetAvailableTypes (entries : list (gostring * MessageTypeInfo))
    : list gostring :=
  foldl (fun types kv => types ++ [kv.1]) [] entries.

(** The errors of [ParseAny] and [Parse]: the stage that failed and the
    wrapped error. *)
Inductive parseError :=
  | DetectFailed (e : registryError)
  | CreateFailed (e : registryError)
  | UnmarshalFailed (cause : gostring)
  | LookupFailed (e : registryError)
  | UnmarshalTypedFailed (messageType version cause : gostring).

Definition parseErrorString (e : parseError) : gostring :=
  match e with
  | DetectFailed e => lit "failed to detect message type: " ++ errorString e
  | CreateFailed e => lit "failed to create message instance: " ++ errorString e
  | UnmarshalFailed cause => lit "failed to unmarshal XML: " ++ cause
  | LookupFailed e => errorString e
  | UnmarshalTypedFailed mt ver cause =>
      lit "failed to unmarshal " ++ mt ++ [slash] ++ ver ++ lit ": " ++ cause
  end.

Section Parsing.

(** The messages [xml.Unmarshal] builds. *)
Variable message : Type.

(** The token stream [xml.NewDecoder] yields for the bytes of a document,
    with the error that ends it. *)
Variable decodeTokens : gostring → list Token * gostring.

(** [xml.Unmarshal(xmlData, reflect.New(type).Interface())]: the message, or
    the text of the decoder's error. *)
Variable Unmarshal : gostring → gostring → message + gostring.

(** [ParseAny]: [detectEntries] is the order in which [DetectMessageType]
    ranges over the registry. *)
Definition ParseAny (registry : gmap gostring MessageTypeInfo)
    (detectEntries : list (gostring * MessageTypeInfo)) (xmlData : gostring)
    : parseError + (message * gostring * gostring) :=
  match DetectMessageType detectEntries (decodeTokens xmlData).1
          (decodeTokens xmlData).2 with
  | Err e => inl (DetectFailed e)
  | Ok (msgType, ver, msgName) =>
      match NewByMessageName registry msgType ver msgName with
      | Err e => inl (CreateFailed e)
      | Ok type =>
          match Unmarshal type xmlData with
          | inr cause => inl (UnmarshalFailed cause)
          | inl msg => inr (msg, msgType, ver)
          end
      end
  end.

(** [Parse]: [newEntries] is the order in which [New] ranges over the
    registry. *)
Definition Parse (newEntries : list (gostring * MessageTypeInfo))
    (xmlData messageType version : gostring) : parseError + message :=
  match New newEntries messageType version with
  | Err e => inl (LookupFailed e)
  | Ok type =>
      match Unmarshal type xmlData with
      | inr cause => inl (UnmarshalTypedFailed messageType version cause)
      | inl msg => inr msg
      end
  end.

End Parsing.

(** The lists of the report that decide [Success], and all four lists. *)
Definition criticalIssues (c : DOMComparison)
    : list gostring * list gostring * list gostring :=
  (MissingElements c, MissingAttributes c, ValueMismatches c).

Definition allIssues (c : DOMComparison)
    : list gostring * list gostring * list gostring * list gostring :=
  (MissingElements c, MissingAttributes c, ValueMismatches c, ExtraElements c).

(** The relation the oracle checks between an original element and its
    marshaled counterpart.  [marshaled] covers [original] when
    - every attribute of the original whose key (as [etree] gives it, the
      part of the name after the prefix) does not start with [xmlns] is an
      attribute of the marshaled element, with a value that holds the same
      white-space separated fields;
    - if neither element has child elements, the text of the original holds
      no field or the same fields as the text of the marshaled element;
    - for every tag, the children of the original with that tag are covered,
      in document order, by the first children of the marshaled element
      with that tag.
    The tags of the two elements themselves are not compared, nor are the
    children the marshaled element has in addition. *)
#[warnings="-register-all"]
Inductive covers : Element → Element → Prop :=
  | covers_intro (original marshaled : Element) :
      (∀ key value,
         attrMap (etree.Attrs original) !! key = Some value →
         HasPrefix key (lit "xmlns") = false →
         ∃ value', attrMap (etree.Attrs marshaled) !! key = Some value'
                   ∧ Fields value = Fields value') →
      (etree.ChildElements original = [] → etree.ChildElements marshaled = [] →
       Fields (etree.Text original) = []
       ∨ Fields (etree.Text original) = Fields (etree.Text marshaled)) →
      (∀ tag, ∃ partners,
         partners `prefix_of`
           filter (fun c => etree.Tag c = tag) (etree.ChildElements marshaled)
         ∧ Forall2 covers
             (filter (fun c => etree.Tag c = tag) (etree.ChildElements original))
             partners) →
      covers original marshaled.

(** The three lists that decide [Success] only grow at their end. *)
Definition issuesGrow (c c' : DOMComparison) : Prop :=
  MissingElements c `prefix_of` MissingElements c'
  ∧ MissingAttributes c `prefix_of` MissingAttributes c'
  ∧ ValueMismatches c `prefix_of` ValueMismatches c'.

(** [covers] for the roots of two documents, either of which may have no
    root element: a root the original has and the marshaled document lacks
    is missing; a root only the marshaled document has is an extra
    element. *)
Definition coversRoot (original marshaled : option Element) : Prop :=
  match original, marshaled with
  | Some o, Some m => covers o m
  | Some _, None => False
  | None, _ => True
  end.

(** [CollectAllPaths] on an element: its own path, then one path per
    attribute whose key does not start with [xmlns], then the paths of the
    children, each appended in document order. *)
Fixpoint collectPaths (elem : Element) (parentPath : gostring) : list gostring :=
  let currentPath := parentPath ++ lit "/" ++ etree.Tag elem in
  let paths := [currentPath] in
  let paths :=
    foldl (fun paths attr =>
             if negb (HasPrefix (etree.Key attr) (lit "xmlns"))
             then paths ++ [currentPath ++ lit "@" ++ etree.Key attr]
             else paths)
          paths (etree.Attrs elem) in
  foldl (fun paths child => paths ++ collectPaths child currentPath)
        paths (etree.ChildElements elem).

(** [CollectAllPaths]: the empty slice for a nil element. *)
Definition CollectAllPaths (elem : option Element) (parentPath : gostring)
    : list gostring :=
  match elem with
  | None => []
  | Some e => collectPaths e parentPath
  end.

(** The number of elements of a tree, and the number of their attributes. *)
Fixpoint countElems (e : Element) : nat :=
  S (foldr (fun c acc => (countElems c + acc)%nat) 0%nat (etree.ChildElements e)).

Fixpoint countAttrs (e : Element) : nat :=
  (length (etree.Attrs e)
   + foldr (fun c acc => (countAttrs c + acc)%nat) 0%nat (etree.ChildElements e))%nat.

(** A counter of the report after [n] increments. *)
Definition incremented (n : nat) (counter : Z) : Z :=
  Nat.iter n (fun k => wrapInt (k + 1)) counter.

(** The four counters of [c'] are those of [c] after [elems] increments of
    the element counters and [attrs] increments of the attribute
    counters. *)
Definition counted (elems attrs : nat) (c c' : DOMComparison) : Prop :=
  ElementsOriginal c' = incremented elems (ElementsOriginal c)
  ∧ ElementsMarshaled c' = incremented elems (ElementsMarshaled c)
  ∧ AttributesOriginal c' = incremented attrs (AttributesOriginal c)
  ∧ AttributesMarshaled c' = incremented attrs (AttributesMarshaled c).

(** *** The test helpers built on the registry and the versioned ERN API *)

Section RegistryClients.

Variable message : Type.
Variable decodeTokens : gostring → list Token * gostring.
Variable Unmarshal : gostring → gostring → message + gostring.

(** [xml.MarshalIndent(msg, "", "  ")]; [None] for an error. *)
Variable MarshalIndent : message → option gostring.

(** [getUnmarshalerForMessageType]: [nil] when the pair is not registered,
    else a closure around [Parse].  Every call of the closure ranges over
    the registry anew; [parseOrder] gives the order of the call on a
    document. *)
Definition getUnmarshalerForMessageType
    (registeredOrder : list (gostring * MessageTypeInfo))
    (parseOrder : gostring → list (gostring * MessageTypeInfo))
    (messageType version : gostring) : option (gostring → parseError + message) :=
  if negb (IsRegistered registeredOrder messageType version) then None
  else Some (fun data => Parse message Unmarshal (parseOrder data) data messageType version).

(** [getRoundTripValidatorForMessageType]: [ParseAny], then
    [xml.MarshalIndent] of the message; [None] for an error of either. *)
Definition getRoundTripValidatorForMessageType
    (registry : gmap gostring MessageTypeInfo)
    (detectOrder : gostring → list (gostring * MessageTypeInfo))
    (xmlData : gostring) : option gostring :=
  match ParseAny message decodeTokens Unmarshal registry (detectOrder xmlData) xmlData with
  | inl _ => None
  | inr (msg, _, _) => MarshalIndent msg
  end.

End RegistryClients.

(** *** The versioned ERN API ([ParseERNWithVersion]) *)

(** The errors of [ParseERNWithVersion]. *)
Inductive ernError :=
  | UnknownERNMessageType
  | UnsupportedERNVersion (version : gostring)
  | ERNUnmarshalError (cause : gostring).

Section ERNParsing.

Variable message : Type.

(** [var msg T; err := xml.Unmarshal(xmlData, &msg)]: the value of [msg]
    afterwards and the error, for the type [T] given by its qualified
    name. *)
Variable UnmarshalInto : gostring → gostring → message * option gostring.

(** The three typed branches return [&msg, err], also when [err] is not
    nil. *)
Definition unmarshalERN (type xmlData : gostring) : option message * option ernError :=
  (Some (UnmarshalInto type xmlData).1, ERNUnmarshalError <$> (UnmarshalInto type xmlData).2).

Definition parseNewReleaseMessage (xmlData version : gostring)
    : option message * option ernError :=
  if bool_decide (version = lit "43") then
    unmarshalERN (lit "ernv43.NewReleaseMessage") xmlData
  else if bool_decide (version = lit "383") then
    unmarshalERN (lit "ernv383.NewReleaseMessage") xmlData
  else if bool_decide (version = lit "432") then
    unmarshalERN (lit "ernv432.NewReleaseMessage") xmlData
  else (None, Some (UnsupportedERNVersion version)).

Definition parsePurgeReleaseMessage (xmlData version : gostring)
    : option message * option ernError :=
  if bool_decide (version = lit "43") then
    unmarshalERN (lit "ernv43.PurgeReleaseMessage") xmlData
  else if bool_decide (version = lit "383") then
    unmarshalERN (lit "ernv383.PurgeReleaseMessage") xmlData
  else if bool_decide (version = lit "432") then
    unmarshalERN (lit "ernv432.PurgeReleaseMessage") xmlData
  else (None, Some (UnsupportedERNVersion version)).

(** [ParseERNWithVersion]. *)
Definition ParseERNWithVersion (xmlData version : gostring)
    : option message * option ernError :=
  if Contains xmlData (lit "NewReleaseMessage") then
    parseNewReleaseMessage xmlData version
  else if Contains xmlData (lit "PurgeReleaseMessage") then
    parsePurgeReleaseMessage xmlData version
  else (None, Some UnknownERNMessageType).

End ERNParsing.

(** The attribute a typed field is written as by [encoding/xml], read off
    its struct tag: the options of a tag are separated by commas, the first
    part is the name, and the field is an attribute when [attr] is among the
    other parts ([name,attr], [name,attr,omitempty], ...). *)
Definition attrFieldName (xmlTag : gostring) : option gostring :=
  match Split xmlTag 44 with
  | name :: options => if bool_decide (lit "attr" ∈ options) then Some name else None
  | [] => None
  end.

(** ** Part II: properties *)

(** *** Go strings *)

Lemma HasPrefix_true s p : HasPrefix s p = true ↔ p `prefix_of` s.
Proof.
  unfold HasPrefix. rewrite andb_true_iff, !bool_decide_eq_true. split.
  - intros [_ H]. exists (drop (length p) s). by rewrite <- H at 1; rewrite take_drop.
  - intros [k ->]. split; [rewrite length_app; lia|]. by rewrite take_app_length.
Qed.

Lemma HasPrefix_app p s : HasPrefix (p ++ s) p = true.
Proof. apply HasPrefix_true. by exists s. Qed.

Lemma splitAt_no_sep sep cur s :
  sep ∉ s → splitAt sep cur s = [reverse cur ++ s].
Proof.
  revert cur. induction s as [|c s IH]; intros cur Hs; simpl.
  - by rewrite app_nil_r.
  - rewrite bool_decide_eq_false_2 by set_solver.
    rewrite IH by set_solver. by rewrite reverse_cons, <- app_assoc.
Qed.

Lemma splitAt_app_sep sep cur s t :
  sep ∉ s → splitAt sep cur (s ++ sep :: t) = (reverse cur ++ s) :: splitAt sep [] t.
Proof.
  revert cur. induction s as [|c s IH]; intros cur Hs; simpl.
  - rewrite bool_decide_eq_true_2 by done. by rewrite app_nil_r.
  - rewrite bool_decide_eq_false_2 by set_solver.
    rewrite IH by set_solver. by rewrite reverse_cons, <- app_assoc.
Qed.

(** Splitting a generated key gives back its three components. *)
Lemma Split_registryKey mt ver name :
  slash ∉ mt → slash ∉ ver → slash ∉ name →
  Split (registryKey mt ver name) slash = [mt; ver; name].
Proof.
  intros Hmt Hver Hname. unfold Split, registryKey.
  change (mt ++ [slash] ++ ver ++ [slash] ++ name)
    with (mt ++ slash :: (ver ++ slash :: name)).
  rewrite splitAt_app_sep by done. rewrite splitAt_app_sep by done.
  by rewrite splitAt_no_sep.
Qed.

(** *** Registry lookups *)

Lemma rangeOf_elem {V} (m : gmap gostring V) seq k v :
  rangeOf m seq → (k, v) ∈ seq ↔ m !! k = Some v.
Proof. unfold rangeOf. intros ->. apply elem_of_map_to_list. Qed.


Lemma matchRegistered_the_entry entries root ns key info p0 p1 p2 :
  (key, info) ∈ entries →
  RootElement info = root → Namespace info = ns →
  Split key slash = [p0; p1; p2] →
  (∀ key' info', (key', info') ∈ entries →
     RootElement info' = root → Namespace info' = ns → key' = key) →
  matchRegistered entries root ns = Some (p0, p1, p2).
Proof.
  intros Hin Hroot Hns Hsplit.
  induction entries as [|[k i] rest IH]; intros Huniq; [by apply elem_of_nil in Hin|].
  simpl.
  destruct (bool_decide (RootElement i = root)
            && bool_decide (Namespace i = ns)) eqn:E.
  - apply andb_true_iff in E as [Hr%bool_decide_eq_true Hn%bool_decide_eq_true].
    rewrite (Huniq k i) by (done || left). by rewrite Hsplit.
  - apply elem_of_cons in Hin as [Heq|Hin].
    + injection Heq as -> ->.
      rewrite !bool_decide_eq_true_2 in E by done. discriminate.
    + apply IH; [done|]. intros k' i' Hin'. apply Huniq. by right.
Qed.


Lemma DetectMessageType_minimal entries root ns err :
  DetectMessageType entries (minimalDocument root ns) err
  = match matchRegistered entries root ns with
    | Some triple => Ok triple
    | None => Err (UnrecognizedDocument root ns)
    end.
Proof.
  unfold minimalDocument. cbn [DetectMessageType Local Space].
  case_bool_decide as E; [|done].
  cbn [namespaceFromAttrs AttrName Local Value].
  rewrite (bool_decide_eq_true_2 (lit "xmlns" = lit "xmlns")) by done.
  cbn [orb]. by rewrite E.
Qed.

(** C4.  Detection of a registered message.  Let the registry hold, under
    the generated key [family/version/rootElementName] (components free of
    ["/"]), an entry whose root element is [rootElementName], and let no
    entry under another key carry the same root element and namespace.
    Then, whatever the order in which the registry is ranged over,
    [DetectMessageType] on the minimal document with that root element and
    the registered namespace returns exactly
    [(family, version, rootElementName)]. *)
Theorem DetectMessageType_registered
    (registry : gmap gostring MessageTypeInfo)
    (entries : list (gostring * MessageTypeInfo))
    (family version rootElementName : gostring) (info : MessageTypeInfo)
    (streamErr : gostring) :
  rangeOf registry entries →
  registry !! registryKey family version rootElementName = Some info →
  RootElement info = rootElementName →
  slash ∉ family → slash ∉ version → slash ∉ rootElementName →
  (∀ key' info', registry !! key' = Some info' →
     RootElement info' = rootElementName → Namespace info' = Namespace info →
     key' = registryKey family version rootElementName) →
  DetectMessageType entries (minimalDocument rootElementName (Namespace info)) streamErr
  = Ok (family, version, rootElementName).
Proof.
  intros Hrange Hreg Hroot Hf Hv Hn Huniq.
  rewrite DetectMessageType_minimal.
  erewrite matchRegistered_the_entry; [done| | | | |].
  - apply (rangeOf_elem registry); [done|exact Hreg].
  - done.
  - done.
  - by apply Split_registryKey.
  - intros k' i' Hin. apply Huniq. by apply (rangeOf_elem registry entries).
Qed.


Lemma New_no_prefix entries mt ver :
  (∀ key info, (key, info) ∈ entries →
     HasPrefix key (mt ++ [slash] ++ ver ++ [slash]) = false) →
  New entries mt ver = Err (NotRegistered mt ver).
Proof.
  induction entries as [|[key info] rest IH]; intros Hno; cbn [New]; [done|].
  rewrite (Hno key info) by left. apply IH. intros k i Hin. apply (Hno k i). by right.
Qed.

(** C6.  Lookup of an unregistered pair.  If no key of the registry has the
    prefix ["messageType/version/"], then [New], whatever the iteration
    order, fails with [NotRegistered] ("unknown message type:
    messageType/version") and returns no type handle. *)
Theorem New_not_registered
    (registry : gmap gostring MessageTypeInfo)
    (entries : list (gostring * MessageTypeInfo))
    (messageType version : gostring) :
  rangeOf registry entries →
  (∀ key, key ∈ dom registry →
     ¬ (messageType ++ [slash] ++ version ++ [slash]) `prefix_of` key) →
  New entries messageType version = Err (NotRegistered messageType version)
  ∧ errorString (NotRegistered messageType version)
    = lit "unknown message type: " ++ messageType ++ [slash] ++ version.
Proof.
  intros Hrange Hno. split; [|done]. apply New_no_prefix.
  intros key info Hin. apply not_true_is_false. rewrite HasPrefix_true.
  apply Hno. apply elem_of_dom. exists info. by apply (rangeOf_elem registry entries).
Qed.

(** *** Registries written by the generator *)

Lemma deriveNamespaceInfo_canonical checkAVSImport dir family number info :
  canonicalDir dir family number →
  deriveNamespaceInfo checkAVSImport dir = Some info →
  family ∈ [lit "ern"; lit "mead"; lit "pie"]
  ∧ NamespacePrefix info = family
  ∧ InfoNamespace info = lit "http://ddex.net/xml/" ++ family ++ [slash] ++ number.
Proof.
  intros (pre & -> & Hpre & Hddex & _ & _ & _). unfold deriveNamespaceInfo.
  assert (Hfind : list_find (fun part => part = lit "ddex")
                    (pre ++ [lit "ddex"; family; lit "v" ++ number])
                  = Some (length pre, lit "ddex")).
  { apply list_find_Some. split; [|split; [done|]].
    - by rewrite lookup_app_r, Nat.sub_diag by lia.
    - intros j y Hj Hlt ->. apply Hddex.
      rewrite lookup_app_l in Hj by done. by eapply list_elem_of_lookup_2. }
  rewrite Hfind, !length_app. cbn [length].
  rewrite bool_decide_eq_false_2 by (destruct pre; [done|cbn [length]; lia]).
  rewrite bool_decide_eq_false_2 by lia.
  rewrite !lookup_app_r by lia.
  replace (length pre + 1 - length pre)%nat with 1%nat by lia.
  replace (length pre + 2 - length pre)%nat with 2%nat by lia.
  cbn [lookup list_lookup default].
  assert (Htrim : TrimPrefix (lit "v" ++ number) (lit "v") = number).
  { unfold TrimPrefix. rewrite HasPrefix_app. by rewrite drop_app_length. }
  unfold id. rewrite Htrim.
  repeat case_bool_decide; subst; intros [= <-]; cbn [NamespacePrefix InfoNamespace];
    (split; [set_solver|split; [done|reflexivity]]).
Qed.

Lemma extractVersionFromPath_canonical dir family number :
  canonicalDir dir family number →
  family ∈ [lit "ern"; lit "mead"; lit "pie"] →
  extractVersionFromPath dir = lit "v" ++ number.
Proof.
  intros (pre & -> & _ & _ & Hpre & Hnum & _) Hfam.
  induction Hpre as [|part pre Hpart _ IH]; cbn [app extractVersionFromPath].
  - change (HasPrefix (lit "ddex") (lit "v")) with false. cbn [andb].
    assert (Hf : HasPrefix family (lit "v") = false).
    { repeat (apply elem_of_cons in Hfam as [->|Hfam]; [reflexivity|]).
      by apply elem_of_nil in Hfam. }
    rewrite Hf. cbn [andb]. rewrite HasPrefix_app.
    rewrite bool_decide_eq_true_2; [done|].
    rewrite length_app. destruct number; [done|]. cbn [length lit]. cbn. lia.
  - by rewrite Hpart.
Qed.

Lemma family_namespace_inj family family' number number' :
  family ∈ [lit "ern"; lit "mead"; lit "pie"] →
  family' ∈ [lit "ern"; lit "mead"; lit "pie"] →
  lit "http://ddex.net/xml/" ++ family ++ [slash] ++ number
  = lit "http://ddex.net/xml/" ++ family' ++ [slash] ++ number' →
  family = family' ∧ number = number'.
Proof.
  intros Hf Hf' Heq%app_inv_head.
  repeat (apply elem_of_cons in Hf as [->|Hf]); [| | |by apply elem_of_nil in Hf];
    (repeat (apply elem_of_cons in Hf' as [->|Hf']); [| | |by apply elem_of_nil in Hf']);
    try (by apply app_inv_head in Heq as [= ->]);
    exfalso; vm_compute in Heq; discriminate Heq.
Qed.

Lemma registryEntries_elem pkg key info :
  (key, info) ∈ registryEntries pkg →
  key = registryKey (NamespacePrefix (PackageNamespace pkg))
          (extractVersionFromPath (Dir pkg)) (RootElement info)
  ∧ Namespace info = InfoNamespace (PackageNamespace pkg)
  ∧ isRootMessage (RootElement info) = true.
Proof.
  unfold registryEntries. intros (msg & [= -> ->] & Hmsg)%list_elem_of_fmap.
  apply list_elem_of_filter in Hmsg as [Hroot _]. done.
Qed.

Lemma generatedRegistry_elem packages key info :
  generatedRegistry packages !! key = Some info →
  ∃ pkg, pkg ∈ packages ∧ (key, info) ∈ registryEntries pkg.
Proof.
  unfold generatedRegistry. intros Hin%elem_of_list_to_map_2.
  apply list_elem_of_bind in Hin as (pkg & ? & ?). eauto.
Qed.

Lemma isRootMessage_no_slash msg : isRootMessage msg = true → slash ∉ msg.
Proof.
  unfold isRootMessage. intros Hin%bool_decide_eq_true.
  repeat (apply elem_of_cons in Hin as [->|Hin];
          [apply (bool_decide_unpack _); vm_compute; exact I|]).
  by apply elem_of_nil in Hin.
Qed.

(** In a registry written for packages of the canonical layout, the root
    element and the namespace of an entry determine its key, and the key has
    three components. *)
Lemma generatedRegistry_wf checkAVSImport packages key info :
  (∀ pkg, pkg ∈ packages → canonicalPackage checkAVSImport pkg) →
  generatedRegistry packages !! key = Some info →
  ∃ family version,
    key = registryKey family version (RootElement info)
    ∧ (slash ∉ family) ∧ (slash ∉ version) ∧ (slash ∉ RootElement info)
    ∧ ∀ key' info', generatedRegistry packages !! key' = Some info' →
        RootElement info' = RootElement info → Namespace info' = Namespace info →
        key' = key.
Proof.
  intros Hcanon (pkg & Hpkg & Hentry)%generatedRegistry_elem.
  destruct (registryEntries_elem _ _ _ Hentry) as (-> & Hns & Hroot).
  destruct (Hcanon pkg Hpkg) as (family & number & Hdir & Hderive).
  destruct (deriveNamespaceInfo_canonical _ _ _ _ _ Hdir Hderive) as (Hfam & Hprefix & Hinfo).
  rewrite Hprefix, (extractVersionFromPath_canonical _ _ _ Hdir Hfam).
  exists family, (lit "v" ++ number). split; [done|].
  assert (Hnum : slash ∉ number) by (by destruct Hdir as (? & _ & _ & _ & _ & _ & ?)).
  split; [|split; [|split]].
  - repeat (apply elem_of_cons in Hfam as [->|Hfam];
            [apply (bool_decide_unpack _); vm_compute; exact I|]).
    by apply elem_of_nil in Hfam.
  - intros [Hv|?]%elem_of_app; [|done].
    revert Hv. apply (bool_decide_unpack _). vm_compute. exact I.
  - by apply isRootMessage_no_slash.
  - intros key' info' (pkg' & Hpkg' & Hentry')%generatedRegistry_elem Hr Hn.
    destruct (registryEntries_elem _ _ _ Hentry') as (-> & Hns' & _).
    destruct (Hcanon pkg' Hpkg') as (family' & number' & Hdir' & Hderive').
    destruct (deriveNamespaceInfo_canonical _ _ _ _ _ Hdir' Hderive')
      as (Hfam' & Hprefix' & Hinfo').
    rewrite Hprefix', (extractVersionFromPath_canonical _ _ _ Hdir' Hfam'), Hr.
    rewrite Hns, Hns', Hinfo, Hinfo' in Hn.
    by apply family_namespace_inj in Hn as [-> ->].
Qed.

(** X9.  Generation and detection compose.  On the registry the generator
    writes for packages of the canonical layout, every entry is found again,
    whatever the iteration order, from the minimal document of its root
    element and namespace: detection returns the components of its key. *)
Corollary DetectMessageType_generated checkAVSImport packages entries key info streamErr :
  (∀ pkg, pkg ∈ packages → canonicalPackage checkAVSImport pkg) →
  rangeOf (generatedRegistry packages) entries →
  generatedRegistry packages !! key = Some info →
  ∃ family version,
    key = registryKey family version (RootElement info)
    ∧ DetectMessageType entries
        (minimalDocument (RootElement info) (Namespace info)) streamErr
      = Ok (family, version, RootElement info).
Proof.
  intros Hcanon Hrange Hkey.
  destruct (generatedRegistry_wf _ _ _ _ Hcanon Hkey)
    as (family & version & -> & Hf & Hv & Hr & Huniq).
  exists family, version. split; [done|].
  rewrite DetectMessageType_minimal.
  rewrite (matchRegistered_the_entry entries (RootElement info) (Namespace info)
             (registryKey family version (RootElement info)) info
             family version (RootElement info)); try done.
  - by apply (rangeOf_elem (generatedRegistry packages)).
  - by apply Split_registryKey.
  - intros key' info' Hin. apply Huniq.
    by apply (rangeOf_elem (generatedRegistry packages) entries).
Qed.

(** *** The registry as a shared object *)

Lemma foldl_insert_rangeOf {V} (m : gmap gostring V) seq :
  rangeOf m seq →
  foldl (fun acc kv => <[kv.1 := kv.2]> acc) ∅ seq = m.
Proof.
  intros Hrange.
  assert (Hfold : ∀ (l : list (gostring * V)) (acc : gmap gostring V),
    foldl (fun acc kv => <[kv.1 := kv.2]> acc) acc l
    = foldr (fun kv acc => <[kv.1 := kv.2]> acc) acc (reverse l)).
  { induction l as [|x l IH]; intros acc; [done|].
    simpl. rewrite IH, reverse_cons, foldr_app. done. }
  rewrite Hfold.
  transitivity (list_to_map (M := gmap gostring V) (reverse seq)).
  { generalize (reverse seq). induction l as [|[k v] l IH]; [done|].
    simpl. by rewrite IH. }
  rewrite <- (list_to_map_to_list m).
  apply list_to_map_proper.
  - rewrite fmap_reverse, reverse_Permutation.
    unfold rangeOf in Hrange. rewrite Hrange. apply NoDup_fst_map_to_list.
  - rewrite reverse_Permutation. exact Hrange.
Qed.

Lemma foldl_mapAssign (l : positive) (entries : list (gostring * MessageTypeInfo))
    (σ : store) (m0 : gmap gostring MessageTypeInfo) :
  σ !! l = Some m0 →
  foldl (fun σ' kv => mapAssign l kv.1 kv.2 σ') σ entries
  = <[l := foldl (fun acc kv => <[kv.1 := kv.2]> acc) m0 entries]> σ.
Proof.
  revert σ m0. induction entries as [|[k v] rest IH]; intros σ m0 Hl; simpl.
  - by rewrite insert_id.
  - erewrite IH; last first.
    { unfold mapAssign. rewrite lookup_alter_eq, Hl. done. }
    unfold mapAssign. apply map_eq. intros i.
    destruct (decide (i = l)) as [->|Hne].
    + by rewrite !lookup_insert_eq.
    + by rewrite !lookup_insert_ne, lookup_alter_ne.
Qed.

Lemma mutate_frame (l l' : positive) (σ : store) (ops : list mapMutation) :
  l' ≠ l → foldl (mutate l) σ ops !! l' = σ !! l'.
Proof.
  intros Hne. revert σ. induction ops as [|op ops IH]; intros σ; [done|].
  simpl. rewrite IH. destruct op; simpl; unfold mapAssign; by rewrite lookup_alter_ne.
Qed.

(** C10.  [GetRegisteredTypes] returns a reference to a map object that did
    not exist before the call, whose contents equal those of
    [messageRegistry]; the call leaves [messageRegistry] as it was, and so
    does every sequence of assignments, deletions and clears a caller
    performs through the returned reference. *)
Theorem GetRegisteredTypes_fresh_copy
    (σ : store) (registry : gmap gostring MessageTypeInfo)
    (entries : list (gostring * MessageTypeInfo)) :
  σ !! registryLoc = Some registry →
  rangeOf registry entries →
  let result := (GetRegisteredTypes entries σ).1 in
  let σ' := (GetRegisteredTypes entries σ).2 in
  σ !! result = None
  ∧ result ≠ registryLoc
  ∧ σ' !! result = Some registry
  ∧ σ' !! registryLoc = Some registry
  ∧ ∀ ops : list mapMutation,
      foldl (mutate result) σ' ops !! registryLoc = Some registry.
Proof.
  intros Hreg Hrange. unfold GetRegisteredTypes, makeMap. cbn [fst snd].
  set (l := fresh (dom σ)).
  assert (Hfresh : σ !! l = None).
  { apply not_elem_of_dom. apply is_fresh. }
  assert (Hne : l ≠ registryLoc) by (intros ->; congruence).
  rewrite (foldl_mapAssign l entries (<[l:=∅]> σ) ∅) by apply lookup_insert_eq.
  rewrite (foldl_insert_rangeOf registry entries Hrange).
  rewrite insert_insert_eq.
  repeat split; try done.
  - apply lookup_insert_eq.
  - by rewrite lookup_insert_ne.
  - intros ops. rewrite mutate_frame by done. by rewrite lookup_insert_ne.
Qed.

(** A decidable property of all entries of a map, checked by evaluation. *)
Lemma map_Forall_lookup_dec {V} (m : gmap gostring V) (P : gostring → V → Prop)
    `{∀ k v, Decision (P k v)} :
  bool_decide (map_Forall P m) = true → ∀ k v, m !! k = Some v → P k v.
Proof. intros Hdec%bool_decide_eq_true k v. apply Hdec. Qed.

(** C4 on the generated registry: the ERN 4.3 [NewReleaseMessage]. *)
Lemma DetectMessageType_registered_witness :
  DetectMessageType (map_to_list sampleRegistry)
    (minimalDocument (lit "NewReleaseMessage") (lit "http://ddex.net/xml/ern/43")) []
  = Ok (lit "ern", lit "v43", lit "NewReleaseMessage").
Proof.
  apply (DetectMessageType_registered sampleRegistry (map_to_list sampleRegistry)
           (lit "ern") (lit "v43") (lit "NewReleaseMessage")
           (mkInfo (lit "ernv43.NewReleaseMessage") (lit "http://ddex.net/xml/ern/43")
                   (lit "NewReleaseMessage")) []).
  - unfold rangeOf. reflexivity.
  - vm_compute. reflexivity.
  - reflexivity.
  - apply (bool_decide_unpack _). vm_compute. exact I.
  - apply (bool_decide_unpack _). vm_compute. exact I.
  - apply (bool_decide_unpack _). vm_compute. exact I.
  - intros key' info' Hlook Hroot Hns. revert key' info' Hlook Hroot Hns.
    apply (map_Forall_lookup_dec sampleRegistry
      (fun key' info' => RootElement info' = lit "NewReleaseMessage" →
         Namespace info' = lit "http://ddex.net/xml/ern/43" →
         key' = registryKey (lit "ern") (lit "v43") (lit "NewReleaseMessage"))).
    vm_compute. reflexivity.
Defined.


(** C6 on the generated registry: [New("ern", "999")]. *)
Lemma New_not_registered_witness :
  New (map_to_list sampleRegistry) (lit "ern") (lit "999")
  = Err (NotRegistered (lit "ern") (lit "999")).
Proof.
  apply (New_not_registered sampleRegistry (map_to_list sampleRegistry)).
  - unfold rangeOf. reflexivity.
  - apply (bool_decide_unpack
      (set_Forall (fun key => ¬ (lit "ern" ++ [slash] ++ lit "999" ++ [slash]) `prefix_of` key)
                  (dom sampleRegistry))).
    vm_compute. exact I.
Defined.

(** C10 on a store that holds the generated registry. *)
Lemma GetRegisteredTypes_fresh_copy_witness :
  let σ : store := {[ registryLoc := sampleRegistry ]} in
  let result := (GetRegisteredTypes (map_to_list sampleRegistry) σ).1 in
  let σ' := (GetRegisteredTypes (map_to_list sampleRegistry) σ).2 in
  σ !! result = None
  ∧ result ≠ registryLoc
  ∧ σ' !! result = Some sampleRegistry
  ∧ σ' !! registryLoc = Some sampleRegistry
  ∧ ∀ ops : list mapMutation,
      foldl (mutate result) σ' ops !! registryLoc = Some sampleRegistry.
Proof.
  apply (GetRegisteredTypes_fresh_copy {[ registryLoc := sampleRegistry ]} sampleRegistry).
  - apply lookup_singleton_eq.
  - unfold rangeOf. reflexivity.
Defined.

(** *** Decoding: capture of namespace attributes *)

Lemma captureNamespaceAttrs_snoc namespaceAttrs attrs attr :
  captureNamespaceAttrs namespaceAttrs (attrs ++ [attr])
  = captureAttr (captureNamespaceAttrs namespaceAttrs attrs) attr.
Proof. unfold captureNamespaceAttrs. by rewrite foldl_app. Qed.

Lemma captureAttr_foldl_lookup (m : gmap gostring gostring) attrs key :
  Forall (fun a => capturedAttr a = true → captureKey a ≠ key) attrs →
  foldl captureAttr m attrs !! key = m !! key.
Proof.
  revert m. induction attrs as [|a attrs IH]; intros m Hall; [done|].
  apply Forall_cons in Hall as [Ha Hall]. simpl. rewrite IH by done.
  unfold captureAttr. destruct (capturedAttr a); [|done].
  by rewrite lookup_insert_ne by auto.
Qed.

(** C1.  Capture of root attributes on decode.  For a root message,
    [UnmarshalXML] leaves in [NamespaceAttrs] the map [final] built by the
    capture loop.  Let [attr] be the [i]-th attribute of the start element,
    [before] the value of [NamespaceAttrs] when the loop reaches it and
    [after] the value once it is processed.
    - If its namespace is [xmlns] (a declaration with a prefix) it is stored
      under ["xmlns:" + local name]; if its namespace is not [xmlns] but its
      local name is [xmlns], it is stored under ["xmlns"].
    - Otherwise, if its namespace is the XML-Schema-instance namespace and
      its local name is [schemaLocation], it is stored under
      ["xsi:schemaLocation"].
    - Otherwise [NamespaceAttrs] is left as it was.
    A stored entry is still there at the end of the loop unless a later
    captured attribute has the same key. *)
Theorem UnmarshalXML_captures_namespace_attrs
    (messageName : gostring)
    (namespaceAttrs : option (gmap gostring gostring))
    (attrs : list Attr) (i : nat) (attr : Attr) :
  isRootMessage messageName = true →
  attrs !! i = Some attr →
  let before := captureNamespaceAttrs namespaceAttrs (take i attrs) in
  let after := captureNamespaceAttrs namespaceAttrs (take (S i) attrs) in
  let final := captureNamespaceAttrs namespaceAttrs attrs in
  let isDeclaration := Space (AttrName attr) = lit "xmlns"
                       ∨ Local (AttrName attr) = lit "xmlns" in
  let isSchemaLocation := Space (AttrName attr) = NamespaceXSI
                          ∧ Local (AttrName attr) = lit "schemaLocation" in
  UnmarshalXML_NamespaceAttrs true messageName namespaceAttrs attrs = Some final
  ∧ (Space (AttrName attr) = lit "xmlns" →
     captureKey attr = lit "xmlns:" ++ Local (AttrName attr))
  ∧ (Space (AttrName attr) ≠ lit "xmlns" → Local (AttrName attr) = lit "xmlns" →
     captureKey attr = lit "xmlns")
  ∧ (¬ isDeclaration → isSchemaLocation →
     captureKey attr = lit "xsi:schemaLocation")
  ∧ (isDeclaration ∨ isSchemaLocation →
     after = <[captureKey attr := Value attr]> before
     ∧ after !! captureKey attr = Some (Value attr)
     ∧ (Forall (fun a => capturedAttr a = true → captureKey a ≠ captureKey attr)
               (drop (S i) attrs) →
        final !! captureKey attr = Some (Value attr)))
  ∧ (¬ isDeclaration → ¬ isSchemaLocation → after = before).
Proof.
  intros Hroot Hi before after final isDeclaration isSchemaLocation.
  split.
  { unfold UnmarshalXML_NamespaceAttrs, namespaceHandling. by rewrite Hroot. }
  assert (Hafter : after = captureAttr before attr).
  { unfold after, before. rewrite (take_S_r _ _ _ Hi).
    apply captureNamespaceAttrs_snoc. }
  assert (Hfinal : final = foldl captureAttr after (drop (S i) attrs)).
  { unfold final, after, captureNamespaceAttrs.
    rewrite <- foldl_app. by rewrite take_drop. }
  assert (Hcap : capturedAttr attr = true ↔ isDeclaration ∨ isSchemaLocation).
  { unfold capturedAttr, isDeclaration, isSchemaLocation.
    rewrite !orb_true_iff, andb_true_iff, !bool_decide_eq_true. tauto. }
  split; [|split; [|split; [|split]]].
  - intros Hsp. unfold captureKey. by rewrite bool_decide_eq_true_2.
  - intros Hsp Hloc. unfold captureKey.
    rewrite bool_decide_eq_false_2 by done.
    rewrite (bool_decide_eq_false_2 (Local (AttrName attr) ≠ lit "xmlns")) by auto.
    rewrite andb_false_r. done.
  - intros Hnd [Hsp Hloc]. unfold captureKey.
    rewrite bool_decide_eq_false_2 by (intros ?; apply Hnd; by left).
    rewrite (bool_decide_eq_true_2 (Space (AttrName attr) ≠ []))
      by (rewrite Hsp; discriminate).
    rewrite (bool_decide_eq_true_2 (Local (AttrName attr) ≠ lit "xmlns"))
      by (intros ?; apply Hnd; by right).
    cbn [andb]. rewrite bool_decide_eq_true_2 by done. by rewrite Hloc.
  - intros Hc%Hcap.
    assert (Hins : after = <[captureKey attr := Value attr]> before).
    { rewrite Hafter. unfold captureAttr. by rewrite Hc. }
    split; [done|]. split.
    + rewrite Hins. apply lookup_insert_eq.
    + intros Hlater. rewrite Hfinal, captureAttr_foldl_lookup by done.
      rewrite Hins. apply lookup_insert_eq.
  - intros Hnd Hns. rewrite Hafter. unfold captureAttr.
    rewrite (proj1 (not_true_iff_false (capturedAttr attr))); [done|].
    rewrite Hcap. tauto.
Qed.

(** C1 on a start element with a default namespace, a prefixed declaration,
    a schema location and an ordinary attribute. *)
Lemma UnmarshalXML_captures_namespace_attrs_witness :
  let attrs :=
    [mkAttr (mkName [] (lit "xmlns")) (lit "http://ddex.net/xml/ern/43");
     mkAttr (mkName (lit "xmlns") (lit "avs")) (lit "http://ddex.net/xml/avs/avs");
     mkAttr (mkName NamespaceXSI (lit "schemaLocation"))
            (lit "http://ddex.net/xml/ern/43 release-notification.xsd");
     mkAttr (mkName [] (lit "LanguageAndScriptCode")) (lit "en")] in
  captureNamespaceAttrs None attrs !! lit "xsi:schemaLocation"
  = Some (lit "http://ddex.net/xml/ern/43 release-notification.xsd")
  ∧ captureNamespaceAttrs None (take 4 attrs) = captureNamespaceAttrs None (take 3 attrs).
Proof.
  intros attrs. split.
  - destruct (UnmarshalXML_captures_namespace_attrs (lit "NewReleaseMessage")
                None attrs 2
                (mkAttr (mkName NamespaceXSI (lit "schemaLocation"))
                   (lit "http://ddex.net/xml/ern/43 release-notification.xsd"))
                eq_refl eq_refl) as (_ & _ & _ & Hkey & Hstored & _).
    rewrite <- Hkey.
    + apply Hstored.
      * right. split; reflexivity.
      * repeat constructor. vm_compute. discriminate.
    + vm_compute. intros [H|H]; discriminate H.
    + split; reflexivity.
  - destruct (UnmarshalXML_captures_namespace_attrs (lit "NewReleaseMessage")
                None attrs 3
                (mkAttr (mkName [] (lit "LanguageAndScriptCode")) (lit "en"))
                eq_refl eq_refl) as (_ & _ & _ & _ & _ & Hskip).
    apply Hskip.
    + vm_compute. intros [H|H]; discriminate H.
    + vm_compute. intros [H _]; discriminate H.
Defined.

(** *** Encoding: replay of namespace attributes *)

Lemma HasSuffix_true s suffix :
  HasSuffix s suffix = true ↔ ∃ k, s = k ++ suffix.
Proof.
  unfold HasSuffix. rewrite andb_true_iff, !bool_decide_eq_true. split.
  - intros [_ H]. exists (take (length s - length suffix) s).
    set (n := (length s - length suffix)%nat) in *.
    rewrite <- H. by rewrite take_drop.
  - intros [k ->]. rewrite length_app. split; [lia|].
    replace (length k + length suffix - length suffix)%nat with (length k) by lia.
    by rewrite drop_app_length.
Qed.

Lemma TrimSuffix_app k suffix : TrimSuffix (k ++ suffix) suffix = k.
Proof.
  unfold TrimSuffix. rewrite (proj2 (HasSuffix_true _ _)) by eauto.
  rewrite length_app.
  replace (length k + length suffix - length suffix)%nat with (length k) by lia.
  by rewrite take_app_length.
Qed.

Lemma Index_nil_colon : Index [] (lit ":") = None.
Proof. reflexivity. Qed.

(** A field tag is noted exactly when it reads [name,attr] with a non-empty
    [name]. *)
Lemma noteFieldTag_spec existingAttrs xmlTag :
  noteFieldTag existingAttrs xmlTag
  = if HasSuffix xmlTag (lit ",attr")
       && bool_decide (TrimSuffix xmlTag (lit ",attr") ≠ [])
    then <[TrimSuffix xmlTag (lit ",attr") := true]> existingAttrs
    else existingAttrs.
Proof.
  unfold noteFieldTag.
  destruct (HasSuffix xmlTag (lit ",attr")) eqn:Hsuf.
  - apply HasSuffix_true in Hsuf as [k ->]. rewrite TrimSuffix_app.
    rewrite (bool_decide_eq_true_2 (k ++ lit ",attr" ≠ []))
      by (destruct k; discriminate).
    rewrite (bool_decide_eq_true_2 (k ++ lit ",attr" ≠ lit "-"))
      by (intros H%(f_equal length); rewrite length_app in H;
          change (length (lit ",attr")) with 5%nat in H;
          change (length (lit "-")) with 1%nat in H; lia).
    cbn [andb]. destruct (Index k (lit ":")) eqn:Hidx.
    + destruct k; [by rewrite Index_nil_colon in Hidx|].
      by rewrite bool_decide_eq_true_2.
    + done.
  - cbn [andb]. by destruct (bool_decide (xmlTag ≠ []) && bool_decide (xmlTag ≠ lit "-")).
Qed.

Lemma indexBool_insert_true m k key :
  indexBool (<[k := true]> m) key = bool_decide (k = key) || indexBool m key.
Proof.
  unfold indexBool. destruct (decide (k = key)) as [->|Hne].
  - by rewrite lookup_insert_eq, bool_decide_eq_true_2.
  - by rewrite lookup_insert_ne, bool_decide_eq_false_2.
Qed.

Lemma existingAttrs_foldl fieldTags acc key :
  indexBool (foldl noteFieldTag acc fieldTags) key = true
  ↔ indexBool acc key = true ∨ (key ≠ [] ∧ key ++ lit ",attr" ∈ fieldTags).
Proof.
  revert acc. induction fieldTags as [|tag tags IH]; intros acc.
  - simpl. split; [auto|]. intros [?|[_ H]]; [done|]. by apply elem_of_nil in H.
  - cbn [foldl]. rewrite IH, noteFieldTag_spec, elem_of_cons.
    destruct (HasSuffix tag (lit ",attr")) eqn:Hsuf.
    + apply HasSuffix_true in Hsuf as [k ->]. rewrite TrimSuffix_app.
      cbn [andb]. case_bool_decide as Hk.
      * rewrite indexBool_insert_true, orb_true_iff, bool_decide_eq_true.
        split.
        -- intros [[->|?]|[? ?]]; auto.
        -- intros [?|[? [Heq|?]]]; auto.
           apply app_inv_tail in Heq. auto.
      * split; [intros [?|[? ?]]; auto|].
        intros [?|[Hkey [Heq|?]]]; auto.
        apply app_inv_tail in Heq. congruence.
    + cbn [andb]. split; [intros [?|[? ?]]; auto|].
      intros [?|[Hkey [Heq|?]]]; auto.
      rewrite (proj2 (HasSuffix_true _ _)) in Hsuf by eauto. discriminate.
Qed.

Lemma appendNamespaceAttr_foldl existingAttrs rangeSeq start :
  foldl (appendNamespaceAttr existingAttrs) start rangeSeq
  = mkStart (StartName start)
      (StartAttr start
       ++ ((fun kv => mkAttr (mkName [] kv.1) kv.2)
             <$> filter (fun kv : gostring * gostring =>
                           indexBool existingAttrs kv.1 = false) rangeSeq)).
Proof.
  revert start. induction rangeSeq as [|kv rest IH]; intros start.
  - simpl. rewrite app_nil_r. by destruct start.
  - cbn [foldl]. rewrite IH. unfold appendNamespaceAttr.
    destruct (indexBool existingAttrs kv.1) eqn:E; cbn [negb].
    + by rewrite filter_cons_False by (rewrite E; discriminate).
    + rewrite filter_cons_True by done. cbn [StartName StartAttr].
      by rewrite fmap_cons, <- app_assoc.
Qed.

(** Replay of [NamespaceAttrs] on encode.  Let [existingKeys] be the
    keys the reflection loop collects from the struct fields, that is the
    names [k] of the fields tagged [k,attr].  Whatever the order in which
    [NamespaceAttrs] is ranged over, [MarshalXML] extends the attributes of
    the start element by a list [appended] such that a pair [(key, value)]
    is appended exactly when it is an entry of [NamespaceAttrs] and [key] is
    not in [existingKeys].  Hence no appended attribute bears a name in
    [existingKeys], and no name is appended twice. *)
Theorem MarshalXML_replays_unshadowed_attrs
    (namespaceAttrs : gmap gostring gostring)
    (rangeSeq : list (gostring * gostring))
    (packageNamespace : gostring) (fieldTags : list gostring)
    (start : StartElementValue) :
  rangeOf namespaceAttrs rangeSeq →
  let existingKeys := existingAttrsOf fieldTags in
  let out := MarshalXML_start packageNamespace fieldTags rangeSeq start in
  ∃ appended : list Attr,
    StartAttr out = StartAttr start ++ appended
    ∧ (∀ key value,
         mkAttr (mkName [] key) value ∈ appended
         ↔ namespaceAttrs !! key = Some value ∧ indexBool existingKeys key = false)
    ∧ (∀ a, a ∈ appended →
         Space (AttrName a) = []
         ∧ namespaceAttrs !! Local (AttrName a) = Some (Value a)
         ∧ indexBool existingKeys (Local (AttrName a)) = false)
    ∧ NoDup ((fun a => Local (AttrName a)) <$> appended)
    ∧ (∀ key, indexBool existingKeys key = true
              ↔ key ≠ [] ∧ key ++ lit ",attr" ∈ fieldTags).
Proof.
  intros Hrange existingKeys out.
  set (keep := fun kv : gostring * gostring => indexBool existingKeys kv.1 = false).
  set (toAttr := fun kv : gostring * gostring => mkAttr (mkName [] kv.1) kv.2).
  exists (toAttr <$> filter keep rangeSeq).
  assert (Hmem : ∀ key value,
    toAttr (key, value) ∈ toAttr <$> filter keep rangeSeq
    ↔ namespaceAttrs !! key = Some value ∧ indexBool existingKeys key = false).
  { intros key value. rewrite list_elem_of_fmap. split.
    - intros ([k v] & Heq & Hin). injection Heq as -> ->.
      apply list_elem_of_filter in Hin as [Hkeep Hin].
      split; [by apply (rangeOf_elem namespaceAttrs rangeSeq)|exact Hkeep].
    - intros [Hlook Hex]. exists (key, value). split; [done|].
      apply list_elem_of_filter. split; [exact Hex|].
      by apply (rangeOf_elem namespaceAttrs rangeSeq). }
  split; [|split; [|split; [|split]]].
  - unfold out, MarshalXML_start. by rewrite appendNamespaceAttr_foldl.
  - exact Hmem.
  - intros a Hin. pose proof Hin as Hin'.
    apply list_elem_of_fmap in Hin' as ([k v] & -> & _).
    apply (Hmem k v) in Hin as [? ?]. by cbn.
  - rewrite <- list_fmap_compose.
    rewrite (list_fmap_ext _ fst (filter keep rangeSeq) (fun _ _ _ => eq_refl)).
    apply (sublist_NoDup _ (rangeSeq.*1)).
    + unfold rangeOf in Hrange. rewrite Hrange. apply NoDup_fst_map_to_list.
    + apply fmap_sublist, sublist_filter.
  - intros key. unfold existingKeys, existingAttrsOf.
    rewrite existingAttrs_foldl. unfold indexBool. rewrite lookup_empty. cbn.
    split; [intros [?|?]; [discriminate|done]|auto].
Qed.

(** On a message with a field tagged [xmlns:avs,attr]: the captured
    [xmlns:avs] is suppressed, the schema location is replayed. *)
Lemma MarshalXML_replays_unshadowed_attrs_witness :
  let namespaceAttrs : gmap gostring gostring :=
    <[lit "xmlns:avs" := lit "http://ddex.net/xml/avs/avs"]>
      (<[lit "xsi:schemaLocation" := lit "http://ddex.net/xml/ern/43 release.xsd"]> ∅) in
  let fieldTags := [lit "MessageHeader"; lit "xmlns:avs,attr"; lit "-"] in
  ∃ appended : list Attr,
    StartAttr (MarshalXML_start (lit "http://ddex.net/xml/ern/43") fieldTags
                 (map_to_list namespaceAttrs)
                 (mkStart (mkName [] (lit "NewReleaseMessage")) []))
    = [] ++ appended
    ∧ mkAttr (mkName [] (lit "xsi:schemaLocation"))
             (lit "http://ddex.net/xml/ern/43 release.xsd") ∈ appended
    ∧ mkAttr (mkName [] (lit "xmlns:avs")) (lit "http://ddex.net/xml/avs/avs") ∉ appended.
Proof.
  intros namespaceAttrs fieldTags.
  destruct (MarshalXML_replays_unshadowed_attrs namespaceAttrs
              (map_to_list namespaceAttrs) (lit "http://ddex.net/xml/ern/43")
              fieldTags (mkStart (mkName [] (lit "NewReleaseMessage")) []))
    as (appended & Hout & Hiff & _).
  - unfold rangeOf. reflexivity.
  - exists appended. split; [exact Hout|]. split.
    + apply Hiff. split; vm_compute; reflexivity.
    + intros [_ Hex]%Hiff. vm_compute in Hex. discriminate Hex.
Defined.

(** *** Enum accessor and parser *)

Example enumCases_genre :
  enumCases (fun r => r) genreEnum
  = [(lit "Genre_GENRE_ROCK", lit "ROCK"); (lit "Genre_GENRE_HipHop", lit "HipHop")].
Proof. vm_compute. reflexivity. Qed.

Lemma find_unique {A B} `{EqDecision B} (f : A → B) (l : list A) (x : A) :
  NoDup (f <$> l) → x ∈ l →
  find (fun y => bool_decide (f y = f x)) l = Some x.
Proof.
  induction l as [|y l IH]; intros Hnd Hin; [by apply elem_of_nil in Hin|].
  rewrite fmap_cons in Hnd. apply NoDup_cons in Hnd as [Hy Hnd].
  cbn [find]. apply elem_of_cons in Hin as [->|Hin].
  - by rewrite bool_decide_eq_true_2.
  - rewrite bool_decide_eq_false_2; [by apply IH|].
    intros Heq. apply Hy. rewrite Heq. by apply list_elem_of_fmap_2.
Qed.

Lemma find_none_Forall {A} (p : A → bool) (l : list A) :
  (∀ x, x ∈ l → p x = false) → find p l = None.
Proof.
  induction l as [|y l IH]; intros Hall; [done|].
  cbn [find]. rewrite (Hall y) by left. apply IH. intros x Hx. apply Hall. by right.
Qed.

Section EnumStringsSpec.

Context (unicodeUpper : rune → rune) (constValue : gostring → Z).

Local Abbreviation toUpper := (ToUpper unicodeUpper).
Local Abbreviation cases := (enumCases unicodeUpper).
Local Abbreviation accessor := (XMLString unicodeUpper constValue).
Local Abbreviation parser := (ParseString unicodeUpper constValue).

(** A constant is given a case exactly when it does not end in
    [_UNSPECIFIED] and a non-empty text other than [UNSPECIFIED] follows
    the last [UPPER(enum.Name) + "_"] in it. *)
Lemma enumCases_elem enum constant afterPrefix :
  (constant, afterPrefix) ∈ cases enum
  ↔ constant ∈ Constants enum
    ∧ HasSuffix constant (lit "_UNSPECIFIED") = false
    ∧ ∃ idx, LastIndex constant (toUpper (EnumName enum) ++ lit "_") = Some idx
             ∧ afterPrefix = drop (idx + length (toUpper (EnumName enum)) + 1) constant
             ∧ afterPrefix ≠ [] ∧ afterPrefix ≠ lit "UNSPECIFIED".
Proof.
  unfold enumCases. rewrite list_elem_of_omap. unfold enumCase. split.
  - intros (c & Hin & Hcase).
    destruct (HasSuffix c (lit "_UNSPECIFIED")) eqn:Hsuf; [done|].
    destruct (LastIndex c _) as [idx|] eqn:Hidx; [|done].
    destruct (bool_decide (drop _ c ≠ []) && _) eqn:Hok; [|done].
    injection Hcase as <- <-.
    apply andb_true_iff in Hok as [Hne%bool_decide_eq_true Hun%bool_decide_eq_true].
    repeat split; try done. by exists idx.
  - intros (Hin & Hsuf & idx & Hidx & -> & Hne & Hun).
    exists constant. split; [done|]. rewrite Hsuf, Hidx.
    by rewrite (bool_decide_eq_true_2 _ Hne), (bool_decide_eq_true_2 _ Hun).
Qed.

Lemma accessor_case enum constant afterPrefix :
  NoDup (constValue <$> (cases enum).*1) →
  (constant, afterPrefix) ∈ cases enum →
  accessor enum (constValue constant) = afterPrefix.
Proof.
  intros Hval Hin. unfold XMLString.
  rewrite (find_unique (fun c : gostring * gostring => constValue c.1)
             (cases enum) (constant, afterPrefix)); [done| |done].
  rewrite <- list_fmap_compose in Hval. exact Hval.
Qed.

Lemma parser_case enum constant afterPrefix s :
  NoDup (cases enum).*2 →
  (constant, afterPrefix) ∈ cases enum →
  toUpper s = afterPrefix →
  parser enum s = (constValue constant, true).
Proof.
  intros Hlab Hin Hup. unfold ParseString. rewrite Hup.
  by rewrite (find_unique snd (cases enum) (constant, afterPrefix)).
Qed.

(** C7, as the generated code behaves.  Suppose the two generated switch
    statements compile: the case labels of the parser are pairwise
    distinct, and so are the values of the case constants of the accessor.
    - For every constant that is given a case and whose text after the
      prefix is unchanged by upper-casing, the parser applied to the
      accessor's output returns the constant and [true].
    - For every input whose upper-cased form is not the accessor's output
      on a constant with a case, the parser returns [(0, false)]. *)
Theorem enum_parser_inverts_accessor (enum : EnumInfo) :
  NoDup (cases enum).*2 →
  NoDup (constValue <$> (cases enum).*1) →
  (∀ constant afterPrefix,
     (constant, afterPrefix) ∈ cases enum →
     toUpper afterPrefix = afterPrefix →
     parser enum (accessor enum (constValue constant)) = (constValue constant, true))
  ∧ (∀ s,
       (∀ constant afterPrefix, (constant, afterPrefix) ∈ cases enum →
          accessor enum (constValue constant) ≠ toUpper s) →
       parser enum s = (0%Z, false)).
Proof.
  intros Hlab Hval. split.
  - intros constant afterPrefix Hin Hup.
    rewrite (accessor_case enum constant afterPrefix) by done.
    by apply (parser_case enum constant afterPrefix).
  - intros s Hno. unfold ParseString.
    rewrite find_none_Forall; [done|].
    intros [c a] Hin. apply bool_decide_eq_false_2. cbn [snd].
    intros Heq. apply (Hno c a Hin).
    by rewrite (accessor_case enum c a).
Qed.

End EnumStringsSpec.

(** C7, amended, on [genreEnum]: the round trip of [Genre_GENRE_ROCK], and an
    input that matches no case. *)
Lemma enum_parser_inverts_accessor_witness :
  ParseString (fun r => r) genreValue genreEnum
    (XMLString (fun r => r) genreValue genreEnum (genreValue (lit "Genre_GENRE_ROCK")))
  = (1%Z, true)
  ∧ ParseString (fun r => r) genreValue genreEnum (lit "Pop") = (0%Z, false).
Proof.
  destruct (enum_parser_inverts_accessor (fun r => r) genreValue genreEnum)
    as [Hinv Hrej].
  - apply (bool_decide_unpack _). vm_compute. exact I.
  - apply (bool_decide_unpack _). vm_compute. exact I.
  - split.
    + apply (Hinv (lit "Genre_GENRE_ROCK") (lit "ROCK")).
      * apply (bool_decide_unpack _). vm_compute. exact I.
      * vm_compute. reflexivity.
    + apply Hrej. intros constant afterPrefix Hin.
      assert (Hall : Forall (fun c : list N * list N =>
                XMLString (fun r => r) genreValue genreEnum (genreValue c.1)
                ≠ ToUpper (fun r => r) (lit "Pop"))
              (enumCases (fun r => r) genreEnum)).
      { apply (bool_decide_unpack _). vm_compute. exact I. }
      apply (proj1 (Forall_forall _ _) Hall (constant, afterPrefix) Hin).
Defined.

(** C7 as stated fails on the generated code, at ASCII inputs (where
    [unicodeUpper] is never consulted).  The parser is case-insensitive:
    ["rock"] is the accessor's output on no constant of [genreEnum], yet
    the parser accepts it.  And the round trip fails for constants other
    than the sentinel: the accessor's output ["HipHop"] for
    [Genre_GENRE_HipHop] is upper-cased by the parser and matches no case
    label, and [Genre_MUSIC_STYLE_JAZZ], which does not contain [GENRE_],
    is given no case at all. *)
Lemma enum_parser_inverse_counterexample :
  Forall (fun c => XMLString (fun r => r) genreValue genreEnum (genreValue c) ≠ lit "rock")
         (Constants genreEnum)
  ∧ ParseString (fun r => r) genreValue genreEnum (lit "rock")
    = (genreValue (lit "Genre_GENRE_ROCK"), true)
  ∧ HasSuffix (lit "Genre_GENRE_HipHop") (lit "_UNSPECIFIED") = false
  ∧ XMLString (fun r => r) genreValue genreEnum (genreValue (lit "Genre_GENRE_HipHop"))
    = lit "HipHop"
  ∧ ParseString (fun r => r) genreValue genreEnum
      (XMLString (fun r => r) genreValue genreEnum (genreValue (lit "Genre_GENRE_HipHop")))
    = (0%Z, false)
  ∧ HasSuffix (lit "Genre_MUSIC_STYLE_JAZZ") (lit "_UNSPECIFIED") = false
  ∧ ParseString (fun r => r) genreValue genreEnum
      (XMLString (fun r => r) genreValue genreEnum (genreValue (lit "Genre_MUSIC_STYLE_JAZZ")))
    = (0%Z, false).
Proof.
  split; [|repeat split; vm_compute; reflexivity].
  apply (bool_decide_unpack _). vm_compute. exact I.
Qed.

(** *** The round-trip oracle: invariants of [CompareDOMTrees] *)

Section OracleInvariants.

Context (rangeAttrs : gostring → gmap gostring gostring → list (gostring * gostring))
        (rangeTags : gostring → gset gostring → list gostring).

Local Abbreviation compare := (compareFuel rangeAttrs rangeTags).

(** A property of the report that every elementary update preserves is
    preserved by the whole comparison. *)
Section Preservation.

Variable P : DOMComparison → Prop.
Hypothesis P_extra : ∀ e c, P c → P (addExtraElement e c).
Hypothesis P_missing : ∀ e c, P c → P (addMissingElement e c).
Hypothesis P_missingAttr : ∀ e c, P c → P (addMissingAttribute e c).
Hypothesis P_mismatch : ∀ e c, P c → P (addValueMismatch e c).
Hypothesis P_count : ∀ c, P c → P (countElements c).
Hypothesis P_countOrig : ∀ n c, P c → P (countAttributesOriginal n c).
Hypothesis P_countMarsh : ∀ n c, P c → P (countAttributesMarshaled n c).

Lemma compareAttribute_preserves currentPath marshaledAttrs comp kv :
  P comp → P (compareAttribute currentPath marshaledAttrs comp kv).
Proof using P_missingAttr P_mismatch.
  intros HP. unfold compareAttribute.
  destruct (HasPrefix kv.1 (lit "xmlns")); [done|].
  destruct (marshaledAttrs !! kv.1); [|by apply P_missingAttr].
  case_bool_decide; [by apply P_mismatch|done].
Qed.

Lemma compareAttributes_preserve currentPath marshaledAttrs seq comp :
  P comp → P (foldl (compareAttribute currentPath marshaledAttrs) comp seq).
Proof using P_missingAttr P_mismatch.
  revert comp. induction seq as [|kv seq IH]; intros comp HP; [done|].
  cbn [foldl]. by apply IH, compareAttribute_preserves.
Qed.

Lemma compareText_preserves currentPath o m comp :
  P comp → P (compareText currentPath o m comp).
Proof using P_mismatch.
  intros HP. unfold compareText.
  destruct (_ && _); [|done]. destruct (_ && _); [by apply P_mismatch|done].
Qed.

Lemma compareChildren_preserves recurse currentPath origList marshaledList acc comp' :
  (∀ o m path c c', recurse o m path c = Some c' → P c → P c') →
  (∀ c, acc = Some c → P c) →
  compareChildren recurse currentPath origList marshaledList acc = Some comp' →
  P comp'.
Proof.
  intros Hrec. unfold compareChildren.
  generalize (seq 0 (Nat.max (length origList) (length marshaledList))).
  intros idx. revert acc. induction idx as [|i idx IH]; intros acc Hacc; cbn [foldl].
  - intros ->. by apply Hacc.
  - apply IH. intros c Hc. destruct acc as [c0|]; [|done]. cbn in Hc.
    destruct (_ || _); [|injection Hc as <-; by apply Hacc].
    eapply Hrec; [exact Hc|by apply Hacc].
Qed.

Lemma compareTagGroups_preserves recurse currentPath origChildren
    marshaledChildren tags acc comp' :
  (∀ o m path c c', recurse o m path c = Some c' → P c → P c') →
  (∀ c, acc = Some c → P c) →
  compareTagGroups recurse currentPath origChildren marshaledChildren tags acc
  = Some comp' →
  P comp'.
Proof.
  intros Hrec. unfold compareTagGroups. revert acc.
  induction tags as [|tag tags IHt]; intros acc Hacc; cbn [foldl].
  - intros ->. by apply Hacc.
  - apply IHt. intros c Hc.
    eapply compareChildren_preserves; [exact Hrec|exact Hacc|exact Hc].
Qed.

Lemma compareFuel_preserves fuel original marshaled path comp comp' :
  compare fuel original marshaled path comp = Some comp' → P comp → P comp'.
Proof using All.
  revert original marshaled path comp comp'.
  induction fuel as [|fuel IH]; intros original marshaled path comp comp'; [done|].
  cbn [compareFuel]. destruct original as [o|], marshaled as [m|].
  - intros Hrun HP.
    eapply compareTagGroups_preserves; [exact IH| |exact Hrun].
    intros c [= <-]. apply compareText_preserves, compareAttributes_preserve.
    by apply P_countMarsh, P_countOrig, P_count.
  - intros [= <-] HP. by apply P_missing.
  - intros [= <-] HP. by apply P_extra.
  - by intros [= <-].
Qed.

End Preservation.

End OracleInvariants.

Lemma groupElementsByTag_foldl_elem (elements : list Element)
    (acc : gmap gostring (list Element)) tag l e :
  foldl (fun grouped elem =>
           <[etree.Tag elem := default [] (grouped !! etree.Tag elem) ++ [elem]]> grouped)
        acc elements !! tag = Some l →
  e ∈ l →
  e ∈ elements ∨ ∃ l0, acc !! tag = Some l0 ∧ e ∈ l0.
Proof.
  revert acc. induction elements as [|x elements IH]; intros acc Hl He; cbn [foldl] in Hl.
  - right. eauto.
  - destruct (IH _ Hl He) as [Hin|(l0 & Hl0 & Hin)].
    + left. by right.
    + destruct (decide (etree.Tag x = tag)) as [<-|Hne].
      * rewrite lookup_insert_eq in Hl0. injection Hl0 as <-.
        apply elem_of_app in Hin as [Hin|Hin].
        -- right. destruct (acc !! etree.Tag x) as [l1|]; [eauto|].
           by apply elem_of_nil in Hin.
        -- left. apply list_elem_of_singleton in Hin as ->. by left.
      * rewrite lookup_insert_ne in Hl0 by done. right. eauto.
Qed.

Lemma groupElementsByTag_elem (elements : list Element) tag e :
  e ∈ default [] (groupElementsByTag elements !! tag) → e ∈ elements.
Proof.
  destruct (groupElementsByTag elements !! tag) as [l|] eqn:Hl; cbn.
  - intros He. destruct (groupElementsByTag_foldl_elem _ _ _ _ _ Hl He)
      as [?|(l0 & Hl0 & _)]; [done|]. by rewrite lookup_empty in Hl0.
  - intros He. by apply elem_of_nil in He.
Qed.

Section OracleTermination.

Context (rangeAttrs : gostring → gmap gostring gostring → list (gostring * gostring))
        (rangeTags : gostring → gset gostring → list gostring).

Local Abbreviation compare := (compareFuel rangeAttrs rangeTags).

Lemma height_child (e child : Element) :
  child ∈ etree.ChildElements e → (height child < height e)%nat.
Proof.
  destruct e as [tag attrs text children]. cbn [height etree.ChildElements].
  induction children as [|c children IH]; intros Hin; [by apply elem_of_nil in Hin|].
  cbn [foldr]. apply elem_of_cons in Hin as [->|Hin]; [lia|].
  specialize (IH Hin). lia.
Qed.

Lemma height_pos (e : Element) : (0 < height e)%nat.
Proof. destruct e. cbn [height]. lia. Qed.

Lemma compareChildren_total recurse currentPath origList marshaledList acc :
  (∀ i o, origList !! i = Some o → ∀ m path c, is_Some (recurse (Some o) m path c)) →
  (∀ m path c, is_Some (recurse None m path c)) →
  is_Some acc →
  is_Some (compareChildren recurse currentPath origList marshaledList acc).
Proof.
  intros Hsome Hnone. unfold compareChildren.
  generalize (seq 0 (Nat.max (length origList) (length marshaledList))).
  intros idx. revert acc. induction idx as [|i idx IH]; intros acc Hacc; cbn [foldl]; [done|].
  apply IH. destruct Hacc as [c ->]. cbn.
  destruct (_ || _); [|done].
  destruct (origList !! i) as [o|] eqn:Ho; [by eapply Hsome|apply Hnone].
Qed.

(** The comparison completes: a bound above the depth of the original is
    never reached. *)
Lemma compareFuel_total fuel original marshaled path comp :
  (from_option height 0%nat original < fuel)%nat →
  is_Some (compare fuel original marshaled path comp).
Proof.
  revert original marshaled path comp.
  induction fuel as [|fuel IH]; intros original marshaled path comp Hfuel; [lia|].
  cbn [compareFuel]. destruct original as [o|], marshaled as [m|]; try done.
  cbn [from_option] in Hfuel. unfold compareTagGroups.
  match goal with
  | |- is_Some (foldl _ (Some ?c0) ?tags) =>
      assert (Hacc : is_Some (Some c0)) by done;
      generalize dependent (Some c0); generalize tags
  end.
  intros tags. induction tags as [|tag tags IHt]; intros acc Hacc; cbn [foldl]; [done|].
  apply IHt. apply compareChildren_total; [| |done].
  - intros i child Hi m' path' c. apply IH. cbn [from_option].
    assert (Hchild : child ∈ etree.ChildElements o).
    { eapply groupElementsByTag_elem, list_elem_of_lookup_2, Hi. }
    pose proof (height_child o child Hchild). lia.
  - intros m' path' c. apply IH. cbn [from_option].
    pose proof (height_pos o). lia.
Qed.

Lemma CompareDOMTrees_run original marshaled path comp :
  compare (S (from_option height 0%nat original)) original marshaled path comp
  = Some (CompareDOMTrees rangeAttrs rangeTags original marshaled path comp).
Proof.
  unfold CompareDOMTrees.
  destruct (compareFuel_total (S (from_option height 0%nat original))
              original marshaled path comp) as [c ->]; [lia|done].
Qed.

(** The depth bound is an artefact of the model: the recursive calls return
    what [CompareDOMTrees] returns on the children, so that [CompareDOMTrees]
    satisfies the recursive equations of the source. *)
Lemma compareChildren_mono recurse recurse' currentPath origList marshaledList acc r :
  (∀ o m path c c', recurse o m path c = Some c' → recurse' o m path c = Some c') →
  compareChildren recurse currentPath origList marshaledList acc = Some r →
  compareChildren recurse' currentPath origList marshaledList acc = Some r.
Proof.
  intros Hrec. unfold compareChildren.
  generalize (seq 0 (Nat.max (length origList) (length marshaledList))).
  intros idx. revert acc. induction idx as [|i idx IH]; intros acc; cbn [foldl]; [done|].
  destruct acc as [c|]; cbn [mbind option_bind].
  - destruct (_ || _); [|apply IH].
    destruct (recurse (origList !! i) (marshaledList !! i) (childPathOf currentPath i) c)
      as [c'|] eqn:Hc.
    + rewrite (Hrec _ _ _ _ _ Hc). apply IH.
    + intros Hnone. exfalso. revert Hnone. clear.
      induction idx as [|j idx IH]; cbn [foldl]; [done|apply IH].
  - intros Hnone. exfalso. revert Hnone. clear.
    induction idx as [|j idx IH]; cbn [foldl]; [done|apply IH].
Qed.

Lemma compareTagGroups_mono recurse recurse' currentPath origChildren marshaledChildren
    tags acc r :
  (∀ o m path c c', recurse o m path c = Some c' → recurse' o m path c = Some c') →
  compareTagGroups recurse currentPath origChildren marshaledChildren tags acc = Some r →
  compareTagGroups recurse' currentPath origChildren marshaledChildren tags acc = Some r.
Proof.
  intros Hrec. unfold compareTagGroups. revert acc.
  induction tags as [|tag tags IH]; intros acc; cbn [foldl]; [done|].
  destruct (compareChildren recurse currentPath (default [] (origChildren !! tag))
              (default [] (marshaledChildren !! tag)) acc) as [c|] eqn:Hc.
  - rewrite (compareChildren_mono _ _ _ _ _ _ _ Hrec Hc). apply IH.
  - intros Hnone. exfalso. revert Hnone. clear.
    induction tags as [|t tags IH]; cbn [foldl]; [done|].
    replace (compareChildren recurse currentPath (default [] (origChildren !! t))
               (default [] (marshaledChildren !! t)) None) with (@None DOMComparison);
      [apply IH|].
    unfold compareChildren.
    generalize (seq 0 (Nat.max (length (default [] (origChildren !! t)))
                               (length (default [] (marshaledChildren !! t))))).
    intros idx. induction idx as [|j idx IHi]; cbn [foldl]; [done|apply IHi].
Qed.

Lemma compareFuel_mono fuel fuel' original marshaled path comp r :
  (fuel ≤ fuel')%nat →
  compare fuel original marshaled path comp = Some r →
  compare fuel' original marshaled path comp = Some r.
Proof.
  revert fuel' original marshaled path comp r.
  induction fuel as [|fuel IH]; intros fuel' original marshaled path comp r Hle; [done|].
  destruct fuel' as [|fuel']; [lia|]. cbn [compareFuel].
  destruct original as [o|], marshaled as [m|]; try done.
  apply compareTagGroups_mono. intros o' m' path' c c'. apply IH. lia.
Qed.

Lemma compareFuel_result fuel original marshaled path comp r :
  compare fuel original marshaled path comp = Some r →
  r = CompareDOMTrees rangeAttrs rangeTags original marshaled path comp.
Proof.
  intros Hr.
  pose proof (CompareDOMTrees_run original marshaled path comp) as Hrun.
  apply (compareFuel_mono _ (Nat.max fuel (S (from_option height 0%nat original))))
    in Hr; [|lia].
  apply (compareFuel_mono _ (Nat.max fuel (S (from_option height 0%nat original))))
    in Hrun; [|lia].
  congruence.
Qed.

Lemma CompareDOMTrees_equation original marshaled path comp :
  match original, marshaled with
  | None, None =>
      CompareDOMTrees rangeAttrs rangeTags original marshaled path comp = comp
  | None, Some m =>
      CompareDOMTrees rangeAttrs rangeTags original marshaled path comp
      = addExtraElement (path ++ lit "/" ++ etree.Tag m) comp
  | Some o, None =>
      CompareDOMTrees rangeAttrs rangeTags original marshaled path comp
      = addMissingElement (path ++ lit "/" ++ etree.Tag o) comp
  | Some o, Some m =>
      let currentPath := path ++ lit "/" ++ etree.Tag o in
      let origAttrs := attrMap (etree.Attrs o) in
      let marshaledAttrs := attrMap (etree.Attrs m) in
      let origChildren := groupElementsByTag (etree.ChildElements o) in
      let marshaledChildren := groupElementsByTag (etree.ChildElements m) in
      compareTagGroups
        (fun o' m' path' c =>
           Some (CompareDOMTrees rangeAttrs rangeTags o' m' path' c))
        currentPath origChildren marshaledChildren
        (rangeTags currentPath (dom origChildren ∪ dom marshaledChildren))
        (Some (compareText currentPath o m
                 (foldl (compareAttribute currentPath marshaledAttrs)
                    (countAttributesMarshaled (length (etree.Attrs m))
                       (countAttributesOriginal (length (etree.Attrs o))
                          (countElements comp)))
                    (rangeAttrs currentPath origAttrs))))
      = Some (CompareDOMTrees rangeAttrs rangeTags original marshaled path comp)
  end.
Proof.
  pose proof (CompareDOMTrees_run original marshaled path comp) as Hrun.
  destruct original as [o|], marshaled as [m|]; cbn [compareFuel] in Hrun;
    try congruence.
  cbn zeta. eapply compareTagGroups_mono; [|exact Hrun].
  intros o' m' path' c c' Hc. by rewrite (compareFuel_result _ _ _ _ _ _ Hc).
Qed.

(** C9.  [CompareDOMTrees] returns, and if the two element counters are
    equal before the call they are equal after it, whatever the trees and
    the iteration orders. *)
Theorem CompareDOMTrees_element_counters
    (original marshaled : option Element) (path : gostring) (comp : DOMComparison) :
  ElementsOriginal comp = ElementsMarshaled comp →
  compare (S (from_option height 0%nat original)) original marshaled path comp
  = Some (CompareDOMTrees rangeAttrs rangeTags original marshaled path comp)
  ∧ ElementsOriginal (CompareDOMTrees rangeAttrs rangeTags original marshaled path comp)
    = ElementsMarshaled (CompareDOMTrees rangeAttrs rangeTags original marshaled path comp).
Proof.
  intros Heq. split; [apply CompareDOMTrees_run|].
  refine (compareFuel_preserves rangeAttrs rangeTags
            (fun c => ElementsOriginal c = ElementsMarshaled c)
            _ _ _ _ _ _ _ _ _ _ _ _ _
            (CompareDOMTrees_run original marshaled path comp) Heq); try done.
  intros c Hc. cbn. by rewrite Hc.
Qed.

End OracleTermination.

(** *** [normalizeValue] *)

Lemma fieldsFrom_space cur a sp rest :
  isSpace sp = true →
  fieldsFrom cur (a ++ sp :: rest) = fieldsFrom cur a ++ fieldsFrom [] rest.
Proof.
  intros Hsp. revert cur. induction a as [|c a IH]; intros cur; cbn [app fieldsFrom].
  - by rewrite Hsp.
  - destruct (isSpace c); [by rewrite IH, app_assoc|apply IH].
Qed.

Lemma Fields_app_space a sp rest :
  isSpace sp = true → Fields (a ++ sp :: rest) = Fields a ++ Fields rest.
Proof. apply fieldsFrom_space. Qed.

Lemma Fields_lead ws s :
  Forall (fun r => isSpace r = true) ws → Fields (ws ++ s) = Fields s.
Proof.
  induction 1 as [|sp ws Hsp _ IH]; [done|].
  rewrite <- IH. apply (Fields_app_space [] sp (ws ++ s) Hsp).
Qed.

Lemma Fields_spaces ws :
  Forall (fun r => isSpace r = true) ws → Fields ws = [].
Proof. intros Hws. by rewrite <- (app_nil_r ws), Fields_lead. Qed.

Lemma Fields_trail ws s :
  Forall (fun r => isSpace r = true) ws → Fields (s ++ ws) = Fields s.
Proof.
  destruct 1 as [|sp ws Hsp Hws]; [by rewrite app_nil_r|].
  by rewrite Fields_app_space, (Fields_spaces ws), app_nil_r.
Qed.

Lemma Fields_run a ws b :
  ws ≠ [] → Forall (fun r => isSpace r = true) ws →
  Fields (a ++ ws ++ b) = Fields a ++ Fields b.
Proof.
  intros Hne Hws. destruct Hws as [|sp ws Hsp Hws]; [done|].
  cbn [app]. by rewrite Fields_app_space, Fields_lead.
Qed.

Lemma trimLeft_spec s :
  ∃ ws, Forall (fun r => isSpace r = true) ws ∧ s = ws ++ trimLeft s.
Proof.
  induction s as [|c s (ws & Hws & IH)]; [by exists []|].
  cbn [trimLeft]. destruct (isSpace c) eqn:Hc.
  - exists (c :: ws). split; [by constructor|]. cbn [app]. by rewrite <- IH.
  - by exists [].
Qed.

Lemma TrimSpace_spec s :
  ∃ ws ws', Forall (fun r => isSpace r = true) ws
            ∧ Forall (fun r => isSpace r = true) ws'
            ∧ s = ws ++ TrimSpace s ++ ws'.
Proof.
  destruct (trimLeft_spec s) as (ws & Hws & Hs).
  destruct (trimLeft_spec (reverse (trimLeft s))) as (ws' & Hws' & Hr).
  exists ws, (reverse ws'). split; [done|]. split.
  - by apply Forall_reverse.
  - unfold TrimSpace. rewrite <- reverse_app, <- Hr, reverse_involutive. exact Hs.
Qed.

Lemma Fields_TrimSpace s : Fields (TrimSpace s) = Fields s.
Proof.
  destruct (TrimSpace_spec s) as (ws & ws' & Hws & Hws' & Hs).
  rewrite Hs at 2. by rewrite Fields_lead, Fields_trail.
Qed.

Lemma ReplaceAll2_unfold old1 old2 new a b rest :
  ReplaceAll2 old1 old2 new (a :: b :: rest)
  = if bool_decide (a = old1) && bool_decide (b = old2)
    then new ++ ReplaceAll2 old1 old2 new rest
    else a :: ReplaceAll2 old1 old2 new (b :: rest).
Proof. reflexivity. Qed.

Lemma fieldsFrom_ReplaceAll_CRLF n s cur :
  (length s ≤ n)%nat →
  fieldsFrom cur (ReplaceAll2 13 10 [10] s) = fieldsFrom cur s.
Proof.
  revert s cur. induction n as [|n IH]; intros s cur Hlen.
  - destruct s; [done|cbn in Hlen; lia].
  - destruct s as [|a [|b rest]]; [done|done|].
    rewrite ReplaceAll2_unfold. cbn [length] in Hlen.
    destruct (bool_decide (a = 13) && bool_decide (b = 10)) eqn:E.
    + apply andb_true_iff in E as [->%bool_decide_eq_true ->%bool_decide_eq_true].
      cbn [app fieldsFrom]. change (isSpace 10) with true. change (isSpace 13) with true.
      cbn [flushField app]. by rewrite IH by lia.
    + cbn [fieldsFrom]. destruct (isSpace a); by rewrite IH by (cbn [length]; lia).
Qed.

(** [normalizeValue] joins the white-space separated fields of its argument
    with single spaces. *)
Lemma normalizeValue_Fields s : normalizeValue s = Join (Fields s) [32].
Proof.
  unfold normalizeValue. f_equal. unfold Fields at 1.
  rewrite (fieldsFrom_ReplaceAll_CRLF (length (TrimSpace s))) by lia.
  apply Fields_TrimSpace.
Qed.

Lemma fieldsFrom_nonspace cur w :
  Forall (fun r => isSpace r = false) w →
  fieldsFrom cur w = flushField (reverse w ++ cur).
Proof.
  intros Hw. revert cur. induction Hw as [|c w Hc _ IH]; intros cur; [done|].
  cbn [fieldsFrom]. by rewrite Hc, IH, reverse_cons, <- app_assoc.
Qed.

Lemma Fields_word w : isWord w → Fields w = [w].
Proof.
  intros [Hne Hw]. unfold Fields. rewrite fieldsFrom_nonspace, app_nil_r by done.
  unfold flushField. destruct (reverse w) eqn:E.
  - apply (f_equal reverse) in E. rewrite reverse_involutive in E. by subst.
  - by rewrite <- E, reverse_involutive.
Qed.

Lemma fieldsFrom_words cur s :
  Forall (fun r => isSpace r = false) cur → Forall isWord (fieldsFrom cur s).
Proof.
  assert (Hflush : ∀ cur, Forall (fun r => isSpace r = false) cur →
                          Forall isWord (flushField cur)).
  { intros [|c cur'] Hc; [constructor|]. constructor; [|constructor]. split.
    - intros H%(f_equal length). rewrite length_reverse in H. done.
    - by apply Forall_reverse. }
  revert cur. induction s as [|c s IH]; intros cur Hcur; cbn [fieldsFrom].
  - by apply Hflush.
  - destruct (isSpace c) eqn:Hc.
    + apply Forall_app. split; [by apply Hflush|]. apply IH. constructor.
    + apply IH. by constructor.
Qed.

Lemma Fields_words s : Forall isWord (Fields s).
Proof. apply fieldsFrom_words. constructor. Qed.

Lemma Join_cons_cons w w' ws sep :
  Join (w :: w' :: ws) sep = w ++ sep ++ Join (w' :: ws) sep.
Proof. unfold Join. cbn [fmap list_fmap concat]. by rewrite <- app_assoc. Qed.

Lemma Fields_Join ws : Forall isWord ws → Fields (Join ws [32]) = ws.
Proof.
  induction 1 as [|w ws Hw Hws IH]; [done|].
  destruct ws as [|w' ws].
  - unfold Join. cbn [fmap list_fmap concat]. rewrite app_nil_r. by apply Fields_word.
  - rewrite Join_cons_cons. cbn [app].
    rewrite Fields_app_space by done. by rewrite IH, Fields_word.
Qed.

(** Two values have the same normal form exactly when they hold the same
    sequence of white-space separated fields. *)
Lemma normalizeValue_eq_iff a b :
  normalizeValue a = normalizeValue b ↔ Fields a = Fields b.
Proof.
  rewrite !normalizeValue_Fields. split; [|by intros ->].
  intros H%(f_equal Fields). by rewrite !Fields_Join in H by apply Fields_words.
Qed.

Lemma reformatted_Fields s t : reformatted s t → Fields s = Fields t.
Proof.
  induction 1 as [| | |ws s Hws|ws s Hws|a ws ws' b Hne Hne' Hws Hws'];
    try congruence.
  - by apply Fields_lead.
  - by apply Fields_trail.
  - by rewrite !Fields_run.
Qed.

Lemma reformatted_normalizeValue s t :
  reformatted s t → normalizeValue s = normalizeValue t.
Proof. intros H. by apply normalizeValue_eq_iff, reformatted_Fields. Qed.

(** *** The attribute comparison of [CompareDOMTrees] *)

Lemma compareAttribute_cases currentPath marshaledAttrs comp kv :
  compareAttribute currentPath marshaledAttrs comp kv
  = if recordsMissing marshaledAttrs kv
    then addMissingAttribute (missingEntry currentPath kv) comp
    else if recordsMismatch marshaledAttrs kv
         then addValueMismatch (mismatchEntry currentPath marshaledAttrs kv) comp
         else comp.
Proof.
  unfold compareAttribute, recordsMissing, recordsMismatch, missingEntry, mismatchEntry.
  destruct (HasPrefix kv.1 (lit "xmlns")); cbn [negb andb]; [done|].
  destruct (marshaledAttrs !! kv.1) as [mv|]; cbn [default].
  - rewrite (bool_decide_eq_false_2 (Some mv = None)) by discriminate.
    by destruct (bool_decide (normalizeValue kv.2 ≠ normalizeValue mv)).
  - by rewrite (bool_decide_eq_true_2 (None = None)).
Qed.

Lemma recordsMissing_not_mismatch marshaledAttrs kv :
  recordsMissing marshaledAttrs kv = true → recordsMismatch marshaledAttrs kv = false.
Proof.
  unfold recordsMissing, recordsMismatch.
  intros [_ Hnone%bool_decide_eq_true]%andb_true_iff. rewrite Hnone. apply andb_false_r.
Qed.

Lemma compareAttributes_lists currentPath marshaledAttrs seq comp :
  MissingAttributes (foldl (compareAttribute currentPath marshaledAttrs) comp seq)
  = MissingAttributes comp
    ++ (missingEntry currentPath
          <$> filter (fun kv => recordsMissing marshaledAttrs kv = true) seq)
  ∧ ValueMismatches (foldl (compareAttribute currentPath marshaledAttrs) comp seq)
    = ValueMismatches comp
      ++ (mismatchEntry currentPath marshaledAttrs
            <$> filter (fun kv => recordsMismatch marshaledAttrs kv = true) seq).
Proof.
  revert comp. induction seq as [|kv seq IH]; intros comp; cbn [foldl].
  - by rewrite !filter_nil, !fmap_nil, !app_nil_r.
  - destruct (IH (compareAttribute currentPath marshaledAttrs comp kv)) as [-> ->].
    rewrite compareAttribute_cases.
    destruct (recordsMissing marshaledAttrs kv) eqn:Emiss.
    + rewrite (filter_cons_True (fun kv => recordsMissing marshaledAttrs kv = true))
        by exact Emiss.
      rewrite (filter_cons_False (fun kv => recordsMismatch marshaledAttrs kv = true))
        by (rewrite (recordsMissing_not_mismatch _ _ Emiss); discriminate).
      cbn. by rewrite <- app_assoc.
    + rewrite (filter_cons_False (fun kv => recordsMissing marshaledAttrs kv = true))
        by (rewrite Emiss; discriminate).
      destruct (recordsMismatch marshaledAttrs kv) eqn:Emm.
      * rewrite (filter_cons_True (fun kv => recordsMismatch marshaledAttrs kv = true))
          by exact Emm.
        cbn. by rewrite <- app_assoc.
      * rewrite (filter_cons_False (fun kv => recordsMismatch marshaledAttrs kv = true))
          by (rewrite Emm; discriminate).
        done.
Qed.

Section OracleAttributes.

Context (rangeAttrs : gostring → gmap gostring gostring → list (gostring * gostring))
        (rangeTags : gostring → gset gostring → list gostring).

(** The lists of the report only grow at their end. *)
Lemma compareFuel_lists_grow fuel original marshaled path comp comp' lA lV :
  compareFuel rangeAttrs rangeTags fuel original marshaled path comp = Some comp' →
  lA `prefix_of` MissingAttributes comp ∧ lV `prefix_of` ValueMismatches comp →
  lA `prefix_of` MissingAttributes comp' ∧ lV `prefix_of` ValueMismatches comp'.
Proof.
  apply (compareFuel_preserves rangeAttrs rangeTags
           (fun c => lA `prefix_of` MissingAttributes c
                     ∧ lV `prefix_of` ValueMismatches c));
    intros;
    match goal with H : _ ∧ _ |- _ => destruct H end;
    cbn; split; try done; by apply prefix_app_r.
Qed.

(** The attribute comparison of two elements present on both sides, over
    the keys as [etree] gives them (the part of the attribute name after the
    prefix).
    [missing] and [mismatched] are the attributes of the original for which
    the loop appends an entry to [MissingAttributes] and to
    [ValueMismatches]; entries recorded later (text, descendants) follow.
    - An attribute of the original whose key starts with [xmlns] is in
      neither list.
    - Any other attribute of the original is in [missing] exactly when its
      key is absent on the marshaled side.
    - When the key is present on both sides, the attribute is in
      [mismatched] exactly when the normalized values differ; the
      normalized values are equal exactly when the two values hold the
      same white-space separated fields, which is the case whenever they
      differ only in formatting. *)
Theorem CompareDOMTrees_attribute_comparison
    (original marshaled : Element) (path : gostring) (comp : DOMComparison) :
  (∀ p attrs, rangeOf attrs (rangeAttrs p attrs)) →
  let currentPath := path ++ lit "/" ++ etree.Tag original in
  let origAttrs := attrMap (etree.Attrs original) in
  let marshaledAttrs := attrMap (etree.Attrs marshaled) in
  let result :=
    CompareDOMTrees rangeAttrs rangeTags (Some original) (Some marshaled) path comp in
  ∃ (missing mismatched : list (gostring * gostring))
    (laterMissing laterMismatches : list gostring),
    MissingAttributes result
    = MissingAttributes comp ++ (missingEntry currentPath <$> missing) ++ laterMissing
    ∧ ValueMismatches result
      = ValueMismatches comp
        ++ (mismatchEntry currentPath marshaledAttrs <$> mismatched)
        ++ laterMismatches
    ∧ (∀ key origValue,
         HasPrefix key (lit "xmlns") = true →
         ((key, origValue) ∉ missing) ∧ ((key, origValue) ∉ mismatched))
    ∧ (∀ key origValue,
         origAttrs !! key = Some origValue →
         HasPrefix key (lit "xmlns") = false →
         ((key, origValue) ∈ missing ↔ marshaledAttrs !! key = None))
    ∧ (∀ key origValue marshaledValue,
         origAttrs !! key = Some origValue →
         HasPrefix key (lit "xmlns") = false →
         marshaledAttrs !! key = Some marshaledValue →
         ((key, origValue) ∈ mismatched
          ↔ normalizeValue origValue ≠ normalizeValue marshaledValue)
         ∧ (normalizeValue origValue = normalizeValue marshaledValue
            ↔ Fields origValue = Fields marshaledValue)
         ∧ (reformatted origValue marshaledValue → (key, origValue) ∉ mismatched))
    ∧ (∀ key origValue,
         (key, origValue) ∈ missing ∨ (key, origValue) ∈ mismatched →
         origAttrs !! key = Some origValue).
Proof.
  intros Hrange currentPath origAttrs marshaledAttrs result.
  set (seq := rangeAttrs currentPath origAttrs).
  set (missing := filter (fun kv => recordsMissing marshaledAttrs kv = true) seq).
  set (mismatched := filter (fun kv => recordsMismatch marshaledAttrs kv = true) seq).
  assert (Hseq : ∀ key v, (key, v) ∈ seq ↔ origAttrs !! key = Some v).
  { intros key v. apply rangeOf_elem, Hrange. }
  assert (Hmiss : ∀ key v, (key, v) ∈ missing
            ↔ origAttrs !! key = Some v ∧ HasPrefix key (lit "xmlns") = false
              ∧ marshaledAttrs !! key = None).
  { intros key v. unfold missing. rewrite list_elem_of_filter, Hseq.
    unfold recordsMissing. cbn [fst].
    rewrite andb_true_iff, negb_true_iff, bool_decide_eq_true. tauto. }
  assert (Hmm : ∀ key v, (key, v) ∈ mismatched
            ↔ origAttrs !! key = Some v ∧ HasPrefix key (lit "xmlns") = false
              ∧ ∃ mv, marshaledAttrs !! key = Some mv
                      ∧ normalizeValue v ≠ normalizeValue mv).
  { intros key v. unfold mismatched. rewrite list_elem_of_filter, Hseq.
    unfold recordsMismatch. cbn [fst snd]. rewrite andb_true_iff, negb_true_iff.
    destruct (marshaledAttrs !! key) as [mv|].
    - rewrite bool_decide_eq_true. split.
      + intros [[? ?] ?]. eauto.
      + intros (? & ? & mv' & [= <-] & ?). eauto.
    - split; [intros [[_ ?] _]; done|intros (_ & _ & mv' & ? & _); done]. }
  pose proof (CompareDOMTrees_run rangeAttrs rangeTags
                (Some original) (Some marshaled) path comp) as Hrun.
  fold result in Hrun. cbn [compareFuel from_option] in Hrun.
  fold currentPath origAttrs marshaledAttrs seq in Hrun.
  match type of Hrun with
  | compareTagGroups _ _ _ _ _ (Some (compareText _ _ _ ?c1)) = _ =>
      set (afterAttrs := c1) in Hrun
  end.
  destruct (compareAttributes_lists currentPath marshaledAttrs seq
              (countAttributesMarshaled (length (etree.Attrs marshaled))
                 (countAttributesOriginal (length (etree.Attrs original))
                    (countElements comp)))) as [HlA HlV].
  fold afterAttrs missing mismatched in HlA, HlV. cbn in HlA, HlV.
  assert (Hgrow : MissingAttributes afterAttrs `prefix_of` MissingAttributes result
                  ∧ ValueMismatches afterAttrs `prefix_of` ValueMismatches result).
  { eapply (compareTagGroups_preserves
              (fun c => MissingAttributes afterAttrs `prefix_of` MissingAttributes c
                        ∧ ValueMismatches afterAttrs `prefix_of` ValueMismatches c));
      [|clear Hrun|exact Hrun].
    - intros o' m' path' c c'. apply compareFuel_lists_grow.
    - intros c [= <-].
      apply (compareText_preserves
               (fun c => MissingAttributes afterAttrs `prefix_of` MissingAttributes c
                         ∧ ValueMismatches afterAttrs `prefix_of` ValueMismatches c));
        [|done].
      intros e c [H1 H2]. cbn. split; [done|by apply prefix_app_r]. }
  destruct Hgrow as [[laterMissing HA] [laterMismatches HV]].
  exists missing, mismatched, laterMissing, laterMismatches.
  split; [by rewrite HA, HlA, <- app_assoc|].
  split; [by rewrite HV, HlV, <- app_assoc|].
  split; [|split; [|split]].
  - intros key v Hpre. split.
    + intros (_ & Hno & _)%Hmiss. congruence.
    + intros (_ & Hno & _)%Hmm. congruence.
  - intros key v Hv Hpre. rewrite Hmiss. tauto.
  - intros key v mv Hv Hpre Hmv.
    assert (Hiff : (key, v) ∈ mismatched ↔ normalizeValue v ≠ normalizeValue mv).
    { rewrite Hmm. split.
      - intros (_ & _ & mv' & Hmv' & Hne). congruence.
      - intros Hne. eauto. }
    split; [exact Hiff|]. split; [apply normalizeValue_eq_iff|].
    intros Href Hin. apply Hiff in Hin. by apply Hin, reformatted_normalizeValue.
  - intros key v [(? & _)%Hmiss|(? & _)%Hmm]; done.
Qed.

End OracleAttributes.

Example CompareDOMTrees_sample :
  CompareDOMTrees rangeAttrsCanonical rangeTagsCanonical
    (Some sampleOriginal) (Some sampleMarshaled) [] newComparison
  = mkComparison 2 2 4 2
      [lit "/a/c"] [lit "/a@id"] [lit "/a@lang: 'en' != 'fr'"] [lit "/a/d"] true true.
Proof. vm_compute. reflexivity. Qed.

(** C9 on two trees with a missing and an extra element. *)
Lemma CompareDOMTrees_element_counters_witness :
  ElementsOriginal (CompareDOMTrees rangeAttrsCanonical rangeTagsCanonical
                      (Some sampleOriginal) (Some sampleMarshaled) [] newComparison)
  = ElementsMarshaled (CompareDOMTrees rangeAttrsCanonical rangeTagsCanonical
                         (Some sampleOriginal) (Some sampleMarshaled) [] newComparison).
Proof.
  exact (proj2 (CompareDOMTrees_element_counters rangeAttrsCanonical rangeTagsCanonical
                  (Some sampleOriginal) (Some sampleMarshaled) [] newComparison eq_refl)).
Defined.

(** On the sample trees: [xmlns] ignored, [id] missing, [title] equal up to
    formatting, [lang] mismatched. *)
Lemma CompareDOMTrees_attribute_comparison_witness :
  ∃ (missing mismatched : list (gostring * gostring))
    (laterMissing laterMismatches : list gostring),
    MissingAttributes (CompareDOMTrees rangeAttrsCanonical rangeTagsCanonical
                         (Some sampleOriginal) (Some sampleMarshaled) [] newComparison)
    = [] ++ (missingEntry (lit "/a") <$> missing) ++ laterMissing
    ∧ ValueMismatches (CompareDOMTrees rangeAttrsCanonical rangeTagsCanonical
                         (Some sampleOriginal) (Some sampleMarshaled) [] newComparison)
      = [] ++ (mismatchEntry (lit "/a") (attrMap (etree.Attrs sampleMarshaled))
                 <$> mismatched) ++ laterMismatches
    ∧ ((lit "xmlns", lit "u") ∉ missing)
    ∧ ((lit "id", lit "7") ∈ missing)
    ∧ ((lit "title", lit " Hello   World ") ∉ mismatched)
    ∧ ((lit "lang", lit "en") ∈ mismatched).
Proof.
  destruct (CompareDOMTrees_attribute_comparison rangeAttrsCanonical rangeTagsCanonical
              sampleOriginal sampleMarshaled [] newComparison)
    as (missing & mismatched & laterMissing & laterMismatches
        & HA & HV & Hxmlns & Hmissing & Hmismatch & _).
  - intros p attrs. unfold rangeOf, rangeAttrsCanonical. reflexivity.
  - exists missing, mismatched, laterMissing, laterMismatches.
    split; [exact HA|]. split; [exact HV|]. clear HA HV.
    split; [|split; [|split]].
    + refine (proj1 (Hxmlns (lit "xmlns") (lit "u") _)). vm_compute. reflexivity.
    + refine (proj2 (Hmissing (lit "id") (lit "7") _ _) _); vm_compute; reflexivity.
    + refine (proj2 (proj2 (Hmismatch (lit "title") (lit " Hello   World ")
                              (lit "Hello World") _ _ _)) _);
        try (vm_compute; reflexivity).
      apply (reformatted_trans _ (lit "Hello   World ")).
      { apply (reformatted_lead [32] (lit "Hello   World ")). repeat constructor. }
      apply (reformatted_trans _ (lit "Hello   World")).
      { apply (reformatted_trail [32] (lit "Hello   World")). repeat constructor. }
      apply (reformatted_run (lit "Hello") [32; 32; 32] [32] (lit "World"));
        try discriminate; repeat constructor.
    + refine (proj2 (proj1 (Hmismatch (lit "lang") (lit "en") (lit "fr") _ _ _)) _);
        try (vm_compute; reflexivity).
      vm_compute. discriminate.
Defined.

(** *** The success flag of a round-trip run *)

Section OracleSuccess.

Context (rangeAttrs : gostring → gmap gostring gostring → list (gostring * gostring))
        (rangeTags : gostring → gset gostring → list gostring)
        (parseDocument : gostring → option (option Element))
        (validator : gostring → option gostring)
        (readFile : gostring → option gostring).

Local Abbreviation fromData :=
  (PerformRoundTripValidationFromData rangeAttrs rangeTags parseDocument validator).
Local Abbreviation fromFile :=
  (PerformRoundTripValidation rangeAttrs rangeTags parseDocument validator readFile).

(** The comparison itself never touches the two flags. *)
Lemma CompareDOMTrees_flags original marshaled path comp :
  Success (CompareDOMTrees rangeAttrs rangeTags original marshaled path comp)
  = Success comp
  ∧ MarshaledParseable (CompareDOMTrees rangeAttrs rangeTags original marshaled path comp)
    = MarshaledParseable comp.
Proof.
  refine (compareFuel_preserves rangeAttrs rangeTags
            (fun c => Success c = Success comp
                      ∧ MarshaledParseable c = MarshaledParseable comp)
            _ _ _ _ _ _ _ _ _ _ _ _ _
            (CompareDOMTrees_run rangeAttrs rangeTags original marshaled path comp)
            (conj eq_refl eq_refl)); done.
Qed.

Lemma setSuccessFromIssues_spec c :
  Success c = true →
  let r := setSuccessFromIssues c in
  MissingElements r = MissingElements c
  ∧ MissingAttributes r = MissingAttributes c
  ∧ ValueMismatches r = ValueMismatches c
  ∧ ExtraElements r = ExtraElements c
  ∧ MarshaledParseable r = MarshaledParseable c
  ∧ (Success r = true
     ↔ MissingElements c = [] ∧ MissingAttributes c = []
       ∧ ValueMismatches c = [] ∧ MarshaledParseable c = true).
Proof.
  intros Hs. unfold setSuccessFromIssues.
  assert (Hlen : ∀ l : list gostring, bool_decide (0 < length l)%nat = false ↔ l = []).
  { intros [|x l]; cbn; [done|].
    rewrite bool_decide_eq_true_2 by lia. split; discriminate. }
  destruct (_ || _) eqn:E; cbn; repeat split; try done; try (intros; discriminate).
  - intros (H1 & H2 & H3 & H4). rewrite H4 in E.
    rewrite (proj2 (Hlen _) H1), (proj2 (Hlen _) H2), (proj2 (Hlen _) H3) in E.
    discriminate.
  - apply orb_false_iff in E as [[[E1 E2]%orb_false_iff E3]%orb_false_iff E4].
    by apply Hlen.
  - apply orb_false_iff in E as [[[E1 E2]%orb_false_iff E3]%orb_false_iff E4].
    by apply Hlen.
  - apply orb_false_iff in E as [[[E1 E2]%orb_false_iff E3]%orb_false_iff E4].
    by apply Hlen.
  - apply orb_false_iff in E as [_ E4]. by apply negb_false_iff.
Qed.

Lemma fromData_success originalXML :
  let r := fromData originalXML in
  Success r = true
  ↔ MissingElements r = [] ∧ MissingAttributes r = [] ∧ ValueMismatches r = []
    ∧ roundTripReparseable parseDocument validator originalXML.
Proof.
  unfold PerformRoundTripValidationFromData, roundTripReparseable.
  destruct (parseDocument originalXML) as [originalRoot|] eqn:Hparse; cbn zeta;
    [|split; [discriminate|intros (_ & _ & _ & ? & ? & ? & ? & ? & _); discriminate]].
  destruct (validator originalXML) as [marshaledXML|] eqn:Hval;
    [|split; [discriminate|intros (_ & _ & _ & ? & ? & ? & ? & _ & ? & _); discriminate]].
  destruct (parseDocument marshaledXML) as [marshaledRoot|] eqn:Hparse';
    [|split; [discriminate|
              intros (_ & _ & _ & ? & ? & ? & ? & _ & [= <-] & ? & _); congruence]].
  destruct (CompareDOMTrees_flags originalRoot marshaledRoot [] newComparison)
    as [Hsucc Hpars].
  set (c := CompareDOMTrees rangeAttrs rangeTags originalRoot marshaledRoot []
              newComparison) in *.
  change (Success newComparison) with true in Hsucc.
  change (MarshaledParseable newComparison) with true in Hpars.
  destruct (validator marshaledXML) as [again|] eqn:Hval'.
  - destruct (setSuccessFromIssues_spec c Hsucc) as (-> & -> & -> & _ & _ & ->).
    rewrite Hpars. split.
    + intros (? & ? & ? & _). repeat split; try done.
      by exists originalRoot, marshaledXML, marshaledRoot, again.
    + intros (? & ? & ? & _). done.
  - destruct (setSuccessFromIssues_spec (setMarshaledParseable false c) Hsucc)
      as (-> & -> & -> & _ & _ & ->).
    cbn. split.
    + intros (_ & _ & _ & ?). discriminate.
    + intros (_ & _ & _ & ? & ? & ? & ? & _ & [= <-] & _ & ?). congruence.
Qed.

(** C3.  The final [Success] of a round-trip run, from bytes or from a
    file, is [true] exactly when the report lists no missing element, no
    missing attribute and no value mismatch and the round-tripped bytes are
    re-parseable.  [ExtraElements] plays no part.  Once the round-tripped
    bytes exist, the [MarshaledParseable] flag tells whether they parse
    back. *)
Theorem PerformRoundTripValidation_success (originalXML xmlPath : gostring) :
  let r := fromData originalXML in
  let r' := fromFile xmlPath in
  (Success r = true
   ↔ MissingElements r = [] ∧ MissingAttributes r = [] ∧ ValueMismatches r = []
     ∧ roundTripReparseable parseDocument validator originalXML)
  ∧ (Success r' = true
     ↔ MissingElements r' = [] ∧ MissingAttributes r' = [] ∧ ValueMismatches r' = []
       ∧ ∃ data, readFile xmlPath = Some data
                 ∧ roundTripReparseable parseDocument validator data)
  ∧ (∀ originalRoot marshaledXML,
       parseDocument originalXML = Some originalRoot →
       validator originalXML = Some marshaledXML →
       (MarshaledParseable r = true
        ↔ is_Some (parseDocument marshaledXML) ∧ is_Some (validator marshaledXML))
       ∧ (Success r = true
          ↔ MissingElements r = [] ∧ MissingAttributes r = []
            ∧ ValueMismatches r = [] ∧ MarshaledParseable r = true)).
Proof.
  intros r r'. split; [apply fromData_success|]. split.
  - unfold r', PerformRoundTripValidation.
    destruct (readFile xmlPath) as [data|] eqn:Hread.
    + rewrite (fromData_success data). split.
      * intros (? & ? & ? & ?). eauto 10.
      * intros (? & ? & ? & data' & [= <-] & ?). done.
    + split; [discriminate|intros (_ & _ & _ & ? & ? & _); discriminate].
  - intros originalRoot marshaledXML Hparse Hval.
    unfold r, PerformRoundTripValidationFromData. rewrite Hparse, Hval.
    destruct (parseDocument marshaledXML) as [marshaledRoot|] eqn:Hparse'.
    + destruct (CompareDOMTrees_flags originalRoot marshaledRoot [] newComparison)
        as [Hsucc Hpars].
      set (c := CompareDOMTrees rangeAttrs rangeTags originalRoot marshaledRoot []
                  newComparison) in *.
      change (Success newComparison) with true in Hsucc.
      change (MarshaledParseable newComparison) with true in Hpars.
      destruct (validator marshaledXML) as [again|] eqn:Hval'.
      * destruct (setSuccessFromIssues_spec c Hsucc) as (-> & -> & -> & _ & -> & ->).
        rewrite Hpars. split; [|done]. split; [eauto|done].
      * destruct (setSuccessFromIssues_spec (setMarshaledParseable false c) Hsucc)
          as (-> & -> & -> & _ & -> & ->).
        cbn. split; [|done].
        split; [discriminate|intros [_ [? ?]]; discriminate].
    + cbn. split.
      * split; [discriminate|intros [[? ?] _]; discriminate].
      * split; [discriminate|intros (_ & _ & _ & ?); discriminate].
Qed.

End OracleSuccess.

(** C3 on a run whose only discrepancy is an extra element. *)
Lemma PerformRoundTripValidation_success_witness :
  let r := PerformRoundTripValidationFromData rangeAttrsCanonical rangeTagsCanonical
             sampleParse sampleValidator (lit "<a/>") in
  ExtraElements r = [lit "/a/b"] ∧ Success r = true.
Proof.
  split; [vm_compute; reflexivity|].
  apply (proj1 (PerformRoundTripValidation_success rangeAttrsCanonical rangeTagsCanonical
                  sampleParse sampleValidator (fun _ => None) (lit "<a/>") [])).
  split; [vm_compute; reflexivity|].
  split; [vm_compute; reflexivity|].
  split; [vm_compute; reflexivity|].
  exists (Some (etree.mkElement (lit "a") [] [] [])), (lit "<a><b/></a>"),
    (Some (etree.mkElement (lit "a") [] [] [etree.mkElement (lit "b") [] [] []])),
    (lit "<a><b/></a>").
  repeat split; vm_compute; reflexivity.
Defined.

Example sampleRegistry_entries :
  map_to_list sampleRegistry
  ≡ₚ [(lit "ern/v43/NewReleaseMessage",
       mkInfo (lit "ernv43.NewReleaseMessage") (lit "http://ddex.net/xml/ern/43")
              (lit "NewReleaseMessage"));
      (lit "ern/v43/PurgeReleaseMessage",
       mkInfo (lit "ernv43.PurgeReleaseMessage") (lit "http://ddex.net/xml/ern/43")
              (lit "PurgeReleaseMessage"));
      (lit "ern/v432/NewReleaseMessage",
       mkInfo (lit "ernv432.NewReleaseMessage") (lit "http://ddex.net/xml/ern/432")
              (lit "NewReleaseMessage"));
      (lit "ern/v432/PurgeReleaseMessage",
       mkInfo (lit "ernv432.PurgeReleaseMessage") (lit "http://ddex.net/xml/ern/432")
              (lit "PurgeReleaseMessage"));
      (lit "mead/v11/MeadMessage",
       mkInfo (lit "meadv11.MeadMessage") (lit "http://ddex.net/xml/mead/11")
              (lit "MeadMessage"))].
Proof. apply (bool_decide_unpack _). vm_compute. exact I. Qed.

(** Repeated siblings are paired by position; the second [b] of the
    original has no partner and is reported with the indexed path. *)
Example CompareDOMTrees_repeated_siblings :
  MissingElements
    (CompareDOMTrees rangeAttrsCanonical rangeTagsCanonical
       (Some (etree.mkElement (lit "a") [] []
                [etree.mkElement (lit "b") [] (lit "x") [];
                 etree.mkElement (lit "b") [] (lit "y") []]))
       (Some (etree.mkElement (lit "a") [] []
                [etree.mkElement (lit "b") [] (lit "x") []]))
       [] newComparison)
  = [lit "/a[2]/b"].
Proof. vm_compute. reflexivity. Qed.

Example normalizeValue_sample :
  normalizeValue [32; 72; 105; 13; 10; 9; 160; 116; 104; 101; 114; 101; 32]
  = lit "Hi there".
Proof. vm_compute. reflexivity. Qed.

Example samplePackages_canonical :
  Forall (canonicalPackage (fun _ _ _ => false)) samplePackages.
Proof.
  repeat constructor.
  - exists (lit "ern"), (lit "43"). split; [|reflexivity].
    exists [lit "gen"]. repeat split; try done.
    + apply (bool_decide_unpack _). vm_compute. exact I.
    + repeat constructor.
    + apply (bool_decide_unpack _). vm_compute. exact I.
  - exists (lit "ern"), (lit "432"). split; [|reflexivity].
    exists [lit "gen"]. repeat split; try done.
    + apply (bool_decide_unpack _). vm_compute. exact I.
    + repeat constructor.
    + apply (bool_decide_unpack _). vm_compute. exact I.
  - exists (lit "mead"), (lit "11"). split; [|reflexivity].
    exists [lit "gen"]. repeat split; try done.
    + apply (bool_decide_unpack _). vm_compute. exact I.
    + repeat constructor.
    + apply (bool_decide_unpack _). vm_compute. exact I.
Qed.

(** ** Part III: further properties of the code *)

(** *** Detection, lookup and parsing *)

Lemma Join_splitAt sep cur s :
  Join (splitAt sep cur s) [sep] = reverse cur ++ s.
Proof.
  revert cur. induction s as [|c s IH]; intros cur; cbn [splitAt].
  - unfold Join. cbn. by rewrite !app_nil_r.
  - case_bool_decide as Hc.
    + subst c. specialize (IH []).
      destruct (splitAt sep [] s) as [|p ps] eqn:Hs.
      { destruct s; cbn in Hs; [done|]. by destruct (bool_decide _). }
      rewrite Join_cons_cons, IH. done.
    + rewrite IH, reverse_cons, <- app_assoc. done.
Qed.

Lemma splitAt_no_sep_inside sep cur s :
  sep ∉ cur → Forall (fun p => sep ∉ p) (splitAt sep cur s).
Proof.
  revert cur. induction s as [|c s IH]; intros cur Hcur; cbn [splitAt].
  - constructor; [|constructor]. rewrite elem_of_reverse. exact Hcur.
  - case_bool_decide.
    + constructor; [rewrite elem_of_reverse; exact Hcur|]. apply IH. apply not_elem_of_nil.
    + apply IH. intros [->|Hin]%elem_of_cons; [done|by apply Hcur].
Qed.

(** A key that splits into three parts is the generated key of these parts. *)
Lemma Split_three key p0 p1 p2 :
  Split key slash = [p0; p1; p2] →
  key = registryKey p0 p1 p2 ∧ (slash ∉ p0) ∧ (slash ∉ p1) ∧ (slash ∉ p2).
Proof.
  intros Hsplit. split.
  - pose proof (Join_splitAt slash [] key) as Hjoin.
    unfold Split in Hsplit. rewrite Hsplit in Hjoin.
    rewrite !Join_cons_cons in Hjoin. unfold Join in Hjoin. cbn in Hjoin.
    rewrite app_nil_r in Hjoin. by rewrite <- Hjoin.
  - pose proof (splitAt_no_sep_inside slash [] key (not_elem_of_nil _)) as Hall.
    unfold Split in Hsplit. rewrite Hsplit in Hall.
    apply Forall_cons in Hall as [? Hall]. apply Forall_cons in Hall as [? Hall].
    apply Forall_cons in Hall as [? _]. done.
Qed.

Lemma matchRegistered_Some entries root ns p0 p1 p2 :
  matchRegistered entries root ns = Some (p0, p1, p2) →
  ∃ info, (registryKey p0 p1 p2, info) ∈ entries
          ∧ RootElement info = root ∧ Namespace info = ns
          ∧ (slash ∉ p0) ∧ (slash ∉ p1) ∧ (slash ∉ p2).
Proof.
  induction entries as [|[key info] rest IH]; cbn [matchRegistered]; [done|].
  assert (Hrest : matchRegistered rest root ns = Some (p0, p1, p2) →
                  ∃ info0, (registryKey p0 p1 p2, info0) ∈ (key, info) :: rest
                           ∧ RootElement info0 = root ∧ Namespace info0 = ns
                           ∧ (slash ∉ p0) ∧ (slash ∉ p1) ∧ (slash ∉ p2)).
  { intros (info0 & Hin & ?)%IH. exists info0. split; [by right|done]. }
  destruct (bool_decide (RootElement info = root)
            && bool_decide (Namespace info = ns)) eqn:E; [|done].
  apply andb_true_iff in E as [Hr%bool_decide_eq_true Hn%bool_decide_eq_true].
  destruct (Split key slash) as [|q0 [|q1 [|q2 [|q3 qs]]]] eqn:Hsplit; try done.
  intros [= -> -> ->].
  destruct (Split_three _ _ _ _ Hsplit) as (-> & ? & ? & ?).
  exists info. split; [by left|done].
Qed.

Lemma classic_start (t : Token) :
  (∃ n a, t = StartElement n a) ∨ (∀ n a, t ≠ StartElement n a).
Proof. destruct t; eauto; right; done. Qed.

Lemma DetectMessageType_cases entries tokens streamErr :
  (Forall (fun t => ∀ n a, t ≠ StartElement n a) tokens
   ∧ DetectMessageType entries tokens streamErr = Err (MalformedXML streamErr))
  ∨ ∃ pre name attrs post,
      tokens = pre ++ StartElement name attrs :: post
      ∧ Forall (fun t => ∀ n a, t ≠ StartElement n a) pre
      ∧ DetectMessageType entries tokens streamErr
        = match matchRegistered entries (Local name)
                  (if bool_decide (Space name = []) then namespaceFromAttrs attrs
                   else Space name) with
          | Some triple => Ok triple
          | None => Err (UnrecognizedDocument (Local name)
                           (if bool_decide (Space name = [])
                            then namespaceFromAttrs attrs else Space name))
          end.
Proof.
  induction tokens as [|t tokens IH].
  - left. by split.
  - destruct (classic_start t) as [(n & a & ->)|Ht].
    + right. exists [], n, a, tokens. by repeat split.
    + assert (Hstep : DetectMessageType entries (t :: tokens) streamErr
                      = DetectMessageType entries tokens streamErr).
      { destruct t; try done. by destruct (Ht name attr). }
      destruct IH as [[Hall Herr]|(pre & name & attrs & post & -> & Hpre & Hres)].
      * left. split; [by constructor|]. by rewrite Hstep.
      * right. exists (t :: pre), name, attrs, post.
        split; [done|]. split; [by constructor|]. by rewrite Hstep.
Qed.

(** X1.  Soundness of detection.  Whatever the iteration order, a triple
    [DetectMessageType] returns is the key of a registry entry whose root
    element is the local name of the first start element of the document and
    whose namespace is its namespace (the value of its first [xmlns]
    attribute when the element has none); the three components contain no
    ["/"]. *)
Theorem DetectMessageType_sound
    (registry : gmap gostring MessageTypeInfo)
    (entries : list (gostring * MessageTypeInfo))
    (tokens : list Token) (streamErr messageType version messageName : gostring) :
  rangeOf registry entries →
  DetectMessageType entries tokens streamErr = Ok (messageType, version, messageName) →
  ∃ pre name attrs post info,
    tokens = pre ++ StartElement name attrs :: post
    ∧ Forall (fun t => ∀ n a, t ≠ StartElement n a) pre
    ∧ registry !! registryKey messageType version messageName = Some info
    ∧ RootElement info = Local name
    ∧ Namespace info = (if bool_decide (Space name = []) then namespaceFromAttrs attrs
                        else Space name)
    ∧ (slash ∉ messageType) ∧ (slash ∉ version) ∧ (slash ∉ messageName).
Proof.
  intros Hrange Hres.
  destruct (DetectMessageType_cases entries tokens streamErr)
    as [[_ Herr]|(pre & name & attrs & post & Htok & Hpre & Hcase)]; [congruence|].
  rewrite Hcase in Hres.
  destruct (matchRegistered entries _ _) as [[[p0 p1] p2]|] eqn:Hmatch; [|done].
  injection Hres as -> -> ->.
  apply matchRegistered_Some in Hmatch as (info & Hin & Hr & Hn & Hs).
  exists pre, name, attrs, post, info. repeat split; try done; try tauto.
  by apply (rangeOf_elem registry entries).
Qed.

(** X2.  [DetectMessageType] and streams without a start element.  When the
    token stream ends before any start element, the result is the error
    ["failed to parse XML: "] followed by the error that ended the stream,
    whatever the registry holds; and this error is returned in no other case:
    a result [MalformedXML cause] implies that the stream has no start
    element and that [cause] is the error that ended it. *)
Theorem DetectMessageType_malformed
    (entries : list (gostring * MessageTypeInfo))
    (tokens : list Token) (streamErr : gostring) :
  (Forall (fun t => ∀ n a, t ≠ StartElement n a) tokens →
   DetectMessageType entries tokens streamErr = Err (MalformedXML streamErr)
   ∧ errorString (MalformedXML streamErr) = lit "failed to parse XML: " ++ streamErr)
  ∧ (∀ cause,
       DetectMessageType entries tokens streamErr = Err (MalformedXML cause) →
       cause = streamErr ∧ Forall (fun t => ∀ n a, t ≠ StartElement n a) tokens).
Proof.
  destruct (DetectMessageType_cases entries tokens streamErr)
    as [[Hall Herr]|(pre & name & attrs & post & -> & Hpre & Hcase)].
  - split; [done|]. intros cause Hc. rewrite Herr in Hc. by injection Hc as <-.
  - split.
    + intros Hall. apply Forall_app in Hall as [_ Hall].
      apply Forall_cons in Hall as [Hs _]. by destruct (Hs name attrs).
    + intros cause Hc. rewrite Hcase in Hc.
      by destruct (matchRegistered entries _ _).
Qed.

(** X1 on the generated registry. *)
Lemma DetectMessageType_sound_witness :
  ∃ pre name attrs post info,
    minimalDocument (lit "MeadMessage") (lit "http://ddex.net/xml/mead/11")
    = pre ++ StartElement name attrs :: post
    ∧ Forall (fun t => ∀ n a, t ≠ StartElement n a) pre
    ∧ sampleRegistry !! registryKey (lit "mead") (lit "v11") (lit "MeadMessage") = Some info
    ∧ RootElement info = Local name
    ∧ Namespace info = (if bool_decide (Space name = []) then namespaceFromAttrs attrs
                        else Space name)
    ∧ (slash ∉ lit "mead") ∧ (slash ∉ lit "v11") ∧ (slash ∉ lit "MeadMessage").
Proof.
  apply (DetectMessageType_sound sampleRegistry (map_to_list sampleRegistry)
           (minimalDocument (lit "MeadMessage") (lit "http://ddex.net/xml/mead/11")) []).
  - unfold rangeOf. reflexivity.
  - vm_compute. reflexivity.
Defined.

(** X3.  The stages of [ParseAny].  The lookup by message name never fails:
    the outcome is the detection error, or the result of unmarshalling the
    document into the type of the registry entry that detection found, whose
    message type and version are returned with the message. *)
Theorem ParseAny_stages
    (message : Type) (decodeTokens : gostring → list Token * gostring)
    (Unmarshal : gostring → gostring → message + gostring)
    (registry : gmap gostring MessageTypeInfo)
    (entries : list (gostring * MessageTypeInfo)) (xmlData : gostring) :
  rangeOf registry entries →
  match ParseAny message decodeTokens Unmarshal registry entries xmlData with
  | inl (DetectFailed e) =>
      DetectMessageType entries (decodeTokens xmlData).1 (decodeTokens xmlData).2 = Err e
  | inl (UnmarshalFailed cause) =>
      ∃ msgType ver msgName info,
        DetectMessageType entries (decodeTokens xmlData).1 (decodeTokens xmlData).2
        = Ok (msgType, ver, msgName)
        ∧ registry !! registryKey msgType ver msgName = Some info
        ∧ Unmarshal (Type_ info) xmlData = inr cause
  | inr (msg, msgType, ver) =>
      ∃ msgName info,
        DetectMessageType entries (decodeTokens xmlData).1 (decodeTokens xmlData).2
        = Ok (msgType, ver, msgName)
        ∧ registry !! registryKey msgType ver msgName = Some info
        ∧ Unmarshal (Type_ info) xmlData = inl msg
  | inl _ => False
  end.
Proof.
  intros Hrange. unfold ParseAny.
  destruct (DetectMessageType entries _ _) as [[[msgType ver] msgName]|e] eqn:Hdetect;
    [|done].
  destruct (DetectMessageType_cases entries (decodeTokens xmlData).1 (decodeTokens xmlData).2)
    as [[_ Herr]|(pre & name & attrs & post & Htok & Hpre & Hcase)]; [congruence|].
  rewrite Hcase in Hdetect.
  destruct (matchRegistered entries _ _) as [[[p0 p1] p2]|] eqn:Hmatch; [|done].
  injection Hdetect as -> -> ->.
  apply matchRegistered_Some in Hmatch as (info & Hin & _).
  apply (rangeOf_elem registry entries) in Hin; [|done].
  unfold NewByMessageName. rewrite Hin.
  destruct (Unmarshal (Type_ info) xmlData) as [msg|cause] eqn:Hun.
  - exists msgName, info. done.
  - exists msgType, ver, msgName, info. done.
Qed.

(** X3 on the generated registry, with a decoder that yields the minimal
    ERN 4.3.2 document and an unmarshaller that returns the type it is
    given. *)
Lemma ParseAny_stages_witness :
  match ParseAny gostring
          (fun _ => (minimalDocument (lit "PurgeReleaseMessage")
                       (lit "http://ddex.net/xml/ern/432"), []))
          (fun type _ => inl type)
          sampleRegistry (map_to_list sampleRegistry) [] with
  | inl (DetectFailed e) =>
      DetectMessageType (map_to_list sampleRegistry)
        (minimalDocument (lit "PurgeReleaseMessage") (lit "http://ddex.net/xml/ern/432")) []
      = Err e
  | inl (UnmarshalFailed cause) =>
      ∃ msgType ver msgName info,
        DetectMessageType (map_to_list sampleRegistry)
          (minimalDocument (lit "PurgeReleaseMessage") (lit "http://ddex.net/xml/ern/432")) []
        = Ok (msgType, ver, msgName)
        ∧ sampleRegistry !! registryKey msgType ver msgName = Some info
        ∧ @inl gostring gostring (Type_ info) = inr cause
  | inr (msg, msgType, ver) =>
      ∃ msgName info,
        DetectMessageType (map_to_list sampleRegistry)
          (minimalDocument (lit "PurgeReleaseMessage") (lit "http://ddex.net/xml/ern/432")) []
        = Ok (msgType, ver, msgName)
        ∧ sampleRegistry !! registryKey msgType ver msgName = Some info
        ∧ @inl gostring gostring (Type_ info) = inl msg
  | inl _ => False
  end.
Proof.
  apply (ParseAny_stages gostring
           (fun _ => (minimalDocument (lit "PurgeReleaseMessage")
                        (lit "http://ddex.net/xml/ern/432"), []))
           (fun type _ => inl type)
           sampleRegistry (map_to_list sampleRegistry) []).
  unfold rangeOf. reflexivity.
Defined.

Lemma IsRegistered_true_iff entries messageType version :
  IsRegistered entries messageType version = true
  ↔ ∃ key info, (key, info) ∈ entries
      ∧ HasPrefix key (messageType ++ [slash] ++ version ++ [slash]) = true.
Proof.
  induction entries as [|[key info] rest IH]; cbn [IsRegistered].
  - split; [done|]. intros (? & ? & Hin & _). by apply elem_of_nil in Hin.
  - destruct (HasPrefix key _) eqn:E.
    + split; [|done]. intros _. exists key, info. split; [by left|done].
    + rewrite IH. split.
      * intros (k & i & Hin & Hp). exists k, i. split; [by right|done].
      * intros (k & i & Hin & Hp). apply elem_of_cons in Hin as [[= -> ->]|Hin];
          [congruence|]. eauto.
Qed.

Lemma New_Ok_elem entries messageType version type :
  New entries messageType version = Ok type →
  ∃ key info, (key, info) ∈ entries
    ∧ HasPrefix key (messageType ++ [slash] ++ version ++ [slash]) = true
    ∧ type = Type_ info.
Proof.
  induction entries as [|[key info] rest IH]; cbn [New]; [done|].
  destruct (HasPrefix key _) eqn:E.
  - intros [= <-]. exists key, info. split; [by left|done].
  - intros (k & i & Hin & Hp)%IH. exists k, i. split; [by right|done].
Qed.

Lemma New_Err entries messageType version e :
  New entries messageType version = Err e →
  e = NotRegistered messageType version
  ∧ IsRegistered entries messageType version = false.
Proof.
  induction entries as [|[key info] rest IH]; cbn [New IsRegistered].
  - by intros [= <-].
  - destruct (HasPrefix key _); [done|apply IH].
Qed.

(** X4.  [IsRegistered] and [New] agree, whatever the order in which each of
    them ranges over the registry: [IsRegistered] answers true exactly when
    some key starts with ["messageType/version/"], and exactly then [New]
    returns the type of an entry with such a key; otherwise [New] fails with
    [NotRegistered]. *)
Theorem IsRegistered_iff_New
    (registry : gmap gostring MessageTypeInfo)
    (entries1 entries2 : list (gostring * MessageTypeInfo))
    (messageType version : gostring) :
  rangeOf registry entries1 →
  rangeOf registry entries2 →
  (IsRegistered entries1 messageType version = true
   ↔ ∃ key, is_Some (registry !! key)
       ∧ (messageType ++ [slash] ++ version ++ [slash]) `prefix_of` key)
  ∧ (IsRegistered entries1 messageType version = true
     ↔ ∃ key info, registry !! key = Some info
         ∧ (messageType ++ [slash] ++ version ++ [slash]) `prefix_of` key
         ∧ New entries2 messageType version = Ok (Type_ info))
  ∧ (IsRegistered entries1 messageType version = false
     ↔ New entries2 messageType version = Err (NotRegistered messageType version)).
Proof.
  intros Hr1 Hr2.
  assert (H1 : IsRegistered entries1 messageType version = true
               ↔ ∃ key, is_Some (registry !! key)
                   ∧ (messageType ++ [slash] ++ version ++ [slash]) `prefix_of` key).
  { rewrite IsRegistered_true_iff. split.
    - intros (key & info & Hin & Hp). exists key. split.
      + exists info. by apply (rangeOf_elem registry entries1).
      + by apply HasPrefix_true.
    - intros (key & [info Hl] & Hp). exists key, info. split.
      + by apply (rangeOf_elem registry entries1).
      + by apply HasPrefix_true. }
  assert (H12 : IsRegistered entries1 messageType version
                = IsRegistered entries2 messageType version).
  { apply eq_true_iff_eq. rewrite !IsRegistered_true_iff. split.
    - intros (key & info & Hin & Hp). exists key, info. split; [|done].
      apply (rangeOf_elem registry entries2); [done|].
      by apply (rangeOf_elem registry entries1).
    - intros (key & info & Hin & Hp). exists key, info. split; [|done].
      apply (rangeOf_elem registry entries1); [done|].
      by apply (rangeOf_elem registry entries2). }
  split; [exact H1|]. split.
  - split.
    + intros Ht. destruct (New entries2 messageType version) as [type|e] eqn:Hnew.
      * apply New_Ok_elem in Hnew as (key & info & Hin & Hp & ->).
        exists key, info. split; [by apply (rangeOf_elem registry entries2)|].
        split; [by apply HasPrefix_true|done].
      * apply New_Err in Hnew as [_ Hf]. congruence.
    + intros (key & info & Hl & Hp & _). apply H1. exists key. eauto.
  - rewrite H12. split.
    + intros Hf. destruct (New entries2 messageType version) as [type|e] eqn:Hnew.
      * apply New_Ok_elem in Hnew as (key & info & Hin & Hp & _).
        assert (IsRegistered entries2 messageType version = true)
          by (apply IsRegistered_true_iff; eauto).
        congruence.
      * by apply New_Err in Hnew as [-> _].
    + intros Hnew. by apply New_Err in Hnew as [_ ?].
Qed.

(** X4 on the generated registry, ranged over in two different orders. *)
Lemma IsRegistered_iff_New_witness :
  (IsRegistered (map_to_list sampleRegistry) (lit "ern") (lit "v432") = true
   ↔ ∃ key, is_Some (sampleRegistry !! key)
       ∧ (lit "ern" ++ [slash] ++ lit "v432" ++ [slash]) `prefix_of` key)
  ∧ (IsRegistered (map_to_list sampleRegistry) (lit "ern") (lit "v432") = true
     ↔ ∃ key info, sampleRegistry !! key = Some info
         ∧ (lit "ern" ++ [slash] ++ lit "v432" ++ [slash]) `prefix_of` key
         ∧ New (reverse (map_to_list sampleRegistry)) (lit "ern") (lit "v432")
           = Ok (Type_ info))
  ∧ (IsRegistered (map_to_list sampleRegistry) (lit "ern") (lit "v432") = false
     ↔ New (reverse (map_to_list sampleRegistry)) (lit "ern") (lit "v432")
       = Err (NotRegistered (lit "ern") (lit "v432"))).
Proof.
  apply (IsRegistered_iff_New sampleRegistry (map_to_list sampleRegistry)
           (reverse (map_to_list sampleRegistry)) (lit "ern") (lit "v432")).
  - unfold rangeOf. reflexivity.
  - unfold rangeOf. apply reverse_Permutation.
Defined.

(** X5.  The results of [New] over all iteration orders.  [New] can return
    the type of every entry whose key starts with ["messageType/version/"],
    and nothing else: which one it returns, when there are several, is
    decided by the order in which the registry is ranged over. *)
Theorem New_possible_results
    (registry : gmap gostring MessageTypeInfo)
    (messageType version type : gostring) :
  (∃ entries, rangeOf registry entries ∧ New entries messageType version = Ok type)
  ↔ ∃ key info, registry !! key = Some info
      ∧ (messageType ++ [slash] ++ version ++ [slash]) `prefix_of` key
      ∧ Type_ info = type.
Proof.
  split.
  - intros (entries & Hrange & (key & info & Hin & Hp & ->)%New_Ok_elem).
    exists key, info. split; [by apply (rangeOf_elem registry entries)|].
    split; [by apply HasPrefix_true|done].
  - intros (key & info & Hl & Hp%HasPrefix_true & <-).
    exists ((key, info) :: map_to_list (delete key registry)).
    split; [unfold rangeOf; by apply map_to_list_delete|].
    cbn [New]. by rewrite Hp.
Qed.

(** X6.  The stages of [Parse].  It fails with the error of [New], which
    carries no wrapping, exactly when no key starts with
    ["messageType/version/"]; otherwise its outcome is that of unmarshalling
    the document into the type of an entry with such a key. *)
Theorem Parse_stages
    (message : Type) (Unmarshal : gostring → gostring → message + gostring)
    (registry : gmap gostring MessageTypeInfo)
    (entries : list (gostring * MessageTypeInfo))
    (xmlData messageType version : gostring) :
  rangeOf registry entries →
  match Parse message Unmarshal entries xmlData messageType version with
  | inl (LookupFailed e) =>
      e = NotRegistered messageType version
      ∧ ∀ key, is_Some (registry !! key) →
          ¬ (messageType ++ [slash] ++ version ++ [slash]) `prefix_of` key
  | inl (UnmarshalTypedFailed mt ver cause) =>
      mt = messageType ∧ ver = version
      ∧ ∃ key info, registry !! key = Some info
          ∧ (messageType ++ [slash] ++ version ++ [slash]) `prefix_of` key
          ∧ Unmarshal (Type_ info) xmlData = inr cause
  | inr msg =>
      ∃ key info, registry !! key = Some info
        ∧ (messageType ++ [slash] ++ version ++ [slash]) `prefix_of` key
        ∧ Unmarshal (Type_ info) xmlData = inl msg
  | inl _ => False
  end.
Proof.
  intros Hrange. unfold Parse.
  destruct (New entries messageType version) as [type|e] eqn:Hnew.
  - apply New_Ok_elem in Hnew as (key & info & Hin & Hp%HasPrefix_true & ->).
    apply (rangeOf_elem registry entries) in Hin; [|done].
    destruct (Unmarshal (Type_ info) xmlData) as [msg|cause] eqn:Hun.
    + exists key, info. done.
    + split; [done|]. split; [done|]. exists key, info. done.
  - apply New_Err in Hnew as [-> Hf]. split; [done|].
    intros key [info Hl] Hp.
    assert (IsRegistered entries messageType version = true); [|congruence].
    apply IsRegistered_true_iff. exists key, info.
    split; [by apply (rangeOf_elem registry entries)|by apply HasPrefix_true].
Qed.

(** X6 on the generated registry: a version that is not registered. *)
Lemma Parse_stages_witness :
  match Parse gostring (fun type _ => inl type) (map_to_list sampleRegistry)
          (lit "<NewReleaseMessage/>") (lit "ern") (lit "432") with
  | inl (LookupFailed e) =>
      e = NotRegistered (lit "ern") (lit "432")
      ∧ ∀ key, is_Some (sampleRegistry !! key) →
          ¬ (lit "ern" ++ [slash] ++ lit "432" ++ [slash]) `prefix_of` key
  | inl (UnmarshalTypedFailed mt ver cause) =>
      mt = lit "ern" ∧ ver = lit "432"
      ∧ ∃ key info, sampleRegistry !! key = Some info
          ∧ (lit "ern" ++ [slash] ++ lit "432" ++ [slash]) `prefix_of` key
          ∧ @inl gostring gostring (Type_ info) = inr cause
  | inr msg =>
      ∃ key info, sampleRegistry !! key = Some info
        ∧ (lit "ern" ++ [slash] ++ lit "432" ++ [slash]) `prefix_of` key
        ∧ @inl gostring gostring (Type_ info) = inl msg
  | inl _ => False
  end.
Proof.
  apply (Parse_stages gostring (fun type _ => inl type) sampleRegistry
           (map_to_list sampleRegistry) (lit "<NewReleaseMessage/>")
           (lit "ern") (lit "432")).
  unfold rangeOf. reflexivity.
Defined.

Lemma GetAvailableTypes_fst entries :
  GetAvailableTypes entries = entries.*1.
Proof.
  unfold GetAvailableTypes.
  assert (H : ∀ acc, foldl (fun types (kv : gostring * MessageTypeInfo) => types ++ [kv.1])
                       acc entries = acc ++ entries.*1).
  { induction entries as [|kv rest IH]; intros acc; cbn [foldl fmap list_fmap].
    - by rewrite app_nil_r.
    - rewrite IH, <- app_assoc. done. }
  apply H.
Qed.

(** X7.  [GetAvailableTypes] returns every key of the registry exactly once
    and nothing else, whatever the iteration order; the slice has as many
    elements as the registry has entries. *)
Theorem GetAvailableTypes_keys
    (registry : gmap gostring MessageTypeInfo)
    (entries : list (gostring * MessageTypeInfo)) :
  rangeOf registry entries →
  NoDup (GetAvailableTypes entries)
  ∧ (∀ key, key ∈ GetAvailableTypes entries ↔ is_Some (registry !! key))
  ∧ length (GetAvailableTypes entries) = size registry.
Proof.
  intros Hrange. rewrite GetAvailableTypes_fst. unfold rangeOf in Hrange.
  split; [|split].
  - rewrite Hrange. apply NoDup_fst_map_to_list.
  - intros key. rewrite Hrange, list_elem_of_fmap. split.
    + intros ([k v] & -> & Hin%elem_of_map_to_list). eauto.
    + intros [v Hv]. exists (key, v). split; [done|]. by apply elem_of_map_to_list.
  - by rewrite length_fmap, Hrange, length_map_to_list.
Qed.

(** X7 on the generated registry. *)
Lemma GetAvailableTypes_keys_witness :
  NoDup (GetAvailableTypes (map_to_list sampleRegistry))
  ∧ (∀ key, key ∈ GetAvailableTypes (map_to_list sampleRegistry)
            ↔ is_Some (sampleRegistry !! key))
  ∧ length (GetAvailableTypes (map_to_list sampleRegistry)) = size sampleRegistry.
Proof.
  apply (GetAvailableTypes_keys sampleRegistry (map_to_list sampleRegistry)).
  unfold rangeOf. reflexivity.
Defined.

Lemma GetRegisteredTypes_eq (registry : gmap gostring MessageTypeInfo)
    (entries : list (gostring * MessageTypeInfo)) (σ : store) :
  rangeOf registry entries →
  GetRegisteredTypes entries σ = (fresh (dom σ), <[fresh (dom σ) := registry]> σ).
Proof.
  intros Hrange. unfold GetRegisteredTypes, makeMap.
  rewrite (foldl_mapAssign (fresh (dom σ)) entries _ ∅) by apply lookup_insert_eq.
  by rewrite (foldl_insert_rangeOf registry entries Hrange), insert_insert_eq.
Qed.

Lemma mutate_dom (l : positive) (σ : store) (ops : list mapMutation) :
  dom (foldl (mutate l) σ ops) = dom σ.
Proof.
  revert σ. induction ops as [|op ops IH]; intros σ; [done|].
  cbn [foldl]. rewrite IH. destruct op; cbn [mutate]; unfold mapAssign; apply dom_alter_L.
Qed.

(** X8.  Successive snapshots are independent.  After a caller has changed
    a map returned by [GetRegisteredTypes] in any way, a second call returns
    a different map object that again holds the contents of
    [messageRegistry]; the second call leaves the first map as the caller
    left it, and neither call nor the caller's changes touch any map object
    that existed before. *)
Theorem GetRegisteredTypes_snapshots_independent
    (σ : store) (registry : gmap gostring MessageTypeInfo)
    (entries1 entries2 : list (gostring * MessageTypeInfo))
    (ops : list mapMutation) :
  σ !! registryLoc = Some registry →
  rangeOf registry entries1 →
  rangeOf registry entries2 →
  let first := (GetRegisteredTypes entries1 σ).1 in
  let σ1 := foldl (mutate first) (GetRegisteredTypes entries1 σ).2 ops in
  let second := (GetRegisteredTypes entries2 σ1).1 in
  let σ2 := (GetRegisteredTypes entries2 σ1).2 in
  second ≠ first
  ∧ σ2 !! second = Some registry
  ∧ σ2 !! first = σ1 !! first
  ∧ ∀ l m, σ !! l = Some m → σ2 !! l = Some m.
Proof.
  intros Hreg Hr1 Hr2.
  rewrite (GetRegisteredTypes_eq registry entries1 σ Hr1). cbn [fst snd].
  set (first := fresh (dom σ)).
  set (σ1 := foldl (mutate first) (<[first:=registry]> σ) ops).
  rewrite (GetRegisteredTypes_eq registry entries2 σ1 Hr2). cbn [fst snd].
  set (second := fresh (dom σ1)).
  assert (Hdom : dom σ1 = {[first]} ∪ dom σ).
  { unfold σ1. rewrite mutate_dom. apply dom_insert_L. }
  assert (Hsecond : second ∉ dom σ1) by apply is_fresh.
  assert (Hfirst : first ∉ dom σ) by apply is_fresh.
  assert (Hne : second ≠ first) by (intros Heq; apply Hsecond; rewrite Hdom, Heq; by apply elem_of_union_l, elem_of_singleton).
  split; [done|]. split; [apply lookup_insert_eq|].
  split; [by rewrite lookup_insert_ne|].
  intros l m Hl.
  assert (Hin : l ∈ dom σ) by (apply elem_of_dom; eauto).
  assert (l ≠ first) by (intros ->; done).
  assert (l ≠ second) by (intros ->; apply Hsecond; rewrite Hdom; by apply elem_of_union_r).
  rewrite lookup_insert_ne by done. unfold σ1.
  rewrite mutate_frame by done. by rewrite lookup_insert_ne.
Qed.

(** X8 on the generated registry: the caller clears the first snapshot and
    adds a key to it before asking again. *)
Lemma GetRegisteredTypes_snapshots_independent_witness :
  let σ : store := {[registryLoc := sampleRegistry]} in
  let ops := [Clear; Assign (lit "x") (mkInfo (lit "T") (lit "ns") (lit "R"))] in
  let first := (GetRegisteredTypes (map_to_list sampleRegistry) σ).1 in
  let σ1 := foldl (mutate first) (GetRegisteredTypes (map_to_list sampleRegistry) σ).2 ops in
  let second := (GetRegisteredTypes (reverse (map_to_list sampleRegistry)) σ1).1 in
  let σ2 := (GetRegisteredTypes (reverse (map_to_list sampleRegistry)) σ1).2 in
  second ≠ first
  ∧ σ2 !! second = Some sampleRegistry
  ∧ σ2 !! first = σ1 !! first
  ∧ ∀ l m, σ !! l = Some m → σ2 !! l = Some m.
Proof.
  apply (GetRegisteredTypes_snapshots_independent {[registryLoc := sampleRegistry]}
           sampleRegistry (map_to_list sampleRegistry)
           (reverse (map_to_list sampleRegistry))
           [Clear; Assign (lit "x") (mkInfo (lit "T") (lit "ns") (lit "R"))]).
  - apply lookup_singleton_eq.
  - unfold rangeOf. reflexivity.
  - unfold rangeOf. apply reverse_Permutation.
Defined.

(** X9 on the generated registry of the three sample packages. *)
Lemma DetectMessageType_generated_witness :
  ∃ family version,
    lit "ern/v432/PurgeReleaseMessage"
    = registryKey family version (lit "PurgeReleaseMessage")
    ∧ DetectMessageType (map_to_list (generatedRegistry samplePackages))
        (minimalDocument (lit "PurgeReleaseMessage") (lit "http://ddex.net/xml/ern/432")) []
      = Ok (family, version, lit "PurgeReleaseMessage").
Proof.
  apply (DetectMessageType_generated (fun _ _ _ => false) samplePackages
           (map_to_list (generatedRegistry samplePackages))
           (lit "ern/v432/PurgeReleaseMessage")
           (mkInfo (lit "ernv432.PurgeReleaseMessage") (lit "http://ddex.net/xml/ern/432")
                   (lit "PurgeReleaseMessage")) []).
  - apply Forall_forall. exact samplePackages_canonical.
  - unfold rangeOf. reflexivity.
  - vm_compute. reflexivity.
Defined.

(** *** The generated codec: decode, then encode *)

(** The entry under [key] after the capture loop: the value of the last
    captured attribute with that key, or else the entry the map had. *)
Lemma captureAttr_foldl_Some (m : gmap gostring gostring) attrs key value :
  foldl captureAttr m attrs !! key = Some value
  ↔ (∃ i a, attrs !! i = Some a ∧ capturedAttr a = true ∧ captureKey a = key
            ∧ Value a = value
            ∧ Forall (fun b => capturedAttr b = true → captureKey b ≠ key)
                     (drop (S i) attrs))
    ∨ (m !! key = Some value
       ∧ Forall (fun b => capturedAttr b = true → captureKey b ≠ key) attrs).
Proof.
  revert m. induction attrs as [|a attrs IH]; intros m; cbn [foldl].
  - split; [auto|]. intros [(i & a & Hi & _)|[? _]]; [done|done].
  - rewrite IH. split.
    + intros [(i & b & Hi & Hc & Hk & Hv & Hlater)|[Hm Hall]].
      * left. exists (S i), b. done.
      * unfold captureAttr in Hm. destruct (capturedAttr a) eqn:Hca.
        -- destruct (decide (captureKey a = key)) as [Heq|Hne].
           ++ rewrite Heq, lookup_insert_eq in Hm. injection Hm as Hm.
              left. exists 0%nat, a. done.
           ++ rewrite lookup_insert_ne in Hm by done. right. split; [done|].
              constructor; done.
        -- right. split; [done|]. constructor; [|done]. congruence.
    + intros [(i & b & Hi & Hc & Hk & Hv & Hlater)|[Hm Hall]].
      * destruct i as [|i].
        -- injection Hi as ->. right. cbn [drop] in Hlater. split; [|done].
           unfold captureAttr. by rewrite Hc, Hk, lookup_insert_eq, Hv.
        -- left. exists i, b. done.
      * apply Forall_cons in Hall as [Ha Hall]. right. split; [|done].
        unfold captureAttr. destruct (capturedAttr a); [|done].
        rewrite lookup_insert_ne; [done|]. by apply Ha.
Qed.

Lemma MarshalXML_start_eq packageNamespace fieldTags rangeSeq start :
  MarshalXML_start packageNamespace fieldTags rangeSeq start
  = mkStart (mkName packageNamespace (Local (StartName start)))
      (StartAttr start
       ++ ((fun kv => mkAttr (mkName [] kv.1) kv.2)
             <$> filter (fun kv : gostring * gostring =>
                           indexBool (existingAttrsOf fieldTags) kv.1 = false) rangeSeq)).
Proof. unfold MarshalXML_start. by rewrite appendNamespaceAttr_foldl. Qed.

(** X10.  Decoding and then encoding a root message.  A message decoded into
    a fresh value from a start element with attributes [attrs] is encoded
    with a start element in the package namespace, with the local name it
    is given, whose attributes are those it is given followed by a list
    [appended].  An attribute [key="value"] is appended exactly when [key]
    is not among the keys the reflection loop collects and the last captured
    attribute of the document with capture key [key] has the value [value].
    The keys the loop collects are the non-empty [k] for which some field
    has the tag [k,attr], with nothing after [attr].  What [EncodeElement]
    then writes for the typed fields is not part of this statement. *)
Theorem UnmarshalXML_MarshalXML_namespace_attrs
    (messageName packageNamespace : gostring)
    (attrs : list Attr) (fieldTags : list gostring)
    (rangeSeq : list (gostring * gostring)) (start : StartElementValue) :
  isRootMessage messageName = true →
  (∀ namespaceAttrs,
     UnmarshalXML_NamespaceAttrs true messageName None attrs = Some namespaceAttrs →
     rangeOf namespaceAttrs rangeSeq) →
  let out := MarshalXML_start packageNamespace fieldTags rangeSeq start in
  StartName out = mkName packageNamespace (Local (StartName start))
  ∧ (∃ appended : list Attr,
       StartAttr out = StartAttr start ++ appended
       ∧ ∀ key value,
           mkAttr (mkName [] key) value ∈ appended
           ↔ indexBool (existingAttrsOf fieldTags) key = false
             ∧ ∃ i a, attrs !! i = Some a ∧ capturedAttr a = true
                 ∧ captureKey a = key ∧ Value a = value
                 ∧ Forall (fun b => capturedAttr b = true → captureKey b ≠ key)
                          (drop (S i) attrs))
  ∧ (∀ key, indexBool (existingAttrsOf fieldTags) key = true
            ↔ key ≠ [] ∧ key ++ lit ",attr" ∈ fieldTags).
Proof.
  intros Hroot Hrange out. unfold out. rewrite MarshalXML_start_eq.
  cbn [StartName StartAttr]. split; [done|]. split; last first.
  { intros key. unfold existingAttrsOf.
    rewrite existingAttrs_foldl. unfold indexBool. rewrite lookup_empty. cbn.
    split; [intros [?|?]; [discriminate|done]|auto]. }
  eexists. split; [done|]. intros key value.
  specialize (Hrange (captureNamespaceAttrs None attrs)).
  unfold UnmarshalXML_NamespaceAttrs, namespaceHandling in Hrange.
  rewrite Hroot in Hrange. specialize (Hrange eq_refl).
  rewrite list_elem_of_fmap. split.
  - intros ([k v] & [= -> ->] & [Hkeep Hin]%list_elem_of_filter).
    split; [done|].
    apply (rangeOf_elem _ _ _ _ Hrange) in Hin.
    unfold captureNamespaceAttrs in Hin. cbn [default] in Hin.
    apply captureAttr_foldl_Some in Hin as [Hin|[Hempty _]]; [done|].
    by rewrite lookup_empty in Hempty.
  - intros (Hkeep & Hlast). exists (key, value). split; [done|].
    apply list_elem_of_filter. split; [done|].
    apply (rangeOf_elem _ _ _ _ Hrange).
    unfold captureNamespaceAttrs. cbn [default].
    apply captureAttr_foldl_Some. by left.
Qed.

(** X10 on the start element
    [<ern:NewReleaseMessage xmlns:ern="e" xmlns:avs="a" LanguageAndScriptCode="en">]
    of a message with one attribute field. *)
Lemma UnmarshalXML_MarshalXML_namespace_attrs_witness :
  let attrs := [mkAttr (mkName (lit "xmlns") (lit "ern")) (lit "e");
                mkAttr (mkName (lit "xmlns") (lit "avs")) (lit "a");
                mkAttr (mkName [] (lit "LanguageAndScriptCode")) (lit "en")] in
  let fieldTags := [lit "LanguageAndScriptCode,attr"; lit "MessageHeader"] in
  let start := mkStart (mkName [] (lit "NewReleaseMessage")) [] in
  let out := MarshalXML_start (lit "e") fieldTags
               (map_to_list (captureNamespaceAttrs None attrs)) start in
  StartName out = mkName (lit "e") (Local (StartName start))
  ∧ (∃ appended : list Attr,
       StartAttr out = StartAttr start ++ appended
       ∧ ∀ key value,
           mkAttr (mkName [] key) value ∈ appended
           ↔ indexBool (existingAttrsOf fieldTags) key = false
             ∧ ∃ i a, attrs !! i = Some a ∧ capturedAttr a = true
                 ∧ captureKey a = key ∧ Value a = value
                 ∧ Forall (fun b => capturedAttr b = true → captureKey b ≠ key)
                          (drop (S i) attrs))
  ∧ (∀ key, indexBool (existingAttrsOf fieldTags) key = true
            ↔ key ≠ [] ∧ key ++ lit ",attr" ∈ fieldTags).
Proof.
  apply (UnmarshalXML_MarshalXML_namespace_attrs (lit "NewReleaseMessage") (lit "e")).
  - vm_compute. reflexivity.
  - intros namespaceAttrs [= <-]. unfold rangeOf. reflexivity.
Defined.

Lemma captured_key_shape (a : Attr) :
  capturedAttr a = true →
  (Space (AttrName a) = lit "xmlns" ∧ captureKey a = lit "xmlns:" ++ Local (AttrName a))
  ∨ captureKey a = lit "xmlns"
  ∨ captureKey a = lit "xsi:schemaLocation".
Proof.
  unfold capturedAttr, captureKey. intros Hc.
  destruct (decide (Space (AttrName a) = lit "xmlns")) as [Hs|Hs].
  { left. by rewrite bool_decide_eq_true_2. }
  rewrite (bool_decide_eq_false_2 _ Hs) in Hc |- *. cbn [orb] in Hc.
  destruct (decide (Local (AttrName a) = lit "xmlns")) as [Hl|Hl].
  { right. left. rewrite (bool_decide_eq_false_2 (Local (AttrName a) ≠ lit "xmlns"))
      by (intros Hn; by apply Hn).
    by rewrite andb_false_r. }
  rewrite (bool_decide_eq_false_2 _ Hl) in Hc. cbn [orb] in Hc.
  apply andb_true_iff in Hc as [Hx%bool_decide_eq_true Hloc%bool_decide_eq_true].
  right. right.
  rewrite (bool_decide_eq_true_2 (Space (AttrName a) ≠ [])) by (rewrite Hx; discriminate).
  rewrite (bool_decide_eq_true_2 _ Hl). cbn [andb].
  by rewrite (bool_decide_eq_true_2 _ Hx), Hloc.
Qed.

(** X11.  The keys of [NamespaceAttrs] after [UnmarshalXML].  The capture
    loop never removes an entry: the keys afterwards are the keys the map
    had before together with the capture keys of the captured attributes,
    and each of the latter is ["xmlns"], ["xsi:schemaLocation"] or
    ["xmlns:"] followed by the local name of a declaration.  An entry the
    map had before keeps its value unless a captured attribute has its key,
    so a message value that is decoded twice keeps entries of the first
    document. *)
Theorem UnmarshalXML_NamespaceAttrs_keys
    (namespaceAttrs : option (gmap gostring gostring)) (attrs : list Attr) :
  let before := default ∅ namespaceAttrs in
  let after := captureNamespaceAttrs namespaceAttrs attrs in
  (∀ key, is_Some (after !! key)
          ↔ is_Some (before !! key)
            ∨ ∃ a, a ∈ attrs ∧ capturedAttr a = true ∧ captureKey a = key)
  ∧ (∀ a, a ∈ attrs → capturedAttr a = true →
       (Space (AttrName a) = lit "xmlns"
        ∧ captureKey a = lit "xmlns:" ++ Local (AttrName a))
       ∨ captureKey a = lit "xmlns"
       ∨ captureKey a = lit "xsi:schemaLocation")
  ∧ (∀ key value, before !! key = Some value →
       (∀ a, a ∈ attrs → capturedAttr a = true → captureKey a ≠ key) →
       after !! key = Some value).
Proof.
  intros before after. split; [|split].
  - intros key. unfold after, captureNamespaceAttrs. fold before. split.
    + intros [value [(i & a & Hi & Hc & Hk & _)|[Hm _]]%captureAttr_foldl_Some].
      * right. exists a. split; [by eapply list_elem_of_lookup_2|done].
      * left. eauto.
    + assert (Hdec : ∀ l : list Attr,
                Forall (fun b => capturedAttr b = true → captureKey b ≠ key) l
                ∨ ∃ i a, l !! i = Some a ∧ capturedAttr a = true ∧ captureKey a = key
                    ∧ Forall (fun b => capturedAttr b = true → captureKey b ≠ key)
                             (drop (S i) l)).
      { induction l as [|b l IHl]; [by left|].
        destruct IHl as [Hall|(i & a & Hi & Hc & Hk & Hlater)].
        - destruct (capturedAttr b) eqn:Hcb.
          + destruct (decide (captureKey b = key)) as [Heq|Hne].
            * right. exists 0%nat, b. done.
            * left. by constructor.
          + left. constructor; [congruence|done].
        - right. exists (S i), a. done. }
      intros [[value Hv]|(a & Hin & Hc & Hk)].
      * destruct (Hdec attrs) as [Hall|(i & a & Hi & Hc & Hk & Hlater)].
        -- exists value. apply captureAttr_foldl_Some. by right.
        -- exists (Value a). apply captureAttr_foldl_Some. left. by exists i, a.
      * destruct (Hdec attrs) as [Hall|(i & a' & Hi & Hc' & Hk' & Hlater)].
        -- exfalso. by apply (proj1 (Forall_forall _ _) Hall a Hin Hc).
        -- exists (Value a'). apply captureAttr_foldl_Some. left. by exists i, a'.
  - intros a _. apply captured_key_shape.
  - intros key value Hb Hno. unfold after, captureNamespaceAttrs. fold before.
    apply captureAttr_foldl_Some. right. split; [done|].
    apply Forall_forall. intros a Hin Hc. by apply Hno.
Qed.

(** *** The generated enum methods *)

Lemma find_Some_elem {A} (p : A → bool) (l : list A) (x : A) :
  find p l = Some x → x ∈ l ∧ p x = true.
Proof.
  induction l as [|y l IH]; [done|]. cbn [find].
  destruct (p y) eqn:E.
  - intros [= <-]. split; [by left|done].
  - intros [Hin Hp]%IH. split; [by right|done].
Qed.

Lemma find_None_elem {A} (p : A → bool) (l : list A) :
  find p l = None → ∀ x, x ∈ l → p x = false.
Proof.
  induction l as [|y l IH]; cbn [find].
  - intros _ x Hin. by apply elem_of_nil in Hin.
  - destruct (p y) eqn:E; [done|]. intros Hnone x [->|Hin]%elem_of_cons; [done|].
    by apply IH.
Qed.

Section EnumStringsSound.

Context (unicodeUpper : rune → rune) (constValue : gostring → Z).

(** X12.  What the generated parser can return.  When it answers [true] the
    value is that of a declared constant which does not end in
    [_UNSPECIFIED], and the upper-cased input is the non-empty text that
    follows the last [UPPER(enum.Name) + "_"] in the name of that constant,
    hence a suffix of the name; otherwise the value is zero and the
    upper-cased input is the label of no case. *)
Theorem ParseString_sound (enum : EnumInfo) (s : gostring) :
  match ParseString unicodeUpper constValue enum s with
  | (value, true) =>
      ∃ constant,
        constant ∈ Constants enum
        ∧ value = constValue constant
        ∧ HasSuffix constant (lit "_UNSPECIFIED") = false
        ∧ (constant, ToUpper unicodeUpper s) ∈ enumCases unicodeUpper enum
        ∧ ToUpper unicodeUpper s ≠ []
        ∧ ToUpper unicodeUpper s ≠ lit "UNSPECIFIED"
        ∧ ToUpper unicodeUpper s `suffix_of` constant
  | (value, false) =>
      value = 0%Z
      ∧ ∀ constant afterPrefix,
          (constant, afterPrefix) ∈ enumCases unicodeUpper enum →
          afterPrefix ≠ ToUpper unicodeUpper s
  end.
Proof.
  unfold ParseString.
  destruct (find _ (enumCases unicodeUpper enum)) as [[constant afterPrefix]|] eqn:Hfind.
  - apply find_Some_elem in Hfind as [Hin Hlab%bool_decide_eq_true].
    cbn [snd] in Hlab. subst afterPrefix.
    pose proof Hin as Hcase.
    apply enumCases_elem in Hin as (Hc & Hsuf & idx & Hidx & Hdrop & Hne & Hun).
    exists constant. repeat split; try done.
    rewrite Hdrop. apply suffix_drop.
  - split; [done|]. intros constant afterPrefix Hin.
    apply find_None_elem with (x := (constant, afterPrefix)) in Hfind; [|done].
    by apply bool_decide_eq_false in Hfind.
Qed.

(** X13.  What the generated accessor can return.  Its result is empty
    exactly when no case constant has the value; a non-empty result is never
    ["UNSPECIFIED"] and is the text after the last [UPPER(enum.Name) + "_"]
    in the name of a declared constant with that value which does not end
    in [_UNSPECIFIED]. *)
Theorem XMLString_sound (enum : EnumInfo) (e : Z) :
  (XMLString unicodeUpper constValue enum e = []
   ↔ ∀ constant afterPrefix,
       (constant, afterPrefix) ∈ enumCases unicodeUpper enum → constValue constant ≠ e)
  ∧ (XMLString unicodeUpper constValue enum e ≠ [] →
     XMLString unicodeUpper constValue enum e ≠ lit "UNSPECIFIED"
     ∧ ∃ constant,
         constant ∈ Constants enum
         ∧ constValue constant = e
         ∧ HasSuffix constant (lit "_UNSPECIFIED") = false
         ∧ (constant, XMLString unicodeUpper constValue enum e)
             ∈ enumCases unicodeUpper enum
         ∧ XMLString unicodeUpper constValue enum e `suffix_of` constant).
Proof.
  unfold XMLString.
  destruct (find _ (enumCases unicodeUpper enum)) as [[constant afterPrefix]|] eqn:Hfind.
  - apply find_Some_elem in Hfind as [Hin Hval%bool_decide_eq_true].
    cbn [fst] in Hval. pose proof Hin as Hcase.
    apply enumCases_elem in Hin as (Hc & Hsuf & idx & Hidx & Hdrop & Hne & Hun).
    split.
    + split; [done|]. intros Hno. by destruct (Hno constant afterPrefix Hcase).
    + intros _. split; [done|]. exists constant. repeat split; try done.
      rewrite Hdrop. apply suffix_drop.
  - split; [|done]. split; [|done]. intros _ constant afterPrefix Hin.
    apply find_None_elem with (x := (constant, afterPrefix)) in Hfind; [|done].
    by apply bool_decide_eq_false in Hfind.
Qed.

(** X14.  The accessor inverts the parser up to case.  Suppose the accessor's
    switch compiles (the values of its case constants are pairwise distinct).
    Whenever the parser accepts an input, the accessor applied to the value
    it returns gives the upper-cased input. *)
Theorem enum_accessor_inverts_parser (enum : EnumInfo) (s : gostring) (value : Z) :
  NoDup (constValue <$> (enumCases unicodeUpper enum).*1) →
  ParseString unicodeUpper constValue enum s = (value, true) →
  XMLString unicodeUpper constValue enum value = ToUpper unicodeUpper s.
Proof.
  intros Hval Hparse. unfold ParseString in Hparse.
  destruct (find _ (enumCases unicodeUpper enum)) as [[constant afterPrefix]|] eqn:Hfind;
    [|done].
  injection Hparse as <-.
  apply find_Some_elem in Hfind as [Hin Hlab%bool_decide_eq_true].
  cbn [snd] in Hlab. rewrite <- Hlab.
  by apply accessor_case.
Qed.

End EnumStringsSound.

(** X14 on [genreEnum]: the input ["rock"]. *)
Lemma enum_accessor_inverts_parser_witness :
  XMLString (fun r => r) genreValue genreEnum 1%Z = ToUpper (fun r => r) (lit "rock").
Proof.
  apply (enum_accessor_inverts_parser (fun r => r) genreValue genreEnum (lit "rock") 1%Z).
  - apply (bool_decide_unpack _). vm_compute. exact I.
  - vm_compute. reflexivity.
Defined.

(** *** The oracle on a tree and itself *)

Section OracleReflexive.

Context (rangeAttrs : gostring → gmap gostring gostring → list (gostring * gostring))
        (rangeTags : gostring → gset gostring → list gostring).

Hypothesis rangeAttrs_sound : ∀ p attrs, rangeOf attrs (rangeAttrs p attrs).

Lemma compareAttribute_same (currentPath : gostring) (attrs : gmap gostring gostring)
    (seq : list (gostring * gostring)) (comp : DOMComparison) :
  (∀ kv, kv ∈ seq → attrs !! kv.1 = Some kv.2) →
  foldl (compareAttribute currentPath attrs) comp seq = comp.
Proof using Type.
  revert comp. induction seq as [|kv seq IH]; intros comp Hseq; [done|].
  cbn [foldl]. rewrite <- (IH comp) at 2 by (intros kv' Hin; apply Hseq; by right).
  f_equal. unfold compareAttribute.
  destruct (HasPrefix kv.1 (lit "xmlns")); [done|].
  rewrite (Hseq kv) by left. by rewrite bool_decide_eq_false_2 by (intros Hne; by apply Hne).
Qed.

Lemma compareText_same currentPath e comp : compareText currentPath e e comp = comp.
Proof using Type.
  unfold compareText. destruct (_ && _); [|done].
  rewrite (bool_decide_eq_false_2 (normalizeValue (etree.Text e) ≠ normalizeValue (etree.Text e)))
    by (intros Hne; by apply Hne).
  by rewrite andb_false_r.
Qed.

Lemma compareChildren_same recurse currentPath (l : list Element) acc r a :
  (∀ child path c c', recurse (Some child) (Some child) path c = Some c' →
     allIssues c' = allIssues c) →
  acc = Some a →
  compareChildren recurse currentPath l l acc = Some r →
  allIssues r = allIssues a.
Proof using Type.
  intros Hrec. unfold compareChildren.
  generalize (seq 0 (Nat.max (length l) (length l))). intros idx.
  revert acc a. induction idx as [|i idx IH]; intros acc a -> ; cbn [foldl].
  - by intros [= <-].
  - cbn [mbind option_bind].
    destruct (l !! i) as [child|] eqn:Hi.
    + rewrite (bool_decide_eq_true_2 (is_Some (Some child))) by eauto. cbn [orb].
      destruct (recurse (Some child) (Some child) (childPathOf currentPath i) a)
        as [a'|] eqn:Hcall.
      * intros Hr. rewrite (IH (Some a') a' eq_refl Hr). by eapply Hrec.
      * intros Hr. exfalso. revert Hr. clear.
        induction idx as [|j idx IH]; cbn [foldl]; [done|apply IH].
    + rewrite (bool_decide_eq_false_2 (is_Some None)) by (by intros [? ?]).
      cbn [orb]. by apply IH.
Qed.

Lemma compareFuel_same fuel (e : Element) path comp comp' :
  compareFuel rangeAttrs rangeTags fuel (Some e) (Some e) path comp = Some comp' →
  allIssues comp' = allIssues comp.
Proof using rangeAttrs_sound.
  revert e path comp comp'. induction fuel as [|fuel IH]; intros e path comp comp'; [done|].
  cbn [compareFuel].
  rewrite compareAttribute_same; last first.
  { intros [k v] Hin. by apply (rangeOf_elem _ _ _ _ (rangeAttrs_sound _ _)) in Hin. }
  rewrite compareText_same. unfold compareTagGroups.
  match goal with
  | |- foldl _ (Some ?c0) ?tags = _ → _ =>
      change (allIssues comp) with (allIssues c0); generalize c0; generalize tags
  end.
  intros tags. induction tags as [|tag tags IHt]; intros c0; cbn [foldl].
  - by intros [= <-].
  - destruct (compareChildren (compareFuel rangeAttrs rangeTags fuel)
                (path ++ lit "/" ++ etree.Tag e)
                (default [] (groupElementsByTag (etree.ChildElements e) !! tag))
                (default [] (groupElementsByTag (etree.ChildElements e) !! tag))
                (Some c0)) as [c1|] eqn:Hc.
    + intros Hr. rewrite (IHt c1 Hr).
      eapply compareChildren_same; [|reflexivity|exact Hc]. intros child p c c'. apply IH.
    + intros Hr. exfalso. revert Hr. clear.
      induction tags as [|t tags IH]; cbn [foldl]; [done|].
      replace (compareChildren (compareFuel rangeAttrs rangeTags fuel)
                 (path ++ lit "/" ++ etree.Tag e)
                 (default [] (groupElementsByTag (etree.ChildElements e) !! t))
                 (default [] (groupElementsByTag (etree.ChildElements e) !! t)) None)
        with (@None DOMComparison); [apply IH|].
      unfold compareChildren.
      generalize (seq 0 (Nat.max
        (length (default [] (groupElementsByTag (etree.ChildElements e) !! t)))
        (length (default [] (groupElementsByTag (etree.ChildElements e) !! t))))).
      intros idx. induction idx as [|j idx IHi]; cbn [foldl]; [done|apply IHi].
Qed.

(** X15.  A tree compared with itself.  Whatever the tree, the path and the
    order in which tags are visited, [CompareDOMTrees] on an element and the
    same element adds no entry to any of the four lists of the report. *)
Theorem CompareDOMTrees_same_tree (e : Element) (path : gostring) (comp : DOMComparison) :
  let result := CompareDOMTrees rangeAttrs rangeTags (Some e) (Some e) path comp in
  MissingElements result = MissingElements comp
  ∧ MissingAttributes result = MissingAttributes comp
  ∧ ValueMismatches result = ValueMismatches comp
  ∧ ExtraElements result = ExtraElements comp.
Proof using rangeAttrs_sound.
  intros result.
  pose proof (compareFuel_same _ _ _ _ _
                (CompareDOMTrees_run rangeAttrs rangeTags (Some e) (Some e) path comp))
    as Hsame.
  fold result in Hsame. unfold allIssues in Hsame. by injection Hsame as -> -> -> ->.
Qed.

End OracleReflexive.

(** X15 on the sample document. *)
Lemma CompareDOMTrees_same_tree_witness :
  let result := CompareDOMTrees rangeAttrsCanonical rangeTagsCanonical
                  (Some sampleOriginal) (Some sampleOriginal) [] newComparison in
  MissingElements result = MissingElements newComparison
  ∧ MissingAttributes result = MissingAttributes newComparison
  ∧ ValueMismatches result = ValueMismatches newComparison
  ∧ ExtraElements result = ExtraElements newComparison.
Proof.
  apply (CompareDOMTrees_same_tree rangeAttrsCanonical rangeTagsCanonical).
  intros p attrs. unfold rangeOf, rangeAttrsCanonical. reflexivity.
Defined.

(** *** Grouping of child elements *)

Lemma groupElementsByTag_foldl (elements : list Element)
    (acc : gmap gostring (list Element)) (tag : gostring) :
  default [] (foldl (fun grouped elem =>
                <[etree.Tag elem := default [] (grouped !! etree.Tag elem) ++ [elem]]> grouped)
              acc elements !! tag)
  = default [] (acc !! tag) ++ filter (fun c => etree.Tag c = tag) elements
  ∧ (is_Some (foldl (fun grouped elem =>
                <[etree.Tag elem := default [] (grouped !! etree.Tag elem) ++ [elem]]> grouped)
              acc elements !! tag)
     ↔ is_Some (acc !! tag) ∨ filter (fun c => etree.Tag c = tag) elements ≠ []).
Proof.
  revert acc. induction elements as [|x elements IH]; intros acc; cbn [foldl].
  - rewrite app_nil_r. split; [done|]. split; [auto|]. by intros [?|?].
  - destruct (IH (<[etree.Tag x := default [] (acc !! etree.Tag x) ++ [x]]> acc))
      as [IH1 IH2].
    rewrite IH1, IH2. clear IH IH1 IH2.
    destruct (decide (etree.Tag x = tag)) as [<-|Hne].
    + rewrite lookup_insert_eq, filter_cons_True by done. cbn [default].
      split; [unfold id; by rewrite <- app_assoc|]. split; [by right|]. intros _. left. eauto.
    + rewrite lookup_insert_ne, filter_cons_False by done. done.
Qed.

(** X16.  [groupElementsByTag] maps a tag to the elements with that tag, in
    document order; a tag is a key exactly when at least one element bears
    it, so no key is mapped to an empty list, and every element is in the
    group of its tag. *)
Theorem groupElementsByTag_spec (elements : list Element) (tag : gostring) :
  groupElementsByTag elements !! tag
  = (if decide (filter (fun c => etree.Tag c = tag) elements = []) then None
     else Some (filter (fun c => etree.Tag c = tag) elements))
  ∧ (∀ e, e ∈ elements →
       ∃ group, groupElementsByTag elements !! etree.Tag e = Some group ∧ e ∈ group).
Proof.
  assert (Hlook : ∀ t, groupElementsByTag elements !! t
                       = if decide (filter (fun c => etree.Tag c = t) elements = [])
                         then None
                         else Some (filter (fun c => etree.Tag c = t) elements)).
  { intros t. destruct (groupElementsByTag_foldl elements ∅ t) as [Hl Hs].
    fold (groupElementsByTag elements) in Hl, Hs.
    rewrite lookup_empty in Hl, Hs. cbn [default app] in Hl.
    destruct (decide _) as [Hnil|Hne].
    - destruct (groupElementsByTag elements !! t) as [l|] eqn:E; [|done].
      exfalso. destruct (proj1 Hs) as [[? ?]|?]; [eauto|done|done].
    - destruct (groupElementsByTag elements !! t) as [l|] eqn:E.
      + cbn in Hl. by rewrite Hl.
      + exfalso. destruct (proj2 Hs) as [? ?]; [by right|done]. }
  split; [apply Hlook|].
  intros e He. rewrite Hlook.
  assert (Hin : e ∈ filter (fun c => etree.Tag c = etree.Tag e) elements)
    by (by apply list_elem_of_filter).
  destruct (decide _) as [Hnil|Hne].
  - rewrite Hnil in Hin. by apply elem_of_nil in Hin.
  - eauto.
Qed.

Lemma groupElementsByTag_default (elements : list Element) (tag : gostring) :
  default [] (groupElementsByTag elements !! tag)
  = filter (fun c => etree.Tag c = tag) elements.
Proof.
  destruct (groupElementsByTag_foldl elements ∅ tag) as [Hl _].
  fold (groupElementsByTag elements) in Hl. by rewrite lookup_empty in Hl.
Qed.

Lemma groupElementsByTag_dom (elements : list Element) (tag : gostring) :
  tag ∈ dom (groupElementsByTag elements)
  ↔ filter (fun c => etree.Tag c = tag) elements ≠ [].
Proof.
  rewrite elem_of_dom.
  destruct (groupElementsByTag_foldl elements ∅ tag) as [_ Hs].
  fold (groupElementsByTag elements) in Hs. rewrite Hs, lookup_empty.
  split; [by intros [[? ?]|?]|by right].
Qed.

(** *** Children without a partner *)

Lemma seq_split_at (n i : nat) :
  (i < n)%nat → seq 0 n = seq 0 i ++ i :: seq (S i) (n - S i).
Proof.
  intros Hi. replace n with (i + S (n - S i))%nat at 1 by lia.
  by rewrite seq_app.
Qed.

Section OracleChildren.

Context (rangeAttrs : gostring → gmap gostring gostring → list (gostring * gostring))
        (rangeTags : gostring → gset gostring → list gostring).

Local Abbreviation compareTrees := (CompareDOMTrees rangeAttrs rangeTags).
Local Abbreviation recurseTrees :=
  (fun o m path c => Some (CompareDOMTrees rangeAttrs rangeTags o m path c)).

(** The body of the loop over the indices of one tag. *)
Local Abbreviation childStep recurse currentPath origList marshaledList :=
  (fun (acc : option DOMComparison) (i : nat) =>
     c ← acc;
     if bool_decide (is_Some (origList !! i)) || bool_decide (is_Some (marshaledList !! i))
     then recurse (origList !! i) (marshaledList !! i) (childPathOf currentPath i) c
     else Some c).

Lemma childStep_None
    (recurse : option Element → option Element → gostring → DOMComparison
               → option DOMComparison)
    (currentPath : gostring) (origList marshaledList : list Element)
    (idx : list nat) :
  foldl (childStep recurse currentPath origList marshaledList) None idx = None.
Proof. induction idx as [|j idx IH]; cbn [foldl]; [done|apply IH]. Qed.

Lemma compareChildren_None
    (recurse : option Element → option Element → gostring → DOMComparison
               → option DOMComparison)
    (currentPath : gostring)
    (origList marshaledList : list Element) :
  compareChildren recurse currentPath origList marshaledList None = None.
Proof. unfold compareChildren. apply childStep_None. Qed.

Lemma compareTagGroups_None
    (recurse : option Element → option Element → gostring → DOMComparison
               → option DOMComparison)
    (currentPath : gostring)
    (origChildren marshaledChildren : gmap gostring (list Element)) (tags : list gostring) :
  compareTagGroups recurse currentPath origChildren marshaledChildren tags None = None.
Proof.
  unfold compareTagGroups. induction tags as [|t tags IH]; cbn [foldl]; [done|].
  by rewrite compareChildren_None.
Qed.

Section Reach.

Variable P : DOMComparison → Prop.
Variable recurse : option Element → option Element → gostring → DOMComparison
                   → option DOMComparison.
Hypothesis P_stable : ∀ o m path c c', recurse o m path c = Some c' → P c → P c'.

Lemma childStep_preserves (currentPath : gostring) (origList marshaledList : list Element)
    (idx : list nat) acc r :
  (∀ c, acc = Some c → P c) →
  foldl (childStep recurse currentPath origList marshaledList) acc idx = Some r →
  P r.
Proof using P_stable.
  revert acc. induction idx as [|i idx IH]; intros acc Hacc; cbn [foldl].
  - intros ->. by apply Hacc.
  - apply IH. intros c Hc. destruct acc as [c0|]; [|done]. cbn in Hc.
    destruct (_ || _); [|injection Hc as <-; by apply Hacc].
    eapply P_stable; [exact Hc|by apply Hacc].
Qed.

(** A property that the call on the [i]-th pair establishes holds at the end
    of the loop over the indices. *)
Lemma compareChildren_reach (currentPath : gostring) (origList marshaledList : list Element)
    (i : nat) acc r :
  (i < Nat.max (length origList) (length marshaledList))%nat →
  (∀ c c', recurse (origList !! i) (marshaledList !! i) (childPathOf currentPath i) c
           = Some c' → P c') →
  compareChildren recurse currentPath origList marshaledList acc = Some r →
  P r.
Proof using P_stable.
  intros Hi Hest. unfold compareChildren.
  rewrite (seq_split_at _ i Hi), foldl_app. cbn [foldl].
  destruct (foldl (childStep recurse currentPath origList marshaledList) acc (seq 0 i))
    as [c1|]; [|by rewrite childStep_None].
  cbn [mbind option_bind].
  assert (Hcall : bool_decide (is_Some (origList !! i))
                  || bool_decide (is_Some (marshaledList !! i)) = true).
  { apply orb_true_iff. rewrite !bool_decide_eq_true, !lookup_lt_is_Some. lia. }
  rewrite Hcall.
  destruct (recurse (origList !! i) (marshaledList !! i) (childPathOf currentPath i) c1)
    as [c2|] eqn:Hc2; [|by rewrite childStep_None].
  apply childStep_preserves. intros c [= <-]. by eapply Hest.
Qed.

(** The same through the loop over the tags. *)
Lemma compareTagGroups_reach (currentPath : gostring)
    (origChildren marshaledChildren : gmap gostring (list Element))
    (tags : list gostring) (tag : gostring) (i : nat) acc r :
  tag ∈ tags →
  (i < Nat.max (length (default [] (origChildren !! tag)))
               (length (default [] (marshaledChildren !! tag))))%nat →
  (∀ c c', recurse (default [] (origChildren !! tag) !! i)
             (default [] (marshaledChildren !! tag) !! i) (childPathOf currentPath i) c
           = Some c' → P c') →
  compareTagGroups recurse currentPath origChildren marshaledChildren tags acc = Some r →
  P r.
Proof using P_stable.
  intros (pre & post & ->)%list_elem_of_split Hi Hest.
  unfold compareTagGroups. rewrite foldl_app. cbn [foldl].
  set (acc1 := foldl _ acc pre).
  destruct (compareChildren recurse currentPath (default [] (origChildren !! tag))
              (default [] (marshaledChildren !! tag)) acc1) as [c2|] eqn:Hc2.
  - intros Hr.
    eapply (compareTagGroups_preserves P); [exact P_stable| |exact Hr].
    intros c [= <-]. by eapply compareChildren_reach.
  - intros Hr. exfalso.
    change (compareTagGroups recurse currentPath origChildren marshaledChildren post None
            = Some r) in Hr.
    by rewrite compareTagGroups_None in Hr.
Qed.

End Reach.

Hypothesis rangeTags_complete : ∀ p (tags : gset gostring) t, t ∈ tags → t ∈ rangeTags p tags.

Lemma CompareDOMTrees_keeps_missing original marshaled path comp entry :
  entry ∈ MissingElements comp →
  entry ∈ MissingElements (compareTrees original marshaled path comp).
Proof using Type.
  refine (compareFuel_preserves rangeAttrs rangeTags
            (fun c => entry ∈ MissingElements c)
            _ _ _ _ _ _ _ _ _ _ _ _ _
            (CompareDOMTrees_run rangeAttrs rangeTags original marshaled path comp));
    try done.
  intros e c Hc. cbn. apply elem_of_app. by left.
Qed.

Lemma CompareDOMTrees_keeps_extra original marshaled path comp entry :
  entry ∈ ExtraElements comp →
  entry ∈ ExtraElements (compareTrees original marshaled path comp).
Proof using Type.
  refine (compareFuel_preserves rangeAttrs rangeTags
            (fun c => entry ∈ ExtraElements c)
            _ _ _ _ _ _ _ _ _ _ _ _ _
            (CompareDOMTrees_run rangeAttrs rangeTags original marshaled path comp));
    try done.
  intros e c Hc. cbn. apply elem_of_app. by left.
Qed.

(** X17.  Children without a partner.  Let both elements be present, and
    let [origList] and [marshaledList] be their children with tag [tag], in
    document order.  For every index [i] at which the original has a child
    and the marshaled element has none, the report holds the missing element
    [currentPath/tag] (for [i = 0]) or [currentPath[i+1]/tag]; for every
    index at which only the marshaled element has a child, the same path is
    among the extra elements. *)
Theorem CompareDOMTrees_unmatched_children
    (original marshaled : Element) (path : gostring) (comp : DOMComparison)
    (tag : gostring) (i : nat) :
  let currentPath := path ++ lit "/" ++ etree.Tag original in
  let origList := filter (fun c => etree.Tag c = tag) (etree.ChildElements original) in
  let marshaledList := filter (fun c => etree.Tag c = tag) (etree.ChildElements marshaled) in
  let result := compareTrees (Some original) (Some marshaled) path comp in
  ((length marshaledList ≤ i < length origList)%nat →
   childPathOf currentPath i ++ lit "/" ++ tag ∈ MissingElements result)
  ∧ ((length origList ≤ i < length marshaledList)%nat →
     childPathOf currentPath i ++ lit "/" ++ tag ∈ ExtraElements result).
Proof using rangeTags_complete.
  intros currentPath origList marshaledList result.
  pose proof (CompareDOMTrees_equation rangeAttrs rangeTags
                (Some original) (Some marshaled) path comp) as Heq.
  cbn zeta in Heq. fold currentPath in Heq. fold result in Heq.
  assert (Ho : default [] (groupElementsByTag (etree.ChildElements original) !! tag)
               = origList) by apply groupElementsByTag_default.
  assert (Hm : default [] (groupElementsByTag (etree.ChildElements marshaled) !! tag)
               = marshaledList) by apply groupElementsByTag_default.
  split.
  - intros [Hlo Hhi].
    refine (compareTagGroups_reach
              (fun c => childPathOf currentPath i ++ lit "/" ++ tag ∈ MissingElements c)
              recurseTrees _ currentPath _ _ _ tag i _ _ _ _ _ Heq).
    + intros o m p c c' [= <-]. apply CompareDOMTrees_keeps_missing.
    + apply rangeTags_complete, elem_of_union_l, groupElementsByTag_dom.
      fold origList. intros Hnil. rewrite Hnil in Hhi. cbn in Hhi. lia.
    + rewrite Ho, Hm. lia.
    + rewrite Ho, Hm. intros c c'.
      destruct (lookup_lt_is_Some_2 origList i Hhi) as [child Hchild].
      rewrite Hchild, (lookup_ge_None_2 marshaledList i) by lia.
      intros [= <-].
      pose proof (CompareDOMTrees_equation rangeAttrs rangeTags (Some child) None
                    (childPathOf currentPath i) c) as ->.
      apply list_elem_of_lookup_2, list_elem_of_filter in Hchild as [-> _].
      cbn. apply elem_of_app. right. by apply list_elem_of_singleton.
  - intros [Hlo Hhi].
    refine (compareTagGroups_reach
              (fun c => childPathOf currentPath i ++ lit "/" ++ tag ∈ ExtraElements c)
              recurseTrees _ currentPath _ _ _ tag i _ _ _ _ _ Heq).
    + intros o m p c c' [= <-]. apply CompareDOMTrees_keeps_extra.
    + apply rangeTags_complete, elem_of_union_r, groupElementsByTag_dom.
      fold marshaledList. intros Hnil. rewrite Hnil in Hhi. cbn in Hhi. lia.
    + rewrite Ho, Hm. lia.
    + rewrite Ho, Hm. intros c c'.
      destruct (lookup_lt_is_Some_2 marshaledList i Hhi) as [child Hchild].
      rewrite Hchild, (lookup_ge_None_2 origList i) by lia.
      intros [= <-].
      pose proof (CompareDOMTrees_equation rangeAttrs rangeTags None (Some child)
                    (childPathOf currentPath i) c) as ->.
      apply list_elem_of_lookup_2, list_elem_of_filter in Hchild as [-> _].
      cbn. apply elem_of_app. right. by apply list_elem_of_singleton.
Qed.

End OracleChildren.

(** X17 on the sample documents: the original has a child [c] the marshaled
    document lacks. *)
Lemma CompareDOMTrees_unmatched_children_witness :
  childPathOf ([] ++ lit "/" ++ etree.Tag sampleOriginal) 0 ++ lit "/" ++ lit "c"
  ∈ MissingElements
      (CompareDOMTrees rangeAttrsCanonical rangeTagsCanonical
         (Some sampleOriginal) (Some sampleMarshaled) [] newComparison).
Proof.
  refine (proj1 (CompareDOMTrees_unmatched_children rangeAttrsCanonical rangeTagsCanonical
                   _ sampleOriginal sampleMarshaled [] newComparison (lit "c") 0) _).
  - intros p tags t Ht. unfold rangeTagsCanonical. by apply elem_of_elements.
  - vm_compute. lia.
Defined.

(** *** The attribute maps *)

Lemma attrMap_foldl_lookup (attrs : list etree.Attr) (acc : gmap gostring gostring)
    (key : gostring) :
  foldl (fun m a => <[etree.Key a := etree.Value a]> m) acc attrs !! key
  = match last (filter (fun a => etree.Key a = key) attrs) with
    | Some a => Some (etree.Value a)
    | None => acc !! key
    end.
Proof.
  revert acc. induction attrs as [|a attrs IH]; intros acc; cbn [foldl]; [done|].
  rewrite IH. destruct (decide (etree.Key a = key)) as [Heq|Hne].
  - rewrite filter_cons_True, last_cons by done.
    destruct (last _); [done|]. by rewrite <- Heq, lookup_insert_eq.
  - rewrite filter_cons_False by done.
    destruct (last _); [done|]. by rewrite lookup_insert_ne.
Qed.

Lemma attrMap_lookup_last (attrs : list etree.Attr) (key : gostring) :
  attrMap attrs !! key
  = etree.Value <$> last (filter (fun a => etree.Key a = key) attrs).
Proof.
  unfold attrMap. rewrite attrMap_foldl_lookup, lookup_empty. by destruct (last _).
Qed.

Lemma attrMap_is_Some (attrs : list etree.Attr) (key : gostring) :
  is_Some (attrMap attrs !! key) ↔ ∃ a, a ∈ attrs ∧ etree.Key a = key.
Proof.
  rewrite attrMap_lookup_last, fmap_is_Some. split.
  - intros [a Ha]. exists a. apply last_Some_elem_of, list_elem_of_filter in Ha. tauto.
  - intros (a & Hin & Hk).
    destruct (filter (fun a0 => etree.Key a0 = key) attrs) as [|b l] eqn:E.
    + exfalso. apply (filter_nil_not_elem_of _ _ a E Hk Hin).
    + apply last_is_Some. done.
Qed.

(** *** What a report without critical issues means *)

Lemma issuesGrow_refl c : issuesGrow c c.
Proof. by repeat split. Qed.

Lemma issuesGrow_trans a b c : issuesGrow a b → issuesGrow b c → issuesGrow a c.
Proof.
  intros (? & ? & ?) (? & ? & ?). repeat split; by etrans.
Qed.

Lemma issuesGrow_sandwich a b c :
  issuesGrow a b → issuesGrow b c → criticalIssues c = criticalIssues a →
  criticalIssues b = criticalIssues a ∧ criticalIssues c = criticalIssues b.
Proof.
  intros (H1 & H2 & H3) (H4 & H5 & H6) [= E1 E2 E3].
  assert (Hanti : ∀ x y z : list gostring,
            x `prefix_of` y → y `prefix_of` z → z = x → y = x).
  { intros x y z Hxy Hyz ->. symmetry. apply prefix_length_eq; [done|].
    by apply prefix_length. }
  unfold criticalIssues.
  rewrite (Hanti _ _ _ H1 H4 E1), (Hanti _ _ _ H2 H5 E2), (Hanti _ _ _ H3 H6 E3).
  by rewrite E1, E2, E3.
Qed.

(** A loop whose iterations only let the lists grow: if the lists are the
    same after the loop as before, every iteration left them as they
    were. *)
Lemma foldl_issues_sandwich {A} (step : option DOMComparison → A → option DOMComparison)
    (l : list A) (c r : DOMComparison) :
  (∀ x, step None x = None) →
  (∀ c0 x c', step (Some c0) x = Some c' → issuesGrow c0 c') →
  foldl step (Some c) l = Some r →
  issuesGrow c r
  ∧ (criticalIssues r = criticalIssues c →
     ∀ pre x post, l = pre ++ x :: post →
       ∃ c1 c2, foldl step (Some c) pre = Some c1
                ∧ step (Some c1) x = Some c2
                ∧ criticalIssues c1 = criticalIssues c
                ∧ criticalIssues c2 = criticalIssues c).
Proof.
  intros Hnone Hgrow.
  assert (HfoldNone : ∀ l', foldl step None l' = None).
  { induction l' as [|y l' IH]; cbn [foldl]; [done|]. by rewrite Hnone. }
  assert (Hg : ∀ l' c0 r0, foldl step (Some c0) l' = Some r0 → issuesGrow c0 r0).
  { induction l' as [|y l' IH]; intros c0 r0; cbn [foldl].
    - intros [= <-]. apply issuesGrow_refl.
    - destruct (step (Some c0) y) as [c'|] eqn:E; [|by rewrite HfoldNone].
      intros Hr. eapply issuesGrow_trans; [by eapply Hgrow|by apply IH]. }
  intros Hr. split; [by apply (Hg l)|].
  intros Hsame pre x post ->. rewrite foldl_app in Hr. cbn [foldl] in Hr.
  destruct (foldl step (Some c) pre) as [c1|] eqn:E1;
    [|by rewrite Hnone, HfoldNone in Hr].
  destruct (step (Some c1) x) as [c2|] eqn:E2; [|by rewrite HfoldNone in Hr].
  exists c1, c2. split; [done|]. split; [done|].
  pose proof (Hg _ _ _ E1) as G1. pose proof (Hgrow _ _ _ E2) as G2.
  pose proof (Hg _ _ _ Hr) as G3.
  destruct (issuesGrow_sandwich c c1 r G1 (issuesGrow_trans _ _ _ G2 G3) Hsame) as [S1 _].
  destruct (issuesGrow_sandwich c c2 r (issuesGrow_trans _ _ _ G1 G2) G3 Hsame) as [S2 _].
  done.
Qed.

Lemma normalizeValue_nil_iff s : normalizeValue s = [] ↔ Fields s = [].
Proof.
  rewrite normalizeValue_Fields. split; [|by intros ->].
  pose proof (Fields_words s) as Hw.
  destruct (Fields s) as [|w ws]; [done|].
  apply Forall_cons in Hw as [[Hne _] _]. unfold Join.
  intros [Hnil _]%app_eq_nil. done.
Qed.

Lemma filter_none {A} (P : A → Prop) `{∀ x, Decision (P x)} (l : list A) :
  (∀ x, x ∈ l → ¬ P x) → filter P l = [].
Proof.
  induction l as [|x l IH]; intros Hno; [done|].
  rewrite filter_cons_False by (apply Hno; by left).
  apply IH. intros y Hy. apply Hno. by right.
Qed.

Lemma app_eq_self_nil {A} (l x : list A) : l ++ x = l → x = [].
Proof.
  intros H. apply (app_inv_head l). by rewrite app_nil_r.
Qed.

(** The attribute loop leaves the lists as they were exactly when every
    attribute of the original that is no namespace declaration has a
    counterpart with the same fields. *)
Lemma compareAttributes_critical (currentPath : gostring)
    (origAttrs marshaledAttrs : gmap gostring gostring)
    (seq : list (gostring * gostring)) (comp : DOMComparison) :
  rangeOf origAttrs seq →
  criticalIssues (foldl (compareAttribute currentPath marshaledAttrs) comp seq)
  = criticalIssues comp
  ↔ ∀ key value,
      origAttrs !! key = Some value →
      HasPrefix key (lit "xmlns") = false →
      ∃ value', marshaledAttrs !! key = Some value' ∧ Fields value = Fields value'.
Proof.
  intros Hrange.
  destruct (compareAttributes_lists currentPath marshaledAttrs seq comp) as [HA HV].
  assert (HE : MissingElements (foldl (compareAttribute currentPath marshaledAttrs) comp seq)
               = MissingElements comp).
  { by apply (compareAttributes_preserve
                (fun c => MissingElements c = MissingElements comp)). }
  unfold criticalIssues. rewrite HE, HA, HV. split.
  - intros [= EA EV] key value Hk Hx.
    apply app_eq_self_nil, fmap_nil_inv in EA.
    apply app_eq_self_nil, fmap_nil_inv in EV.
    assert (Hin : (key, value) ∈ seq) by (by apply (rangeOf_elem origAttrs seq)).
    destruct (marshaledAttrs !! key) as [value'|] eqn:Hm.
    + exists value'. split; [done|]. apply normalizeValue_eq_iff.
      destruct (decide (normalizeValue value = normalizeValue value')) as [|Hne]; [done|].
      exfalso.
      refine (filter_nil_not_elem_of _ _ (key, value) EV _ Hin).
      unfold recordsMismatch. cbn [fst snd]. rewrite Hx, Hm. cbn [negb andb].
      by apply bool_decide_eq_true_2.
    + exfalso.
      refine (filter_nil_not_elem_of _ _ (key, value) EA _ Hin).
      unfold recordsMissing. cbn [fst snd]. rewrite Hx, Hm. cbn [negb andb].
      by apply bool_decide_eq_true_2.
  - intros Hcond.
    rewrite (filter_none (fun kv => recordsMissing marshaledAttrs kv = true)),
            (filter_none (fun kv => recordsMismatch marshaledAttrs kv = true)).
    + by rewrite !fmap_nil, !app_nil_r.
    + intros [k v] Hin%(rangeOf_elem origAttrs seq); [|done].
      unfold recordsMismatch. cbn [fst snd].
      destruct (HasPrefix k (lit "xmlns")) eqn:Hx; [done|]. cbn [negb andb].
      destruct (Hcond k v Hin Hx) as (value' & -> & Hf%normalizeValue_eq_iff).
      by rewrite bool_decide_eq_false_2 by (intros Hne; by apply Hne).
    + intros [k v] Hin%(rangeOf_elem origAttrs seq); [|done].
      unfold recordsMissing. cbn [fst snd].
      destruct (HasPrefix k (lit "xmlns")) eqn:Hx; [done|]. cbn [negb andb].
      destruct (Hcond k v Hin Hx) as (value' & Hm & _).
      rewrite bool_decide_eq_false_2; [done|congruence].
Qed.

(** The text comparison leaves the lists as they were exactly when, for two
    elements without child elements, the text of the original holds no field
    or the same fields as that of the marshaled element. *)
Lemma compareText_critical (currentPath : gostring) (original marshaled : Element)
    (comp : DOMComparison) :
  criticalIssues (compareText currentPath original marshaled comp) = criticalIssues comp
  ↔ (etree.ChildElements original = [] → etree.ChildElements marshaled = [] →
     Fields (etree.Text original) = []
     ∨ Fields (etree.Text original) = Fields (etree.Text marshaled)).
Proof.
  unfold compareText.
  destruct (decide (etree.ChildElements original = [])) as [Ho|Ho].
  - destruct (decide (etree.ChildElements marshaled = [])) as [Hm|Hm].
    + rewrite Ho, Hm. cbn [length]. rewrite !bool_decide_eq_true_2 by done. cbn [andb].
      rewrite <- normalizeValue_nil_iff, <- normalizeValue_eq_iff.
      destruct (decide (normalizeValue (etree.Text original) = [])) as [Hnil|Hnil].
      { rewrite (bool_decide_eq_false_2 (normalizeValue (etree.Text original) ≠ []))
          by (intros Hne; by apply Hne).
        cbn [andb]. split; auto. }
      rewrite (bool_decide_eq_true_2 _ Hnil). cbn [andb].
      destruct (decide (normalizeValue (etree.Text original)
                        = normalizeValue (etree.Text marshaled))) as [Heq|Hne].
      { rewrite bool_decide_eq_false_2 by (intros Hne; by apply Hne). split; auto. }
      rewrite (bool_decide_eq_true_2 _ Hne). split.
      * intros [= EV]. apply app_eq_self_nil in EV. done.
      * intros Hcond. destruct (Hcond eq_refl eq_refl); done.
    + rewrite (bool_decide_eq_false_2 (length (etree.ChildElements marshaled) = 0%nat))
        by (destruct (etree.ChildElements marshaled); done).
      rewrite andb_false_r. split; [done|done].
  - rewrite (bool_decide_eq_false_2 (length (etree.ChildElements original) = 0%nat))
      by (destruct (etree.ChildElements original); done).
    cbn [andb]. split; [done|done].
Qed.

Section OracleCovers.

Context (rangeAttrs : gostring → gmap gostring gostring → list (gostring * gostring))
        (rangeTags : gostring → gset gostring → list gostring).

Hypothesis rangeAttrs_sound : ∀ p attrs, rangeOf attrs (rangeAttrs p attrs).
Hypothesis rangeTags_complete : ∀ p (tags : gset gostring) t, t ∈ tags → t ∈ rangeTags p tags.

Lemma compareFuel_grows fuel original marshaled path comp comp' :
  compareFuel rangeAttrs rangeTags fuel original marshaled path comp = Some comp' →
  issuesGrow comp comp'.
Proof using Type.
  intros Hrun.
  refine (compareFuel_preserves rangeAttrs rangeTags (issuesGrow comp)
            _ _ _ _ _ _ _ _ _ _ _ _ _ Hrun (issuesGrow_refl comp)); try done.
  - intros e c (? & ? & ?). repeat split; try done. cbn. by apply prefix_app_r.
  - intros e c (? & ? & ?). repeat split; try done. cbn. by apply prefix_app_r.
  - intros e c (? & ? & ?). repeat split; try done. cbn. by apply prefix_app_r.
Qed.

Section Children.

Variable recurse : option Element → option Element → gostring → DOMComparison
                   → option DOMComparison.
Hypothesis recurse_grows : ∀ o m p c r, recurse o m p c = Some r → issuesGrow c r.
Hypothesis recurse_missing :
  ∀ o p c r, recurse (Some o) None p c = Some r → criticalIssues r ≠ criticalIssues c.
Hypothesis recurse_extra :
  ∀ m p c r, recurse None (Some m) p c = Some r → criticalIssues r = criticalIssues c.
Hypothesis recurse_both :
  ∀ o m p c r, recurse (Some o) (Some m) p c = Some r →
    (criticalIssues r = criticalIssues c ↔ covers o m).

Local Abbreviation indexStep currentPath origList marshaledList :=
  (fun (acc : option DOMComparison) (i : nat) =>
     c ← acc;
     if bool_decide (is_Some (origList !! i)) || bool_decide (is_Some (marshaledList !! i))
     then recurse (origList !! i) (marshaledList !! i) (childPathOf currentPath i) c
     else Some c).

Lemma indexStep_grows (currentPath : gostring) (origList marshaledList : list Element)
    c0 i c' :
  indexStep currentPath origList marshaledList (Some c0) i = Some c' → issuesGrow c0 c'.
Proof using recurse_grows.
  cbn. destruct (_ || _); [apply recurse_grows|]. intros [= <-]. apply issuesGrow_refl.
Qed.

Lemma compareChildren_grows (currentPath : gostring) (origList marshaledList : list Element)
    c0 c' :
  compareChildren recurse currentPath origList marshaledList (Some c0) = Some c' →
  issuesGrow c0 c'.
Proof using recurse_grows.
  unfold compareChildren. intros Hr.
  refine (proj1 (foldl_issues_sandwich _ _ _ _ _ _ Hr)); [done|].
  intros c1 i c2. apply indexStep_grows.
Qed.

Lemma compareChildren_critical (currentPath : gostring)
    (origList marshaledList : list Element) c r :
  compareChildren recurse currentPath origList marshaledList (Some c) = Some r →
  criticalIssues r = criticalIssues c
  ↔ ∃ partners, partners `prefix_of` marshaledList ∧ Forall2 covers origList partners.
Proof using All.
  unfold compareChildren. intros Hr.
  destruct (foldl_issues_sandwich _ _ _ _ (fun _ => eq_refl)
              (indexStep_grows currentPath origList marshaledList) Hr) as [_ Hsand].
  split.
  - intros Hsame. specialize (Hsand Hsame).
    assert (Hlen : (length origList ≤ length marshaledList)%nat).
    { destruct (decide (length origList ≤ length marshaledList)%nat) as [|Hgt]; [done|].
      exfalso.
      destruct (Hsand _ _ _ (seq_split_at (Nat.max (length origList) (length marshaledList))
                               (length marshaledList) ltac:(lia)))
        as (c1 & c2 & _ & Hstep & E1 & E2).
      cbn in Hstep.
      destruct (lookup_lt_is_Some_2 origList (length marshaledList) ltac:(lia))
        as [child Hchild].
      rewrite Hchild, (lookup_ge_None_2 marshaledList (length marshaledList)) in Hstep
        by lia.
      rewrite (bool_decide_eq_true_2 (is_Some (Some child))) in Hstep by eauto.
      cbn [orb] in Hstep. apply recurse_missing in Hstep. congruence. }
    exists (take (length origList) marshaledList). split; [apply prefix_take|].
    apply Forall2_same_length_lookup_2; [rewrite length_take; lia|].
    intros i x y Hx Hy. apply lookup_take_Some in Hy as [Hy Hi].
    destruct (Hsand _ _ _ (seq_split_at (Nat.max (length origList) (length marshaledList))
                             i ltac:(lia)))
      as (c1 & c2 & _ & Hstep & E1 & E2).
    cbn in Hstep. rewrite Hx, Hy in Hstep.
    rewrite (bool_decide_eq_true_2 (is_Some (Some x))) in Hstep by eauto.
    cbn [orb] in Hstep. apply recurse_both in Hstep. apply Hstep. congruence.
  - intros (partners & Hpre & Hall). clear Hsand. revert Hr.
    generalize (seq 0 (Nat.max (length origList) (length marshaledList))).
    intros idx. revert c. induction idx as [|i idx IH]; intros c; cbn [foldl].
    + by intros [= <-].
    + cbn [mbind option_bind].
      destruct (if bool_decide (is_Some (origList !! i))
                   || bool_decide (is_Some (marshaledList !! i))
                then recurse (origList !! i) (marshaledList !! i)
                       (childPathOf currentPath i) c
                else Some c) as [c'|] eqn:Hstep.
      * intros Hr. rewrite (IH c' Hr).
        destruct (origList !! i) as [x|] eqn:Hx.
        -- destruct (Forall2_lookup_l _ _ _ _ _ Hall Hx) as (y & Hy & Hcov).
           rewrite (prefix_lookup_Some _ _ _ _ Hy Hpre) in Hstep.
           rewrite (bool_decide_eq_true_2 (is_Some (Some x))) in Hstep by eauto.
           cbn [orb] in Hstep. by apply (recurse_both _ _ _ _ _ Hstep).
        -- destruct (marshaledList !! i) as [y|] eqn:Hy.
           ++ rewrite (bool_decide_eq_false_2 (is_Some None)) in Hstep
                by (by intros [? ?]).
              rewrite (bool_decide_eq_true_2 (is_Some (Some y))) in Hstep by eauto.
              cbn [orb] in Hstep. by apply recurse_extra in Hstep.
           ++ rewrite (bool_decide_eq_false_2 (is_Some None)) in Hstep
                by (by intros [? ?]).
              cbn [orb] in Hstep. by injection Hstep as <-.
      * intros Hr. exfalso. revert Hr. clear.
        induction idx as [|j idx IH]; cbn [foldl]; [done|apply IH].
Qed.

Lemma compareTagGroups_grows (currentPath : gostring)
    (origChildren marshaledChildren : gmap gostring (list Element))
    (tags : list gostring) c r :
  compareTagGroups recurse currentPath origChildren marshaledChildren tags (Some c)
  = Some r →
  issuesGrow c r.
Proof using recurse_grows.
  unfold compareTagGroups. intros Hr.
  refine (proj1 (foldl_issues_sandwich _ _ _ _ _ _ Hr)).
  - intros tag. apply compareChildren_None.
  - intros c1 tag c2. apply compareChildren_grows.
Qed.

Lemma compareTagGroups_critical (currentPath : gostring)
    (origChildren marshaledChildren : gmap gostring (list Element))
    (tags : list gostring) c r :
  (∀ tag, is_Some (origChildren !! tag) → tag ∈ tags) →
  compareTagGroups recurse currentPath origChildren marshaledChildren tags (Some c)
  = Some r →
  criticalIssues r = criticalIssues c
  ↔ ∀ tag, ∃ partners,
      partners `prefix_of` default [] (marshaledChildren !! tag)
      ∧ Forall2 covers (default [] (origChildren !! tag)) partners.
Proof using All.
  unfold compareTagGroups. intros Htags Hr.
  destruct (foldl_issues_sandwich
              (fun acc tag => compareChildren recurse currentPath
                                (default [] (origChildren !! tag))
                                (default [] (marshaledChildren !! tag)) acc)
              tags c r
              (fun tag => compareChildren_None recurse currentPath _ _)
              (fun c1 tag c2 => compareChildren_grows currentPath _ _ c1 c2) Hr)
    as [_ Hsand].
  split.
  - intros Hsame tag. specialize (Hsand Hsame).
    destruct (origChildren !! tag) as [group|] eqn:Hgroup; last first.
    { exists []. split; [apply prefix_nil|constructor]. }
    destruct (list_elem_of_split tags tag) as (pre & post & Hsplit).
    { apply Htags. rewrite Hgroup. eauto. }
    destruct (Hsand _ _ _ Hsplit) as (c1 & c2 & _ & Hstep & E1 & E2).
    rewrite Hgroup in Hstep.
    apply (compareChildren_critical _ _ _ _ _ Hstep). congruence.
  - intros Hall. clear Hsand Htags. revert c Hr.
    induction tags as [|tag tags IH]; intros c; cbn [foldl].
    + by intros [= <-].
    + destruct (compareChildren recurse currentPath (default [] (origChildren !! tag))
                  (default [] (marshaledChildren !! tag)) (Some c)) as [c'|] eqn:Hstep.
      * intros Hr. rewrite (IH c' Hr).
        by apply (compareChildren_critical _ _ _ _ _ Hstep).
      * intros Hr. exfalso.
        change (compareTagGroups recurse currentPath origChildren marshaledChildren
                  tags None = Some r) in Hr.
        by rewrite compareTagGroups_None in Hr.
Qed.

End Children.

Lemma compareFuel_critical fuel (original marshaled : Element) path comp comp' :
  compareFuel rangeAttrs rangeTags fuel (Some original) (Some marshaled) path comp
  = Some comp' →
  criticalIssues comp' = criticalIssues comp ↔ covers original marshaled.
Proof using All.
  revert original marshaled path comp comp'.
  induction fuel as [|fuel IH]; intros original marshaled path comp comp'; [done|].
  cbn [compareFuel].
  set (currentPath := path ++ lit "/" ++ etree.Tag original).
  set (c1 := countAttributesMarshaled _ (countAttributesOriginal _ (countElements comp))).
  set (c2 := foldl _ c1 _).
  set (c3 := compareText currentPath original marshaled c2).
  intros Hr.
  assert (Hgrows : ∀ o m p c r, compareFuel rangeAttrs rangeTags fuel o m p c = Some r →
                     issuesGrow c r) by (intros o m p c r; apply compareFuel_grows).
  assert (Hmissing : ∀ o p c r,
            compareFuel rangeAttrs rangeTags fuel (Some o) None p c = Some r →
            criticalIssues r ≠ criticalIssues c).
  { intros o p c r. destruct fuel; [done|]. cbn [compareFuel]. intros [= <-] [= E].
    cbn in E. by apply app_eq_self_nil in E. }
  assert (Hextra : ∀ m p c r,
            compareFuel rangeAttrs rangeTags fuel None (Some m) p c = Some r →
            criticalIssues r = criticalIssues c).
  { intros m p c r. destruct fuel; [done|]. cbn [compareFuel]. by intros [= <-]. }
  assert (H01 : criticalIssues c1 = criticalIssues comp) by done.
  assert (G12 : issuesGrow c1 c2).
  { apply (compareAttributes_preserve (issuesGrow c1)); [| |apply issuesGrow_refl].
    - intros e c (? & ? & ?). repeat split; try done. cbn. by apply prefix_app_r.
    - intros e c (? & ? & ?). repeat split; try done. cbn. by apply prefix_app_r. }
  assert (G23 : issuesGrow c2 c3).
  { apply (compareText_preserves (issuesGrow c2)); [|apply issuesGrow_refl].
    intros e c (? & ? & ?). repeat split; try done. cbn. by apply prefix_app_r. }
  pose proof (compareTagGroups_grows _ Hgrows _ _ _ _ _ _ Hr) as G3r.
  assert (Hattr := compareAttributes_critical currentPath
                     (attrMap (etree.Attrs original)) (attrMap (etree.Attrs marshaled))
                     (rangeAttrs currentPath (attrMap (etree.Attrs original))) c1
                     (rangeAttrs_sound _ _)).
  fold c2 in Hattr.
  assert (Htext := compareText_critical currentPath original marshaled c2).
  fold c3 in Htext.
  assert (Hchildren := compareTagGroups_critical _ Hgrows Hmissing Hextra IH _ _ _ _ _ _
                         (fun tag Hsome =>
                            rangeTags_complete currentPath _ tag
                              (elem_of_union_l _ _ _ (proj2 (elem_of_dom _ _) Hsome)))
                         Hr).
  rewrite <- H01. split.
  - intros Hsame.
    destruct (issuesGrow_sandwich c1 c3 comp' (issuesGrow_trans _ _ _ G12 G23) G3r Hsame)
      as [S13 S3r].
    destruct (issuesGrow_sandwich c1 c2 c3 G12 G23 S13) as [S12 S23].
    constructor.
    + by apply Hattr.
    + by apply Htext.
    + intros tag. destruct (proj1 Hchildren S3r tag) as (partners & Hpre & Hall).
      rewrite !groupElementsByTag_default in Hpre, Hall. eauto.
  - inversion 1 as [o' m' Ha Ht Hc]; subst.
    transitivity (criticalIssues c3); [|transitivity (criticalIssues c2)].
    + apply Hchildren. intros tag. rewrite !groupElementsByTag_default. apply Hc.
    + by apply Htext.
    + by apply Hattr.
Qed.

(** X18.  What a report without critical issues means.  Suppose every
    [range] loop visits each entry of its map.  Then [CompareDOMTrees] on two
    elements leaves [MissingElements], [MissingAttributes] and
    [ValueMismatches] as they were exactly when the marshaled element covers
    the original: every attribute of the original whose key, as [etree]
    gives it, does not start with [xmlns] is present with the same fields,
    the texts of leaf elements hold the same fields (or the original holds
    none), and the children of the original are covered, tag by tag and in
    order, by the first children of the marshaled element.  The key is the
    part of the attribute name after the prefix: the exemption covers the
    default declaration [xmlns="..."], whose key is [xmlns], and not a
    prefixed declaration [xmlns:p="..."], whose key is [p] and which must
    therefore be present on the marshaled side like any other attribute. *)
Theorem CompareDOMTrees_clean_iff_covers
    (original marshaled : Element) (path : gostring) (comp : DOMComparison) :
  let result :=
    CompareDOMTrees rangeAttrs rangeTags (Some original) (Some marshaled) path comp in
  (MissingElements result = MissingElements comp
   ∧ MissingAttributes result = MissingAttributes comp
   ∧ ValueMismatches result = ValueMismatches comp
   ↔ covers original marshaled)
  ∧ (covers original marshaled →
     ∀ a, a ∈ etree.Attrs original →
          HasPrefix (etree.Key a) (lit "xmlns") = false →
          ∃ b, b ∈ etree.Attrs marshaled ∧ etree.Key b = etree.Key a).
Proof using All.
  intros result. split.
  - rewrite <- (compareFuel_critical _ _ _ _ _ _
                  (CompareDOMTrees_run rangeAttrs rangeTags (Some original)
                     (Some marshaled) path comp)).
    fold result. unfold criticalIssues. split.
    + by intros (-> & -> & ->).
    + by intros [= -> -> ->].
  - inversion 1 as [o' m' Hattrs _ _]; subst. intros a Hin Hx.
    destruct (proj2 (attrMap_is_Some (etree.Attrs original) (etree.Key a)))
      as [value Hvalue]; [eauto|].
    destruct (Hattrs _ _ Hvalue Hx) as (value' & Hm & _).
    apply (attrMap_is_Some (etree.Attrs marshaled) (etree.Key a)). eauto.
Qed.

End OracleCovers.

(** X18 on the sample documents. *)
Lemma CompareDOMTrees_clean_iff_covers_witness :
  let result :=
    CompareDOMTrees rangeAttrsCanonical rangeTagsCanonical
      (Some sampleOriginal) (Some sampleMarshaled) [] newComparison in
  (MissingElements result = MissingElements newComparison
   ∧ MissingAttributes result = MissingAttributes newComparison
   ∧ ValueMismatches result = ValueMismatches newComparison
   ↔ covers sampleOriginal sampleMarshaled)
  ∧ (covers sampleOriginal sampleMarshaled →
     ∀ a, a ∈ etree.Attrs sampleOriginal →
          HasPrefix (etree.Key a) (lit "xmlns") = false →
          ∃ b, b ∈ etree.Attrs sampleMarshaled ∧ etree.Key b = etree.Key a).
Proof.
  apply (CompareDOMTrees_clean_iff_covers rangeAttrsCanonical rangeTagsCanonical).
  - intros p attrs. unfold rangeOf, rangeAttrsCanonical. reflexivity.
  - intros p tags t Ht. unfold rangeTagsCanonical. by apply elem_of_elements.
Defined.

Section RoundTripCovers.

Context (rangeAttrs : gostring → gmap gostring gostring → list (gostring * gostring))
        (rangeTags : gostring → gset gostring → list gostring)
        (parseDocument : gostring → option (option Element))
        (validator : gostring → option gostring).

Hypothesis rangeAttrs_sound : ∀ p attrs, rangeOf attrs (rangeAttrs p attrs).
Hypothesis rangeTags_complete : ∀ p (tags : gset gostring) t, t ∈ tags → t ∈ rangeTags p tags.

Lemma CompareDOMTrees_roots_critical (original marshaled : option Element)
    (path : gostring) (comp : DOMComparison) :
  criticalIssues (CompareDOMTrees rangeAttrs rangeTags original marshaled path comp)
  = criticalIssues comp
  ↔ coversRoot original marshaled.
Proof using All.
  pose proof (CompareDOMTrees_equation rangeAttrs rangeTags original marshaled path comp)
    as Heq.
  destruct original as [o|], marshaled as [m|]; cbn [coversRoot].
  - clear Heq.
    apply (compareFuel_critical rangeAttrs rangeTags rangeAttrs_sound rangeTags_complete
             _ _ _ _ _ _
             (CompareDOMTrees_run rangeAttrs rangeTags (Some o) (Some m) path comp)).
  - rewrite Heq. split; [|done]. intros [= E]. cbn in E. by apply app_eq_self_nil in E.
  - by rewrite Heq.
  - by rewrite Heq.
Qed.

(** X19.  What [Success] means.  Suppose every [range] loop visits each
    entry of its map.  A round-trip run from bytes ends with [Success] set
    exactly when the original parses, the validator returns bytes for it,
    these bytes parse and are accepted by the validator in turn, and the
    root of the marshaled document covers the root of the original. *)
Theorem PerformRoundTripValidationFromData_success_iff (originalXML : gostring) :
  Success (PerformRoundTripValidationFromData rangeAttrs rangeTags parseDocument
             validator originalXML) = true
  ↔ ∃ originalRoot marshaledXML marshaledRoot again,
      parseDocument originalXML = Some originalRoot
      ∧ validator originalXML = Some marshaledXML
      ∧ parseDocument marshaledXML = Some marshaledRoot
      ∧ validator marshaledXML = Some again
      ∧ coversRoot originalRoot marshaledRoot.
Proof using All.
  rewrite (fromData_success rangeAttrs rangeTags parseDocument validator originalXML).
  unfold roundTripReparseable. split.
  - intros (HE & HA & HV & originalRoot & marshaledXML & marshaledRoot & again
            & Hp & Hv & Hp' & Hv').
    exists originalRoot, marshaledXML, marshaledRoot, again. repeat split; try done.
    revert HE HA HV. unfold PerformRoundTripValidationFromData.
    rewrite Hp, Hv, Hp', Hv'.
    destruct (CompareDOMTrees_flags rangeAttrs rangeTags originalRoot marshaledRoot []
                newComparison) as [Hsucc _].
    destruct (setSuccessFromIssues_spec _ Hsucc) as (-> & -> & -> & _).
    intros HE HA HV.
    apply (CompareDOMTrees_roots_critical originalRoot marshaledRoot [] newComparison).
    unfold criticalIssues. by rewrite HE, HA, HV.
  - intros (originalRoot & marshaledXML & marshaledRoot & again
            & Hp & Hv & Hp' & Hv' & Hcov).
    apply (CompareDOMTrees_roots_critical originalRoot marshaledRoot [] newComparison)
      in Hcov.
    unfold criticalIssues in Hcov. injection Hcov as HE HA HV.
    unfold PerformRoundTripValidationFromData. rewrite Hp, Hv, Hp', Hv'.
    destruct (CompareDOMTrees_flags rangeAttrs rangeTags originalRoot marshaledRoot []
                newComparison) as [Hsucc _].
    destruct (setSuccessFromIssues_spec _ Hsucc) as (-> & -> & -> & _).
    rewrite HE, HA, HV. repeat split; try done. eauto 10.
Qed.

End RoundTripCovers.

(** X19 on the sample pipeline, whose output gains an element. *)
Lemma PerformRoundTripValidationFromData_success_iff_witness :
  Success (PerformRoundTripValidationFromData rangeAttrsCanonical rangeTagsCanonical
             sampleParse sampleValidator (lit "<a/>")) = true
  ↔ ∃ originalRoot marshaledXML marshaledRoot again,
      sampleParse (lit "<a/>") = Some originalRoot
      ∧ sampleValidator (lit "<a/>") = Some marshaledXML
      ∧ sampleParse marshaledXML = Some marshaledRoot
      ∧ sampleValidator marshaledXML = Some again
      ∧ coversRoot originalRoot marshaledRoot.
Proof.
  apply (PerformRoundTripValidationFromData_success_iff rangeAttrsCanonical
           rangeTagsCanonical sampleParse sampleValidator).
  - intros p attrs. unfold rangeOf, rangeAttrsCanonical. reflexivity.
  - intros p tags t Ht. unfold rangeTagsCanonical. by apply elem_of_elements.
Defined.

(** *** Attribute maps and paths *)

(** X20.  The attribute maps of the oracle are keyed by the local key alone.
    When several attributes of an element have the same key (in different
    name spaces), the map holds the value of the last of them only, so the
    comparison never looks at the earlier ones; a key is in the map exactly
    when some attribute bears it, and the map has at most as many entries as
    the element has attributes. *)
Theorem attrMap_last_wins (attrs : list etree.Attr) (key : gostring) :
  attrMap attrs !! key
  = etree.Value <$> last (filter (fun a => etree.Key a = key) attrs)
  ∧ (is_Some (attrMap attrs !! key) ↔ ∃ a, a ∈ attrs ∧ etree.Key a = key)
  ∧ (size (attrMap attrs) ≤ length attrs)%nat.
Proof.
  split; [apply attrMap_lookup_last|]. split; [apply attrMap_is_Some|].
  unfold attrMap.
  assert (H : ∀ (l : list etree.Attr) (m : gmap gostring gostring),
            (size (foldl (fun m a => <[etree.Key a := etree.Value a]> m) m l)
             ≤ size m + length l)%nat).
  { induction l as [|a l IH]; intros m; cbn [foldl length]; [lia|].
    etrans; [apply IH|].
    destruct (m !! etree.Key a) eqn:E.
    - rewrite map_size_insert_Some by done. lia.
    - rewrite map_size_insert_None by done. lia. }
  specialize (H attrs ∅). rewrite map_size_empty in H. exact H.
Qed.

Lemma collectPaths_eq (elem : Element) (parentPath : gostring) :
  collectPaths elem parentPath
  = let currentPath := parentPath ++ lit "/" ++ etree.Tag elem in
    (currentPath
       :: ((fun a => currentPath ++ lit "@" ++ etree.Key a)
             <$> filter (fun a => HasPrefix (etree.Key a) (lit "xmlns") = false)
                        (etree.Attrs elem)))
    ++ (etree.ChildElements elem ≫= fun child => collectPaths child currentPath).
Proof.
  destruct elem as [tag attrs text children].
  cbn [collectPaths etree.Tag etree.Attrs etree.ChildElements]. cbn zeta.
  set (currentPath := parentPath ++ lit "/" ++ tag).
  assert (Hattrs : ∀ (l : list etree.Attr) (init : list gostring),
            foldl (fun paths attr =>
                     if negb (HasPrefix (etree.Key attr) (lit "xmlns"))
                     then paths ++ [currentPath ++ lit "@" ++ etree.Key attr]
                     else paths) init l
            = init ++ ((fun a => currentPath ++ lit "@" ++ etree.Key a)
                         <$> filter (fun a => HasPrefix (etree.Key a) (lit "xmlns") = false)
                                    l)).
  { induction l as [|a l IH]; intros init; cbn [foldl].
    - by rewrite app_nil_r.
    - rewrite IH. destruct (HasPrefix (etree.Key a) (lit "xmlns")) eqn:E; cbn [negb].
      + by rewrite filter_cons_False by (rewrite E; discriminate).
      + rewrite filter_cons_True by done. by rewrite fmap_cons, <- app_assoc. }
  assert (Hchildren : ∀ (l : list Element) (init : list gostring),
            foldl (fun paths child => paths ++ collectPaths child currentPath) init l
            = init ++ (l ≫= fun child => collectPaths child currentPath)).
  { induction l as [|c l IH]; intros init; cbn [foldl].
    - by rewrite app_nil_r.
    - rewrite IH. cbn [mbind list_bind]. by rewrite <- app_assoc. }
  by rewrite Hchildren, Hattrs.
Qed.

Lemma collectPaths_elem (elem : Element) (parentPath path : gostring) :
  path ∈ collectPaths elem parentPath
  ↔ path = parentPath ++ lit "/" ++ etree.Tag elem
    ∨ (∃ a, a ∈ etree.Attrs elem
            ∧ HasPrefix (etree.Key a) (lit "xmlns") = false
            ∧ path = (parentPath ++ lit "/" ++ etree.Tag elem) ++ lit "@" ++ etree.Key a)
    ∨ (∃ child, child ∈ etree.ChildElements elem
                ∧ path ∈ collectPaths child (parentPath ++ lit "/" ++ etree.Tag elem)).
Proof.
  rewrite collectPaths_eq. cbn zeta.
  rewrite elem_of_app, elem_of_cons, list_elem_of_fmap, list_elem_of_bind.
  split.
  - intros [[?|(a & -> & [Hx Hin]%list_elem_of_filter)]|(child & Hp & Hin)]; eauto 10.
  - intros [?|[(a & Hin & Hx & ->)|(child & Hin & Hp)]]; eauto 10.
    left. right. exists a. split; [done|]. by apply list_elem_of_filter.
Qed.

Lemma covers_collectPaths (n : nat) :
  ∀ (original marshaled : Element) (parentPath path : gostring),
    (height original < n)%nat →
    etree.Tag original = etree.Tag marshaled →
    covers original marshaled →
    path ∈ collectPaths original parentPath →
    path ∈ collectPaths marshaled parentPath.
Proof.
  induction n as [|n IH]; intros original marshaled parentPath path Hn Htag Hcov; [lia|].
  inversion Hcov as [o' m' Hattrs _ Hchildren]; subst.
  rewrite !collectPaths_elem, <- Htag.
  intros [->|[(a & Hin & Hx & ->)|(child & Hin & Hp)]].
  - by left.
  - right. left.
    destruct (proj2 (attrMap_is_Some (etree.Attrs original) (etree.Key a)))
      as [value Hvalue]; [eauto|].
    destruct (Hattrs _ _ Hvalue Hx) as (value' & Hm & _).
    destruct (proj1 (attrMap_is_Some (etree.Attrs marshaled) (etree.Key a)))
      as (a' & Hin' & Hk); [eauto|].
    exists a'. split; [done|]. by rewrite Hk.
  - right. right.
    destruct (Hchildren (etree.Tag child)) as (partners & Hpre & Hall).
    assert (Hc : child ∈ filter (fun c => etree.Tag c = etree.Tag child)
                          (etree.ChildElements original))
      by (by apply list_elem_of_filter).
    apply list_elem_of_lookup_1 in Hc as [i Hi].
    destruct (Forall2_lookup_l _ _ _ _ _ Hall Hi) as (partner & Hpartner & Hcp).
    pose proof (prefix_lookup_Some _ _ _ _ Hpartner Hpre) as Hm.
    apply list_elem_of_lookup_2, list_elem_of_filter in Hm as [Htag' Hm].
    exists partner. split; [done|].
    apply (IH child partner); try done.
    pose proof (height_child original child Hin). lia.
Qed.

Section OracleCoverage.

Context (rangeAttrs : gostring → gmap gostring gostring → list (gostring * gostring))
        (rangeTags : gostring → gset gostring → list gostring).

Hypothesis rangeAttrs_sound : ∀ p attrs, rangeOf attrs (rangeAttrs p attrs).
Hypothesis rangeTags_complete : ∀ p (tags : gset gostring) t, t ∈ tags → t ∈ rangeTags p tags.

(** X21.  A clean comparison implies full path coverage.  Suppose every
    [range] loop visits each entry of its map.  If two elements have the same
    tag and [CompareDOMTrees] adds nothing to [MissingElements],
    [MissingAttributes] and [ValueMismatches] for them, then every path
    [CollectAllPaths] collects from the original is also collected from the
    marshaled element under the same parent path. *)
Theorem CompareDOMTrees_clean_covers_paths
    (original marshaled : Element) (path parentPath : gostring) (comp : DOMComparison) :
  etree.Tag original = etree.Tag marshaled →
  let result :=
    CompareDOMTrees rangeAttrs rangeTags (Some original) (Some marshaled) path comp in
  MissingElements result = MissingElements comp →
  MissingAttributes result = MissingAttributes comp →
  ValueMismatches result = ValueMismatches comp →
  ∀ p, p ∈ CollectAllPaths (Some original) parentPath →
       p ∈ CollectAllPaths (Some marshaled) parentPath.
Proof using All.
  intros Htag result HE HA HV p. cbn [CollectAllPaths].
  apply (covers_collectPaths (S (height original))); [lia|done|].
  apply (compareFuel_critical rangeAttrs rangeTags rangeAttrs_sound rangeTags_complete
           _ _ _ _ _ _
           (CompareDOMTrees_run rangeAttrs rangeTags (Some original) (Some marshaled)
              path comp)).
  fold result. unfold criticalIssues. by rewrite HE, HA, HV.
Qed.

End OracleCoverage.

(** X22.  [CollectAllPaths] does not number repeated siblings: when two
    children of an element have the same tag, the path of that tag occurs
    more than once in the result, so the collected paths are not pairwise
    distinct. *)
Theorem CollectAllPaths_repeated_tag
    (elem : Element) (parentPath : gostring) (i j : nat) (child1 child2 : Element) :
  etree.ChildElements elem !! i = Some child1 →
  etree.ChildElements elem !! j = Some child2 →
  i ≠ j →
  etree.Tag child1 = etree.Tag child2 →
  ¬ NoDup (CollectAllPaths (Some elem) parentPath).
Proof.
  assert (Hlt : ∀ (i j : nat) (child1 child2 : Element),
            etree.ChildElements elem !! i = Some child1 →
            etree.ChildElements elem !! j = Some child2 →
            (i < j)%nat →
            etree.Tag child1 = etree.Tag child2 →
            ¬ NoDup (CollectAllPaths (Some elem) parentPath)).
  { clear. intros i j child1 child2 Hi Hj Hij Htag. cbn [CollectAllPaths].
    rewrite collectPaths_eq. cbn zeta.
    set (currentPath := parentPath ++ lit "/" ++ etree.Tag elem).
    intros [_ [_ Hnd]]%NoDup_app. revert Hnd.
    rewrite <- (take_drop_middle _ _ _ Hi), bind_app, bind_cons.
    intros [_ [_ [_ [Hdisj _]]%NoDup_app]]%NoDup_app.
    apply (Hdisj (currentPath ++ lit "/" ++ etree.Tag child1)).
    - apply collectPaths_elem. by left.
    - apply list_elem_of_bind. exists child2. split.
      + apply collectPaths_elem. left. by rewrite Htag.
      + apply list_elem_of_lookup. exists (j - S i)%nat.
        rewrite lookup_drop. rewrite <- Hj. f_equal. lia. }
  intros Hi Hj Hne Htag.
  destruct (decide (i < j)%nat).
  - by apply (Hlt i j child1 child2).
  - apply (Hlt j i child2 child1); try done. lia.
Qed.

(** X21 on two documents that differ in formatting and in an extra child:
    the path of the child [b]. *)
Lemma CompareDOMTrees_clean_covers_paths_witness :
  lit "/a/b"
  ∈ CollectAllPaths
      (Some (etree.mkElement (lit "a") [etree.mkAttr [] (lit "id") (lit "7")] []
               [etree.mkElement (lit "b") [] (lit "x y") [];
                etree.mkElement (lit "c") [] [] []])) [].
Proof.
  apply (CompareDOMTrees_clean_covers_paths rangeAttrsCanonical rangeTagsCanonical
           (fun p attrs => reflexivity (map_to_list attrs))
           (fun p tags t Ht => proj2 (elem_of_elements tags t) Ht)
           (etree.mkElement (lit "a") [etree.mkAttr [] (lit "id") (lit " 7 ")] []
              [etree.mkElement (lit "b") [] (lit "x  y") []])
           (etree.mkElement (lit "a") [etree.mkAttr [] (lit "id") (lit "7")] []
              [etree.mkElement (lit "b") [] (lit "x y") [];
               etree.mkElement (lit "c") [] [] []])
           [] [] newComparison).
  - reflexivity.
  - vm_compute. reflexivity.
  - vm_compute. reflexivity.
  - vm_compute. reflexivity.
  - apply (bool_decide_unpack _). vm_compute. exact I.
Defined.

(** X22 on an element with two children [b]. *)
Lemma CollectAllPaths_repeated_tag_witness :
  ¬ NoDup (CollectAllPaths
             (Some (etree.mkElement (lit "a") [] []
                      [etree.mkElement (lit "b") [] (lit "1") [];
                       etree.mkElement (lit "b") [] (lit "2") []])) []).
Proof.
  apply (CollectAllPaths_repeated_tag _ [] 0 1
           (etree.mkElement (lit "b") [] (lit "1") [])
           (etree.mkElement (lit "b") [] (lit "2") [])).
  - reflexivity.
  - reflexivity.
  - lia.
  - reflexivity.
Defined.

(** *** [normalizeValue] as a normal form *)

Lemma fieldsFrom_nil_iff cur s :
  fieldsFrom cur s = [] ↔ cur = [] ∧ Forall (fun r => isSpace r = true) s.
Proof.
  revert cur. induction s as [|c s IH]; intros cur; cbn [fieldsFrom].
  - destruct cur; cbn; split; try done; intros [? _]; done.
  - destruct (isSpace c) eqn:Hc.
    + rewrite app_nil, IH. split.
      * intros (Hcur & _ & Hs). destruct cur; [|done]. split; [done|by constructor].
      * intros (-> & Hall). apply Forall_cons in Hall as [_ Hall]. done.
    + rewrite IH. split; [by intros [? _]|].
      intros (_ & Hall). apply Forall_cons in Hall as [Hc' _]. congruence.
Qed.

(** X23.  [normalizeValue] computes a normal form.  Its result is the
    white-space separated fields of the input joined by single spaces;
    normalizing again changes nothing; the result holds the same fields as
    the input; and it is empty exactly when the input consists of white
    space only. *)
Theorem normalizeValue_normal_form (s : gostring) :
  normalizeValue s = Join (Fields s) [32]
  ∧ Forall isWord (Fields s)
  ∧ normalizeValue (normalizeValue s) = normalizeValue s
  ∧ Fields (normalizeValue s) = Fields s
  ∧ (normalizeValue s = [] ↔ Forall (fun r => isSpace r = true) s).
Proof.
  assert (Hf : Fields (normalizeValue s) = Fields s).
  { rewrite normalizeValue_Fields. apply Fields_Join, Fields_words. }
  split; [apply normalizeValue_Fields|]. split; [apply Fields_words|].
  split; [|split; [done|]].
  - rewrite (normalizeValue_Fields (normalizeValue s)), Hf.
    by rewrite normalizeValue_Fields.
  - rewrite normalizeValue_nil_iff. unfold Fields. rewrite fieldsFrom_nil_iff.
    split; [by intros [_ ?]|done].
Qed.

(** *** Namespace information and versions from package directories *)

(** X24.  [deriveNamespaceInfo] returns namespace information exactly for a
    directory of at least four components in which the first component
    [ddex] is followed by one of the families [ern], [mead], [pie] and by a
    further component, the version.  The namespace is
    [http://ddex.net/xml/<family>/<version without a leading v>], the prefix
    is the family, and the schema file is that of the family.  In
    particular the relative directory [ddex/ern/v43], of three components,
    gets none. *)
Theorem deriveNamespaceInfo_spec
    (checkAVSImport : gostring → gostring → gostring → bool)
    (parts : list gostring) (info : NamespaceInfo) :
  deriveNamespaceInfo checkAVSImport parts = Some info
  ↔ (4 ≤ length parts)%nat
    ∧ ∃ pre family version post schemaFile,
        parts = pre ++ lit "ddex" :: family :: version :: post
        ∧ (lit "ddex" ∉ pre)
        ∧ (family, schemaFile)
            ∈ [(lit "ern", lit "release-notification.xsd");
               (lit "mead", lit "media-enrichment-and-description.xsd");
               (lit "pie", lit "party-identification-and-enrichment.xsd")]
        ∧ info = mkNamespaceInfo
                   (lit "http://ddex.net/xml/" ++ family ++ lit "/"
                      ++ TrimPrefix version (lit "v"))
                   family schemaFile
                   (checkAVSImport family (TrimPrefix version (lit "v")) schemaFile).
Proof.
  unfold deriveNamespaceInfo. split.
  - case_bool_decide as Hlen; [done|].
    destruct (list_find _ parts) as [[i x]|] eqn:Hfind; [|done].
    apply list_find_Some in Hfind as (Hi & -> & Hfirst).
    case_bool_decide as Hlen2; [done|].
    destruct (lookup_lt_is_Some_2 parts (i + 1)%nat) as [family Hfamily]; [lia|].
    destruct (lookup_lt_is_Some_2 parts (i + 2)%nat) as [version Hversion]; [lia|].
    rewrite Hfamily, Hversion. cbn [default]. unfold id.
    intros Hinfo. split; [lia|].
    exists (take i parts), family, version, (drop (i + 3)%nat parts).
    assert (Hparts : parts = take i parts ++ lit "ddex" :: family :: version
                               :: drop (i + 3)%nat parts).
    { rewrite <- (take_drop i parts) at 1. f_equal.
      replace (i + 1)%nat with (S i) in Hfamily by lia.
      replace (i + 2)%nat with (S (S i)) in Hversion by lia.
      replace (i + 3)%nat with (S (S (S i))) by lia.
      by rewrite (drop_S _ _ _ Hi), (drop_S _ _ _ Hfamily), (drop_S _ _ _ Hversion). }
    assert (Hpre : lit "ddex" ∉ take i parts).
    { intros [j Hj]%list_elem_of_lookup_1.
      apply lookup_take_Some in Hj as [Hj Hji]. by apply (Hfirst j _ Hj Hji). }
    revert Hinfo. repeat case_bool_decide; try done; subst family; intros [= <-].
    + exists (lit "release-notification.xsd"). repeat split; try done. set_solver.
    + exists (lit "media-enrichment-and-description.xsd").
      repeat split; try done. set_solver.
    + exists (lit "party-identification-and-enrichment.xsd").
      repeat split; try done. set_solver.
  - intros (Hlen & pre & family & version & post & schemaFile & -> & Hpre & Hfam & ->).
    rewrite bool_decide_eq_false_2 by lia.
    assert (Hfind : list_find (fun part => part = lit "ddex")
                      (pre ++ lit "ddex" :: family :: version :: post)
                    = Some (length pre, lit "ddex")).
    { apply list_find_Some. split; [|split; [done|]].
      - by apply list_lookup_middle.
      - intros j y Hj Hlt ->. apply Hpre.
        rewrite lookup_app_l in Hj by done. by eapply list_elem_of_lookup_2. }
    rewrite Hfind, !length_app. cbn [length].
    rewrite bool_decide_eq_false_2 by lia.
    rewrite !lookup_app_r by lia.
    replace (length pre + 1 - length pre)%nat with 1%nat by lia.
    replace (length pre + 2 - length pre)%nat with 2%nat by lia.
    cbn [lookup list_lookup default]. unfold id.
    repeat (apply elem_of_cons in Hfam as [[= -> ->]|Hfam]; [reflexivity|]).
    by apply elem_of_nil in Hfam.
Qed.

(** X25.  The version in a registry key is the first component of the
    package directory that starts with [v] and is longer than one rune,
    wherever it stands in the path, and the empty string when there is none;
    a bare [v] is never returned. *)
Theorem extractVersionFromPath_first_match (parts : list gostring) :
  let isVersion part := lit "v" `prefix_of` part ∧ (1 < length part)%nat in
  (extractVersionFromPath parts = [] ∧ Forall (fun part => ¬ isVersion part) parts)
  ∨ (∃ pre post,
       parts = pre ++ extractVersionFromPath parts :: post
       ∧ isVersion (extractVersionFromPath parts)
       ∧ Forall (fun part => ¬ isVersion part) pre).
Proof.
  intros isVersion.
  induction parts as [|part parts IH]; cbn [extractVersionFromPath].
  - left. by split.
  - destruct (HasPrefix part (lit "v") && bool_decide (1 < length part)%nat) eqn:E.
    + right. exists [], parts.
      apply andb_true_iff in E as [Hp%HasPrefix_true Hl%bool_decide_eq_true].
      by repeat split.
    + assert (Hno : ¬ isVersion part).
      { intros [Hp%HasPrefix_true Hl]. rewrite Hp in E. cbn [andb] in E.
        by apply bool_decide_eq_false in E. }
      destruct IH as [[Hnil Hall]|(pre & post & Hparts & Hv & Hpre)].
      * left. split; [done|by constructor].
      * right. exists (part :: pre), post. split; [by rewrite Hparts at 1|].
        split; [done|by constructor].
Qed.

(** X26.  The contents of the generated registry.  Every entry stands for a
    root message of one of the collected packages: its key is
    [prefix/version/name] with the namespace prefix of the package and the
    version extracted from its directory, its type is the message type of
    that package and its namespace the namespace of the package.  Every root
    message of every package has an entry under that key; message types that
    are not root messages have none. *)
Theorem generatedRegistry_entries (packages : list PackageInfo) :
  (∀ key info,
     generatedRegistry packages !! key = Some info →
     ∃ pkg, pkg ∈ packages
       ∧ RootElement info ∈ Messages pkg
       ∧ isRootMessage (RootElement info) = true
       ∧ key = registryKey (NamespacePrefix (PackageNamespace pkg))
                 (extractVersionFromPath (Dir pkg)) (RootElement info)
       ∧ Type_ info = PackageName pkg ++ lit "." ++ RootElement info
       ∧ Namespace info = InfoNamespace (PackageNamespace pkg))
  ∧ (∀ pkg msg,
       pkg ∈ packages → msg ∈ Messages pkg → isRootMessage msg = true →
       is_Some (generatedRegistry packages
                  !! registryKey (NamespacePrefix (PackageNamespace pkg))
                       (extractVersionFromPath (Dir pkg)) msg)).
Proof.
  split.
  - intros key info (pkg & Hpkg & Hentry)%generatedRegistry_elem.
    exists pkg. split; [done|].
    unfold registryEntries in Hentry.
    apply list_elem_of_fmap in Hentry as (msg & [= -> ->] & [Hroot Hmsg]%list_elem_of_filter).
    done.
  - intros pkg msg Hpkg Hmsg Hroot. unfold generatedRegistry.
    apply not_eq_None_Some. intros Hnone%not_elem_of_list_to_map. apply Hnone.
    apply list_elem_of_fmap.
    exists (registryKey (NamespacePrefix (PackageNamespace pkg))
              (extractVersionFromPath (Dir pkg)) msg,
            mkInfo (PackageName pkg ++ lit "." ++ msg)
                   (InfoNamespace (PackageNamespace pkg)) msg).
    split; [done|]. apply list_elem_of_bind. exists pkg. split; [|done].
    unfold registryEntries. apply list_elem_of_fmap. exists msg. split; [done|].
    by apply list_elem_of_filter.
Qed.

(** *** The counters of the report *)

Lemma incremented_add n m x : incremented (n + m) x = incremented m (incremented n x).
Proof.
  unfold incremented. rewrite Nat.add_comm. apply Nat.iter_add.
Qed.

Lemma counted_refl c : counted 0 0 c c.
Proof. by repeat split. Qed.

Lemma counted_trans e1 a1 e2 a2 c1 c2 c3 :
  counted e1 a1 c1 c2 → counted e2 a2 c2 c3 → counted (e1 + e2) (a1 + a2) c1 c3.
Proof.
  intros (H1 & H2 & H3 & H4) (H5 & H6 & H7 & H8).
  unfold counted. rewrite !incremented_add, H5, H6, H7, H8, H1, H2, H3, H4. done.
Qed.

Lemma countElems_eq (e : Element) :
  countElems e = S (sum_list_with countElems (etree.ChildElements e)).
Proof.
  destruct e as [tag attrs text children]. reflexivity.
Qed.

Lemma countAttrs_eq (e : Element) :
  countAttrs e
  = (length (etree.Attrs e) + sum_list_with countAttrs (etree.ChildElements e))%nat.
Proof.
  destruct e as [tag attrs text children]. reflexivity.
Qed.

(** Summing over the groups of all tags is summing over the elements. *)
Lemma sum_groups (f : Element → nat) (tags : list gostring) (l : list Element) :
  NoDup tags →
  (∀ c, c ∈ l → etree.Tag c ∈ tags) →
  sum_list_with (fun t => sum_list_with f (filter (fun c => etree.Tag c = t) l)) tags
  = sum_list_with f l.
Proof.
  intros Hnd. induction l as [|x l IH]; intros Hin.
  - clear Hnd Hin. induction tags as [|t tags IHt]; [done|]. cbn [sum_list_with].
    by rewrite IHt.
  - cbn [sum_list_with]. rewrite <- IH by (intros c Hc; apply Hin; by right).
    assert (Hx : etree.Tag x ∈ tags) by (apply Hin; by left).
    clear IH Hin. revert Hnd Hx.
    induction tags as [|t tags IHt]; intros Hnd Hx; [by apply elem_of_nil in Hx|].
    apply NoDup_cons in Hnd as [Ht Hnd]. cbn [sum_list_with].
    destruct (decide (etree.Tag x = t)) as [Heq|Hne].
    + rewrite filter_cons_True by done. cbn [sum_list_with].
      assert (Hrest : sum_list_with
                (fun t0 => sum_list_with f (filter (fun c => etree.Tag c = t0) (x :: l)))
                tags
              = sum_list_with
                  (fun t0 => sum_list_with f (filter (fun c => etree.Tag c = t0) l)) tags).
      { clear IHt Hnd Hx. induction tags as [|t' tags IH']; [done|].
        cbn [sum_list_with].
        rewrite filter_cons_False by (intros E; apply Ht; rewrite <- Heq, E; by left).
        rewrite IH'; [done|]. intros Hin. apply Ht. by right. }
      rewrite Hrest. lia.
    + rewrite filter_cons_False by done.
      apply elem_of_cons in Hx as [Hx|Hx]; [done|].
      rewrite (IHt Hnd Hx). lia.
Qed.

Section OracleCounters.

Context (rangeAttrs : gostring → gmap gostring gostring → list (gostring * gostring))
        (rangeTags : gostring → gset gostring → list gostring).

Hypothesis rangeAttrs_sound : ∀ p attrs, rangeOf attrs (rangeAttrs p attrs).
Hypothesis rangeTags_exact : ∀ p (tags : gset gostring), rangeTags p tags ≡ₚ elements tags.

Lemma compareChildren_counted
    (recurse : option Element → option Element → gostring → DOMComparison
               → option DOMComparison)
    (currentPath : gostring) (l : list Element) c r :
  (∀ child path x x', recurse (Some child) (Some child) path x = Some x' →
     counted (countElems child) (countAttrs child) x x') →
  compareChildren recurse currentPath l l (Some c) = Some r →
  counted (sum_list_with countElems l) (sum_list_with countAttrs l) c r.
Proof using Type.
  intros Hrec. unfold compareChildren. rewrite Nat.max_id.
  assert (H : ∀ n k c0,
            (k + n = length l)%nat →
            foldl (fun acc i =>
                     c ← acc;
                     if bool_decide (is_Some (l !! i)) || bool_decide (is_Some (l !! i))
                     then recurse (l !! i) (l !! i) (childPathOf currentPath i) c
                     else Some c) (Some c0) (seq k n) = Some r →
            counted (sum_list_with countElems (drop k l))
                    (sum_list_with countAttrs (drop k l)) c0 r).
  { induction n as [|n IH]; intros k c0 Hk; cbn [seq foldl].
    - intros [= <-]. rewrite drop_ge by lia. apply counted_refl.
    - destruct (lookup_lt_is_Some_2 l k) as [child Hchild]; [lia|].
      cbn [mbind option_bind]. rewrite Hchild.
      rewrite (bool_decide_eq_true_2 (is_Some (Some child))) by eauto. cbn [orb].
      destruct (recurse (Some child) (Some child) (childPathOf currentPath k) c0)
        as [c1|] eqn:Hcall.
      + intros Hr. rewrite (drop_S _ _ _ Hchild). cbn [sum_list_with].
        eapply counted_trans; [by eapply Hrec|]. apply IH; [lia|done].
      + intros Hr. exfalso. revert Hr. clear.
        generalize (seq (S k) n). intros idx.
        induction idx as [|j idx IH]; cbn [foldl]; [done|apply IH]. }
  intros Hr. apply (H (length l) 0%nat c); [lia|done].
Qed.

Lemma compareFuel_counted fuel (e : Element) path comp comp' :
  compareFuel rangeAttrs rangeTags fuel (Some e) (Some e) path comp = Some comp' →
  counted (countElems e) (countAttrs e) comp comp'.
Proof using All.
  revert e path comp comp'. induction fuel as [|fuel IH]; intros e path comp comp'; [done|].
  cbn [compareFuel].
  rewrite compareAttribute_same; last first.
  { intros [k v] Hin. by apply (rangeOf_elem _ _ _ _ (rangeAttrs_sound _ _)) in Hin. }
  rewrite compareText_same.
  set (currentPath := path ++ lit "/" ++ etree.Tag e).
  set (c1 := countAttributesMarshaled _ _).
  assert (H1 : counted 1 (length (etree.Attrs e)) comp c1) by (by repeat split).
  set (group := groupElementsByTag (etree.ChildElements e)).
  rewrite (union_idemp_L (dom group)).
  pose proof (rangeTags_exact currentPath (dom group)) as Hperm.
  assert (Hnd : NoDup (rangeTags currentPath (dom group)))
    by (rewrite Hperm; apply NoDup_elements).
  assert (Hall : ∀ c, c ∈ etree.ChildElements e →
                      etree.Tag c ∈ rangeTags currentPath (dom group)).
  { intros c Hc. rewrite Hperm. apply elem_of_elements, groupElementsByTag_dom.
    intros Hnil. apply (filter_nil_not_elem_of _ _ c Hnil eq_refl Hc). }
  rewrite countElems_eq, countAttrs_eq.
  rewrite <- (sum_groups countElems _ _ Hnd Hall), <- (sum_groups countAttrs _ _ Hnd Hall).
  clear Hperm Hnd Hall. unfold compareTagGroups.
  intros Hr.
  refine (counted_trans 1 (length (etree.Attrs e)) _ _ _ _ _ H1 _).
  revert Hr. generalize c1. generalize (rangeTags currentPath (dom group)).
  intros tags. induction tags as [|tag tags IHt]; intros c0; cbn [foldl sum_list_with].
  - intros [= <-]. apply counted_refl.
  - destruct (compareChildren (compareFuel rangeAttrs rangeTags fuel) currentPath
                (default [] (group !! tag)) (default [] (group !! tag)) (Some c0))
      as [c2|] eqn:Hc.
    + intros Hr. eapply counted_trans; [|by apply IHt].
      unfold group in Hc. rewrite groupElementsByTag_default in Hc.
      by apply (compareChildren_counted _ _ _ _ _ IH Hc).
    + intros Hr. exfalso.
      change (compareTagGroups (compareFuel rangeAttrs rangeTags fuel) currentPath
                group group tags None = Some comp') in Hr.
      by rewrite compareTagGroups_None in Hr.
Qed.

(** X27.  The counters of a tree compared with itself.  Suppose the loop
    over the tags visits every tag once.  Then [CompareDOMTrees] on an
    element and the same element increments both element counters once for
    every element of the tree, and both attribute counters once for every
    attribute of every element, namespace declarations included. *)
Theorem CompareDOMTrees_same_tree_counters
    (e : Element) (path : gostring) (comp : DOMComparison) :
  let result := CompareDOMTrees rangeAttrs rangeTags (Some e) (Some e) path comp in
  ElementsOriginal result = incremented (countElems e) (ElementsOriginal comp)
  ∧ ElementsMarshaled result = incremented (countElems e) (ElementsMarshaled comp)
  ∧ AttributesOriginal result = incremented (countAttrs e) (AttributesOriginal comp)
  ∧ AttributesMarshaled result = incremented (countAttrs e) (AttributesMarshaled comp).
Proof using All.
  intros result.
  apply (compareFuel_counted _ _ _ _ _
           (CompareDOMTrees_run rangeAttrs rangeTags (Some e) (Some e) path comp)).
Qed.

End OracleCounters.

(** X27 on the sample document. *)
Lemma CompareDOMTrees_same_tree_counters_witness :
  let result := CompareDOMTrees rangeAttrsCanonical rangeTagsCanonical
                  (Some sampleOriginal) (Some sampleOriginal) [] newComparison in
  ElementsOriginal result
  = incremented (countElems sampleOriginal) (ElementsOriginal newComparison)
  ∧ ElementsMarshaled result
    = incremented (countElems sampleOriginal) (ElementsMarshaled newComparison)
  ∧ AttributesOriginal result
    = incremented (countAttrs sampleOriginal) (AttributesOriginal newComparison)
  ∧ AttributesMarshaled result
    = incremented (countAttrs sampleOriginal) (AttributesMarshaled newComparison).
Proof.
  apply (CompareDOMTrees_same_tree_counters rangeAttrsCanonical rangeTagsCanonical).
  - intros p attrs. unfold rangeOf, rangeAttrsCanonical. reflexivity.
  - intros p tags. unfold rangeTagsCanonical. reflexivity.
Defined.

(** *** The test helpers built on the registry *)

(** X28.  The guard of [getUnmarshalerForMessageType] is effective.  The
    helper returns no unmarshaler exactly when no registry key starts with
    ["messageType/version/"]; an unmarshaler it returns never fails at the
    lookup, on any document and whatever the iteration order of each call:
    its outcome is that of unmarshalling into the type of an entry with
    such a key. *)
Theorem getUnmarshalerForMessageType_guard
    (message : Type) (Unmarshal : gostring → gostring → message + gostring)
    (registry : gmap gostring MessageTypeInfo)
    (registeredOrder : list (gostring * MessageTypeInfo))
    (parseOrder : gostring → list (gostring * MessageTypeInfo))
    (messageType version : gostring) :
  rangeOf registry registeredOrder →
  (∀ data, rangeOf registry (parseOrder data)) →
  match getUnmarshalerForMessageType message Unmarshal registeredOrder parseOrder
          messageType version with
  | None =>
      ∀ key, is_Some (registry !! key) →
        ¬ (messageType ++ [slash] ++ version ++ [slash]) `prefix_of` key
  | Some unmarshaler =>
      ∀ data, ∃ key info,
        registry !! key = Some info
        ∧ (messageType ++ [slash] ++ version ++ [slash]) `prefix_of` key
        ∧ unmarshaler data
          = match Unmarshal (Type_ info) data with
            | inl msg => inr msg
            | inr cause => inl (UnmarshalTypedFailed messageType version cause)
            end
  end.
Proof.
  intros Hreg Hparse. unfold getUnmarshalerForMessageType.
  destruct (IsRegistered registeredOrder messageType version) eqn:His; cbn [negb].
  - intros data. unfold Parse.
    destruct (New (parseOrder data) messageType version) as [type|e] eqn:Hnew.
    + apply New_Ok_elem in Hnew as (key & info & Hin & Hp%HasPrefix_true & ->).
      apply (rangeOf_elem registry (parseOrder data)) in Hin; [|done].
      exists key, info. split; [done|]. split; [done|]. by destruct (Unmarshal _ _).
    + exfalso. apply New_Err in Hnew as [_ Hf].
      apply IsRegistered_true_iff in His as (key & info & Hin & Hp).
      assert (IsRegistered (parseOrder data) messageType version = true); [|congruence].
      apply IsRegistered_true_iff. exists key, info. split; [|done].
      apply (rangeOf_elem registry (parseOrder data)); [done|].
      by apply (rangeOf_elem registry registeredOrder).
  - intros key [info Hl] Hp.
    assert (IsRegistered registeredOrder messageType version = true); [|congruence].
    apply IsRegistered_true_iff. exists key, info.
    split; [by apply (rangeOf_elem registry registeredOrder)|by apply HasPrefix_true].
Qed.

(** X28 on the generated registry: ERN 4.3, with calls that range over the
    registry in the opposite order. *)
Lemma getUnmarshalerForMessageType_guard_witness :
  match getUnmarshalerForMessageType gostring (fun type _ => inl type)
          (map_to_list sampleRegistry) (fun _ => reverse (map_to_list sampleRegistry))
          (lit "ern") (lit "v43") with
  | None =>
      ∀ key, is_Some (sampleRegistry !! key) →
        ¬ (lit "ern" ++ [slash] ++ lit "v43" ++ [slash]) `prefix_of` key
  | Some unmarshaler =>
      ∀ data, ∃ key info,
        sampleRegistry !! key = Some info
        ∧ (lit "ern" ++ [slash] ++ lit "v43" ++ [slash]) `prefix_of` key
        ∧ unmarshaler data
          = match @inl gostring gostring (Type_ info) with
            | inl msg => inr msg
            | inr cause => inl (UnmarshalTypedFailed (lit "ern") (lit "v43") cause)
            end
  end.
Proof.
  apply (getUnmarshalerForMessageType_guard gostring (fun type _ => inl type)
           sampleRegistry (map_to_list sampleRegistry)
           (fun _ => reverse (map_to_list sampleRegistry)) (lit "ern") (lit "v43")).
  - unfold rangeOf. reflexivity.
  - intros data. unfold rangeOf. apply reverse_Permutation.
Defined.

(** X29.  A document that is not recognized cannot pass the round trip.
    With the validator of [getRoundTripValidatorForMessageType], a run on a
    document for which [DetectMessageType] fails ends without [Success],
    with empty lists and zero counters, and with [MarshaledParseable] still
    set although nothing was marshaled. *)
Theorem unrecognized_document_fails_round_trip
    (message : Type) (decodeTokens : gostring → list Token * gostring)
    (Unmarshal : gostring → gostring → message + gostring)
    (MarshalIndent : message → option gostring)
    (registry : gmap gostring MessageTypeInfo)
    (detectOrder : gostring → list (gostring * MessageTypeInfo))
    (rangeAttrs : gostring → gmap gostring gostring → list (gostring * gostring))
    (rangeTags : gostring → gset gostring → list gostring)
    (parseDocument : gostring → option (option Element))
    (originalXML : gostring) (e : registryError) :
  DetectMessageType (detectOrder originalXML) (decodeTokens originalXML).1
    (decodeTokens originalXML).2 = Err e →
  let validator := getRoundTripValidatorForMessageType message decodeTokens Unmarshal
                     MarshalIndent registry detectOrder in
  validator originalXML = None
  ∧ PerformRoundTripValidationFromData rangeAttrs rangeTags parseDocument validator
      originalXML
    = setSuccess false newComparison.
Proof.
  intros Hdetect validator.
  assert (Hval : validator originalXML = None).
  { unfold validator, getRoundTripValidatorForMessageType, ParseAny. by rewrite Hdetect. }
  split; [done|]. unfold PerformRoundTripValidationFromData.
  destruct (parseDocument originalXML); [|done]. by rewrite Hval.
Qed.

(** X29 on the generated registry: a document of an unregistered ERN
    version. *)
Lemma unrecognized_document_fails_round_trip_witness :
  let validator := getRoundTripValidatorForMessageType gostring
                     (fun _ => (minimalDocument (lit "NewReleaseMessage")
                                  (lit "http://ddex.net/xml/ern/999"), []))
                     (fun type _ => inl type) (fun msg => Some msg)
                     sampleRegistry (fun _ => map_to_list sampleRegistry) in
  validator (lit "<NewReleaseMessage/>") = None
  ∧ PerformRoundTripValidationFromData rangeAttrsCanonical rangeTagsCanonical
      sampleParse validator (lit "<NewReleaseMessage/>")
    = setSuccess false newComparison.
Proof.
  apply (unrecognized_document_fails_round_trip gostring
           (fun _ => (minimalDocument (lit "NewReleaseMessage")
                        (lit "http://ddex.net/xml/ern/999"), []))
           (fun type _ => inl type) (fun msg => Some msg)
           sampleRegistry (fun _ => map_to_list sampleRegistry)
           rangeAttrsCanonical rangeTagsCanonical sampleParse
           (lit "<NewReleaseMessage/>")
           (UnrecognizedDocument (lit "NewReleaseMessage")
              (lit "http://ddex.net/xml/ern/999"))).
  vm_compute. reflexivity.
Defined.

(** *** The versioned ERN API *)

Lemma Index_is_Some s substr :
  is_Some (Index s substr) ↔ ∃ pre post, s = pre ++ substr ++ post.
Proof.
  induction s as [|c s IH]; cbn [Index].
  - destruct (HasPrefix [] substr) eqn:E.
    + apply HasPrefix_true in E as [k Hk]. split; [|eauto].
      intros _. exists [], k. done.
    + split; [by intros [? ?]|]. intros (pre & post & Hs).
      symmetry in Hs. apply app_eq_nil in Hs as [-> [-> ->]%app_eq_nil].
      by vm_compute in E.
  - destruct (HasPrefix (c :: s) substr) eqn:E.
    + apply HasPrefix_true in E as [k Hk]. split; [|eauto].
      intros _. exists [], k. done.
    + rewrite fmap_is_Some, IH. split.
      * intros (pre & post & ->). by exists (c :: pre), post.
      * intros (pre & post & Hs). destruct pre as [|c' pre].
        -- exfalso. cbn [app] in Hs.
           assert (HasPrefix (c :: s) substr = true); [|congruence].
           apply HasPrefix_true. by exists post.
        -- injection Hs as -> ->. by exists pre, post.
Qed.

Lemma Contains_true s substr :
  Contains s substr = true ↔ ∃ pre post, s = pre ++ substr ++ post.
Proof. unfold Contains. by rewrite bool_decide_eq_true, Index_is_Some. Qed.

(** X30.  [ParseERNWithVersion] chooses the message type by substring, not
    by the root element.  Let [package] be the package of a supported
    version ([ernv43], [ernv383], [ernv432] for ["43"], ["383"], ["432"]).
    - A document in which the text [NewReleaseMessage] occurs anywhere is
      unmarshalled into [package.NewReleaseMessage], also when it is a
      purge-release message that mentions the name.
    - A document in which [NewReleaseMessage] does not occur and
      [PurgeReleaseMessage] does is unmarshalled into
      [package.PurgeReleaseMessage].
    - In both cases the message value is returned together with the error
      of [xml.Unmarshal], if any.
    - When one of the names occurs and the version is not supported, the
      result is no message and the error "unsupported ERN version".
    - When neither name occurs, and only then, the result is no message and
      the error "unknown ERN message type", whatever the version. *)
Theorem ParseERNWithVersion_dispatch
    (message : Type) (UnmarshalInto : gostring → gostring → message * option gostring)
    (xmlData version : gostring) :
  let occurs name := ∃ pre post, xmlData = pre ++ name ++ post in
  let result := ParseERNWithVersion message UnmarshalInto xmlData version in
  let unmarshalled type :=
    (Some (UnmarshalInto type xmlData).1,
     ERNUnmarshalError <$> (UnmarshalInto type xmlData).2) in
  let packages :=
    [(lit "43", lit "ernv43"); (lit "383", lit "ernv383"); (lit "432", lit "ernv432")] in
  (occurs (lit "NewReleaseMessage") →
   ∀ package, (version, package) ∈ packages →
     result = unmarshalled (package ++ lit ".NewReleaseMessage"))
  ∧ (¬ occurs (lit "NewReleaseMessage") → occurs (lit "PurgeReleaseMessage") →
     ∀ package, (version, package) ∈ packages →
       result = unmarshalled (package ++ lit ".PurgeReleaseMessage"))
  ∧ (occurs (lit "NewReleaseMessage") ∨ occurs (lit "PurgeReleaseMessage") →
     (∀ package, (version, package) ∉ packages) →
     result = (None, Some (UnsupportedERNVersion version)))
  ∧ (result = (None, Some UnknownERNMessageType)
     ↔ ¬ occurs (lit "NewReleaseMessage") ∧ ¬ occurs (lit "PurgeReleaseMessage")).
Proof.
  intros occurs result unmarshalled packages.
  assert (Hocc : ∀ name, occurs name ↔ Contains xmlData name = true).
  { intros name. symmetry. apply Contains_true. }
  assert (Hsupported : ∀ package name,
            (version, package) ∈ packages →
            (if bool_decide (version = lit "43")
             then unmarshalERN message UnmarshalInto (lit "ernv43." ++ name) xmlData
             else if bool_decide (version = lit "383")
             then unmarshalERN message UnmarshalInto (lit "ernv383." ++ name) xmlData
             else if bool_decide (version = lit "432")
             then unmarshalERN message UnmarshalInto (lit "ernv432." ++ name) xmlData
             else (None, Some (UnsupportedERNVersion version)))
            = unmarshalled (package ++ lit "." ++ name)).
  { intros package name Hin. unfold packages in Hin.
    repeat (apply elem_of_cons in Hin as [[= -> ->]|Hin]; [reflexivity|]).
    by apply elem_of_nil in Hin. }
  assert (Hunsupported : ∀ name,
            (∀ package, (version, package) ∉ packages) →
            (if bool_decide (version = lit "43")
             then unmarshalERN message UnmarshalInto (lit "ernv43." ++ name) xmlData
             else if bool_decide (version = lit "383")
             then unmarshalERN message UnmarshalInto (lit "ernv383." ++ name) xmlData
             else if bool_decide (version = lit "432")
             then unmarshalERN message UnmarshalInto (lit "ernv432." ++ name) xmlData
             else (None, Some (UnsupportedERNVersion version)))
            = (None, Some (UnsupportedERNVersion version))).
  { intros name Hno. unfold packages in Hno.
    repeat case_bool_decide; try done; subst version; exfalso.
    - apply (Hno (lit "ernv43")). by left.
    - apply (Hno (lit "ernv383")). right. by left.
    - apply (Hno (lit "ernv432")). right. right. by left. }
  assert (Hknown : ∀ name,
            (if bool_decide (version = lit "43")
             then unmarshalERN message UnmarshalInto (lit "ernv43." ++ name) xmlData
             else if bool_decide (version = lit "383")
             then unmarshalERN message UnmarshalInto (lit "ernv383." ++ name) xmlData
             else if bool_decide (version = lit "432")
             then unmarshalERN message UnmarshalInto (lit "ernv432." ++ name) xmlData
             else (None, Some (UnsupportedERNVersion version)))
            ≠ (None, Some UnknownERNMessageType)).
  { intros name. unfold unmarshalERN. repeat case_bool_decide; done. }
  rewrite !Hocc. unfold result, ParseERNWithVersion.
  destruct (Contains xmlData (lit "NewReleaseMessage")) eqn:Hn.
  - split; [|split; [|split; [|split]]].
    + intros _ package Hin.
      apply (Hsupported package (lit "NewReleaseMessage") Hin).
    + by intros Hno.
    + intros _ Hno. apply (Hunsupported (lit "NewReleaseMessage") Hno).
    + intros Heq. by destruct (Hknown (lit "NewReleaseMessage")).
    + by intros [? _].
  - destruct (Contains xmlData (lit "PurgeReleaseMessage")) eqn:Hp.
    + split; [|split; [|split; [|split]]].
      * done.
      * intros _ _ package Hin.
        apply (Hsupported package (lit "PurgeReleaseMessage") Hin).
      * intros _ Hno. apply (Hunsupported (lit "PurgeReleaseMessage") Hno).
      * intros Heq. by destruct (Hknown (lit "PurgeReleaseMessage")).
      * by intros [_ ?].
    + split; [|split; [|split; [|split]]]; try done.
      by intros [?|?].
Qed.

(** ** Part IV: where the code departs from its own comments *)

(** *** Attribute fields whose tag carries options after [attr] *)

(** C2.  The generated [MarshalXML] states that it adds the entries of
    [NamespaceAttrs] "avoiding duplicates" and finds "which attributes are
    already handled by struct fields"; its reflection loop recognises such a
    field by a tag that ends in [,attr].  A field tagged
    [xsi:schemaLocation,attr,omitempty] is an attribute field named
    [xsi:schemaLocation], yet its tag does not end in [,attr]: the loop does
    not collect its key, and the entry [xsi:schemaLocation] of
    [NamespaceAttrs] (which [UnmarshalXML] captured from the document) is
    appended to the start element although a typed field writes the same
    attribute. *)
Theorem MarshalXML_appends_key_of_attr_field_with_options :
  let location := lit "http://ddex.net/xml/ern/43 release-notification.xsd" in
  let fieldTags := [lit "MessageHeader"; lit "xsi:schemaLocation,attr,omitempty"] in
  let namespaceAttrs :=
    captureNamespaceAttrs None [mkAttr (mkName NamespaceXSI (lit "schemaLocation")) location] in
  let start := mkStart (mkName [] (lit "NewReleaseMessage")) [] in
  attrFieldName (lit "xsi:schemaLocation,attr,omitempty") = Some (lit "xsi:schemaLocation")
  ∧ namespaceAttrs = {[lit "xsi:schemaLocation" := location]}
  ∧ indexBool (existingAttrsOf fieldTags) (lit "xsi:schemaLocation") = false
  ∧ StartAttr (MarshalXML_start (lit "http://ddex.net/xml/ern/43") fieldTags
                 (map_to_list namespaceAttrs) start)
    = [mkAttr (mkName [] (lit "xsi:schemaLocation")) location].
Proof.
  repeat split; vm_compute; reflexivity.
Qed.

(** With the tag [xsi:schemaLocation,attr], which the loop does recognise,
    the same entry is left out. *)
Example MarshalXML_suppresses_key_of_plain_attr_field :
  let location := lit "http://ddex.net/xml/ern/43 release-notification.xsd" in
  let fieldTags := [lit "MessageHeader"; lit "xsi:schemaLocation,attr"] in
  attrFieldName (lit "xsi:schemaLocation,attr") = Some (lit "xsi:schemaLocation")
  ∧ StartAttr (MarshalXML_start (lit "http://ddex.net/xml/ern/43") fieldTags
                 (map_to_list ({[lit "xsi:schemaLocation" := location]}
                                 : gmap gostring gostring))
                 (mkStart (mkName [] (lit "NewReleaseMessage")) []))
    = [].
Proof.
  repeat split; vm_compute; reflexivity.
Qed.

(** *** Namespace declarations with a prefix in the attribute comparison *)

(** C8.  [CompareDOMTrees] states that its attribute loop ignores namespace
    declarations, and skips the keys that start with [xmlns].  [etree] gives
    a declaration [xmlns:p="u"] the space [xmlns] and the key [p], so the
    test only finds the default declaration [xmlns="u"].  Whatever the
    iteration order: a declaration with a prefix that does not itself start
    with [xmlns], on an original element whose marshaled counterpart has no
    attribute with that key, is recorded as the missing attribute
    [currentPath@p]. *)
Theorem CompareDOMTrees_reports_prefixed_declaration
    (rangeAttrs : gostring → gmap gostring gostring → list (gostring * gostring))
    (rangeTags : gostring → gset gostring → list gostring)
    (original marshaled : Element) (path : gostring) (comp : DOMComparison)
    (declaration : etree.Attr) :
  (∀ p attrs, rangeOf attrs (rangeAttrs p attrs)) →
  declaration ∈ etree.Attrs original →
  etree.Space declaration = lit "xmlns" →
  HasPrefix (etree.Key declaration) (lit "xmlns") = false →
  (∀ b, b ∈ etree.Attrs marshaled → etree.Key b ≠ etree.Key declaration) →
  (path ++ lit "/" ++ etree.Tag original) ++ lit "@" ++ etree.Key declaration
  ∈ MissingAttributes
      (CompareDOMTrees rangeAttrs rangeTags (Some original) (Some marshaled) path comp).
Proof.
  intros Hrange Hin _ Hx Hno.
  destruct (CompareDOMTrees_attribute_comparison rangeAttrs rangeTags
              original marshaled path comp Hrange)
    as (missing & mismatched & laterMissing & laterMismatches
        & HA & _ & _ & Hmissing & _).
  rewrite HA. apply elem_of_app. right. apply elem_of_app. left.
  destruct (proj2 (attrMap_is_Some (etree.Attrs original) (etree.Key declaration)))
    as [value Hvalue]; [eauto|].
  apply list_elem_of_fmap. exists (etree.Key declaration, value). split; [done|].
  apply (Hmissing _ _ Hvalue Hx).
  destruct (attrMap (etree.Attrs marshaled) !! etree.Key declaration) eqn:Hm; [|done].
  destruct (proj1 (attrMap_is_Some (etree.Attrs marshaled) (etree.Key declaration)))
    as (b & Hb & Hk); [eauto|].
  by destruct (Hno b Hb).
Qed.

(** C8 at [<a xmlns:p="u"/>] against [<a/>]. *)
Lemma CompareDOMTrees_reports_prefixed_declaration_witness :
  ([] ++ lit "/"
      ++ etree.Tag (etree.mkElement (lit "a")
                      [etree.mkAttr (lit "xmlns") (lit "p") (lit "u")] [] []))
    ++ lit "@" ++ etree.Key (etree.mkAttr (lit "xmlns") (lit "p") (lit "u"))
  ∈ MissingAttributes
      (CompareDOMTrees rangeAttrsCanonical rangeTagsCanonical
         (Some (etree.mkElement (lit "a")
                  [etree.mkAttr (lit "xmlns") (lit "p") (lit "u")] [] []))
         (Some (etree.mkElement (lit "a") [] [] [])) [] newComparison).
Proof.
  apply (CompareDOMTrees_reports_prefixed_declaration rangeAttrsCanonical
           rangeTagsCanonical
           (etree.mkElement (lit "a") [etree.mkAttr (lit "xmlns") (lit "p") (lit "u")] [] [])
           (etree.mkElement (lit "a") [] [] []) [] newComparison
           (etree.mkAttr (lit "xmlns") (lit "p") (lit "u"))).
  - intros p attrs. unfold rangeOf, rangeAttrsCanonical. reflexivity.
  - by left.
  - reflexivity.
  - vm_compute. reflexivity.
  - intros b Hb. by apply elem_of_nil in Hb.
Defined.

(** The report at that input, and at the default declaration, which is
    skipped. *)
Example CompareDOMTrees_declarations_sample :
  MissingAttributes
    (CompareDOMTrees rangeAttrsCanonical rangeTagsCanonical
       (Some (etree.mkElement (lit "a")
                [etree.mkAttr (lit "xmlns") (lit "p") (lit "u")] [] []))
       (Some (etree.mkElement (lit "a") [] [] [])) [] newComparison)
  = [lit "/a@p"]
  ∧ MissingAttributes
      (CompareDOMTrees rangeAttrsCanonical rangeTagsCanonical
         (Some (etree.mkElement (lit "a")
                  [etree.mkAttr [] (lit "xmlns") (lit "u")] [] []))
         (Some (etree.mkElement (lit "a") [] [] [])) [] newComparison)
    = [].
Proof.
  split; vm_compute; reflexivity.
Qed.
